(** * Pro DJ Remix Studio: the control logic of [App.tsx], embedded in Rocq

    The development follows the source file component by component:
    JavaScript helpers, the crossfader law, tap tempo, the MIDI binding
    layer, the Camelot wheel, the beat-kit store, the deck engine with its
    transport clock, and the Auto-DJ track selection.  Definitions come
    first, the theorems about them follow.

    Numbers.  Tap tempo, whose result depends on how the arithmetic
    rounds, is modelled on doubles (the primitive type [float], binary64,
    round to nearest even, as JavaScript numbers).  Elsewhere a JavaScript
    [number] is modelled by an exact rational ([Q]), and the crossfader and
    the gain laws, which call [Math.cos], [Math.sin] and [Math.pow], over
    the real numbers ([R]) with the exact functions and with [Math.PI] at
    its value as a double; rounding of the arithmetic is outside these
    models, and what is proved over them are bounds, orders and values that
    rounding keeps, not exact identities between computed numbers.  [NaN] is
    made explicit as [None] where the source can produce it ([parseInt],
    [%]).

    Strings.  A string is a sequence of code units below 256 (the type
    [string] of the Standard Library). *)

From Stdlib Require Import ZArith QArith Qabs Qround Qminmax.
From Stdlib Require Import Reals Qreals Machin Psatz Lia.
From Stdlib Require Import String Ascii List Bool DecimalString Permutation.
From Stdlib Require Floats.
Import ListNotations.

(* ================================================================== *)
(** * JavaScript helpers *)
(* ================================================================== *)

Module Js.

Local Open Scope Q_scope.

(** ** Numbers *)

Definition number : Type := Q.

(** [x === y] on two numbers. *)
Definition num_eq (x y : Q) : bool := Qeq_bool x y.

Definition num_le (x y : Q) : bool := Qle_bool x y.
Definition num_lt (x y : Q) : bool := negb (Qle_bool y x).
Definition num_ge (x y : Q) : bool := Qle_bool y x.
Definition num_gt (x y : Q) : bool := negb (Qle_bool x y).

(** Truthiness of a number: every number but zero (there is no NaN here). *)
Definition truthy_num (x : Q) : bool := negb (Qeq_bool x 0).

(** Truthiness of [number | null | undefined]. *)
Definition truthy_onum (x : option Q) : bool :=
  match x with
  | Some q => truthy_num q
  | None => false
  end.

(** [Math.round]: the nearest integer, halves go up. *)
Definition Math_round (x : Q) : Z := Qfloor (x + (1 # 2)).

Definition Math_ceil (x : Q) : Z := Qceiling x.
Definition Math_floor (x : Q) : Z := Qfloor x.

(** Truncation towards zero, the quotient used by [%]. *)
Definition trunc (x : Q) : Z :=
  if Qle_bool 0 x then Qfloor x else Qceiling x.

(** [a % b]: the remainder has the sign of the dividend; [NaN] when the
    divisor is zero. *)
Definition rem (a b : Q) : option Q :=
  if Qeq_bool b 0 then None
  else Some (a - b * inject_Z (trunc (a / b))).

(** ** Strings *)

Local Open Scope string_scope.

(** Truthiness of a string: every string but the empty one. *)
Definition truthy_str (s : string) : bool := negb (String.eqb s "").

Definition truthy_ostr (s : option string) : bool :=
  match s with
  | Some t => truthy_str t
  | None => false
  end.

Definition code (c : ascii) : nat := nat_of_ascii c.

(** The line terminators below 256: LF and CR. *)
Definition isLineTerminator (c : ascii) : bool :=
  Nat.eqb (code c) 10 || Nat.eqb (code c) 13.

(** The class [\s] below 256: TAB, LF, VT, FF, CR, SP and NBSP.  The same
    set is stripped by [trim] and skipped by [parseInt]. *)
Definition isWhiteSpace (c : ascii) : bool :=
  (Nat.leb 9 (code c) && Nat.leb (code c) 13)
  || Nat.eqb (code c) 32 || Nat.eqb (code c) 160.

Fixpoint trimStart (s : string) : string :=
  match s with
  | String c s' => if isWhiteSpace c then trimStart s' else s
  | EmptyString => EmptyString
  end.

Fixpoint rev_string (acc s : string) : string :=
  match s with
  | String c s' => rev_string (String c acc) s'
  | EmptyString => acc
  end.

Definition trimEnd (s : string) : string :=
  rev_string "" (trimStart (rev_string "" s)).

Definition trim (s : string) : string := trimEnd (trimStart s).

(** [toLowerCase] on one code unit below 256: A-Z and the Latin-1 capitals
    (all of 192-222 but the multiplication sign 215) move up by 32. *)
Definition lower_char (c : ascii) : ascii :=
  let n := code c in
  if (Nat.leb 65 n && Nat.leb n 90)
     || (Nat.leb 192 n && Nat.leb n 222 && negb (Nat.eqb n 215))
  then ascii_of_nat (n + 32) else c.

Fixpoint toLowerCase (s : string) : string :=
  match s with
  | String c s' => String (lower_char c) (toLowerCase s')
  | EmptyString => EmptyString
  end.

(** [s.slice(0, -1)]: everything but the last code unit. *)
Fixpoint slice_init (s : string) : string :=
  match s with
  | EmptyString => EmptyString
  | String c EmptyString => EmptyString
  | String c s' => String c (slice_init s')
  end.

(** [s.slice(-1)]: the last code unit, or the empty string. *)
Fixpoint slice_last (s : string) : string :=
  match s with
  | EmptyString => EmptyString
  | String c EmptyString => String c EmptyString
  | String c s' => slice_last s'
  end.

(** ** [parseInt] without a radix argument

    Leading white space is skipped, a sign is read, a [0x] prefix selects
    base 16, and the longest prefix of digits is converted; no digit at all
    gives [NaN] ([None]).  The value is kept exact. *)

Definition digit_val (radix : Z) (c : ascii) : option Z :=
  let n := Z.of_nat (code c) in
  let v :=
    if (48 <=? n)%Z && (n <=? 57)%Z then Some (n - 48)%Z
    else if (97 <=? n)%Z && (n <=? 122)%Z then Some (n - 87)%Z
    else if (65 <=? n)%Z && (n <=? 90)%Z then Some (n - 55)%Z
    else None in
  match v with
  | Some d => if (d <? radix)%Z then Some d else None
  | None => None
  end.

Fixpoint digits_prefix (radix : Z) (acc : option Z) (s : string) : option Z :=
  match s with
  | String c s' =>
      match digit_val radix c with
      | Some d =>
          digits_prefix radix
            (Some (radix * match acc with Some a => a | None => 0 end + d)%Z) s'
      | None => acc
      end
  | EmptyString => acc
  end.

Definition strip_hex_prefix (s : string) : option string :=
  match s with
  | String "0" (String "x" s') => Some s'
  | String "0" (String "X" s') => Some s'
  | _ => None
  end.

Definition parse_unsigned (s : string) : option Z :=
  match strip_hex_prefix s with
  | Some s' => digits_prefix 16 None s'
  | None => digits_prefix 10 None s
  end.

Definition parseInt (s : string) : option Z :=
  match trimStart s with
  | String "-" s' => option_map Z.opp (parse_unsigned s')
  | String "+" s' => parse_unsigned s'
  | s' => parse_unsigned s'
  end.

(** A number inside a template literal: decimal digits, or [NaN]. *)
Definition show_int (n : option Z) : string :=
  match n with
  | Some z => NilEmpty.string_of_int (Z.to_int z)
  | None => "NaN"
  end.

Definition show_nat (n : nat) : string :=
  NilEmpty.string_of_uint (Nat.to_uint n).

(** ** Arrays *)

(** [xs.includes(x)] and [set.has(x)]. *)
Definition includes_str (xs : list string) (x : string) : bool :=
  existsb (String.eqb x) xs.

Definition has_num (xs : list Q) (x : Q) : bool :=
  existsb (num_eq x) xs.

(** The last element of an array, [undefined] on the empty one. *)
Definition last_opt {A : Type} (xs : list A) : option A :=
  match rev xs with
  | x :: _ => Some x
  | [] => None
  end.

End Js.

(* ================================================================== *)
(** * The Camelot wheel *)
(* ================================================================== *)

Module Camelot.

Local Open Scope string_scope.

Definition CAMELOT_KEYS : list string :=
  [ "1A"; "1B"; "2A"; "2B"; "3A"; "3B"; "4A"; "4B";
    "5A"; "5B"; "6A"; "6B"; "7A"; "7B"; "8A"; "8B";
    "9A"; "9B"; "10A"; "10B"; "11A"; "11B"; "12A"; "12B" ].

(** [num === k] for a possibly-NaN [num]. *)
Definition is_num (num : option Z) (k : Z) : bool :=
  match num with
  | Some n => Z.eqb n k
  | None => false
  end.

Definition getCompatibleKeys (key : string) : list string :=
  if negb (Js.truthy_str key) then []
  else
    let num := Js.parseInt (Js.slice_init key) in
    let letter := Js.slice_last key in
    let other := if String.eqb letter "A" then "B" else "A" in
    let nextNum := if is_num num 12 then Some 1%Z else option_map Z.succ num in
    let prevNum := if is_num num 1 then Some 12%Z else option_map Z.pred num in
    [ Js.show_int num ++ other;
      Js.show_int nextNum ++ letter;
      Js.show_int prevNum ++ letter ].

(** The spec's wording of the adjacency rule, on (number, mode) pairs. *)
Inductive mode : Type := ModeA | ModeB.

Definition mode_letter (m : mode) : string :=
  match m with ModeA => "A" | ModeB => "B" end.

Definition opposite (m : mode) : mode :=
  match m with ModeA => ModeB | ModeB => ModeA end.

Definition camelot (n : Z) (m : mode) : string :=
  Js.show_int (Some n) ++ mode_letter m.

Definition wheel_next (n : Z) : Z := if Z.eqb n 12 then 1%Z else (n + 1)%Z.
Definition wheel_prev (n : Z) : Z := if Z.eqb n 1 then 12%Z else (n - 1)%Z.

Definition adjacency_rule (n : Z) (m : mode) : list string :=
  [ camelot n (opposite m); camelot (wheel_next n) m; camelot (wheel_prev n) m ].

End Camelot.

(* ================================================================== *)
(** * Mixing stage: the crossfader law *)
(* ================================================================== *)

Module Crossfader.

Local Open Scope R_scope.

(** [Math.PI] is the double nearest to pi, with bit pattern
    400921FB54442D18: the rational 884279719003555 / 2^48. *)
Definition Math_PI_Q : Q := 884279719003555 # 281474976710656.

Definition Math_PI : R := Q2R Math_PI_Q.

Inductive CrossfaderCurveType : Type :=
| Linear      (* 'linear', also the [default] branch *)
| SlowFade    (* 'slow-fade', the constant-power curve *)
| FastCut.    (* 'fast-cut' *)

(** Normalisation of the bipolar position to 0 (deck A) .. 1 (deck B). *)
Definition position (crossfader : R) : R := (crossfader + 1) / 2.

(** The pair (gainA, gainB) of the crossfader effect, for a given value of
    the constant written [Math.PI] in the source. *)
Definition gainsWith (pi : R) (crossfaderCurve : CrossfaderCurveType)
  (crossfader : R) : R * R :=
  let position := position crossfader in
  match crossfaderCurve with
  | SlowFade =>
      (cos (position * pi / 2), sin (position * pi / 2))
  | FastCut =>
      let p := if Rlt_dec position (1 / 2)
               then 2 * position else 2 * (1 - position) in
      let shapedP := p ^ 3 in
      if Rlt_dec position (1 / 2)
      then (1 - shapedP / 2, shapedP / 2)
      else (shapedP / 2, 1 - shapedP / 2)
  | Linear =>
      (1 - position, position)
  end.

(** The gains the effect computes. *)
Definition gains : CrossfaderCurveType -> R -> R * R := gainsWith Math_PI.

Definition gainA (c : CrossfaderCurveType) (x : R) : R := fst (gains c x).
Definition gainB (c : CrossfaderCurveType) (x : R) : R := snd (gains c x).

(** The gain written to each deck's fader node. *)
Definition faderGain (deckVolume gain : R) : R := deckVolume * gain.

(** Rational partial sums of the alternating series for
    pi / 4 = 2 atan (1/3) + atan (1/7); they place [Math_PI] against pi. *)
Fixpoint qpow (q : Q) (n : nat) : Q :=
  match n with
  | O => 1%Q
  | S m => (q * qpow q m)%Q
  end.

Definition qterm (n : nat) : Q :=
  (qpow (-1) n *
   (2 * (qpow (1 # 3) (2 * n + 1) / inject_Z (Z.of_nat (2 * n + 1)))
    + qpow (1 # 7) (2 * n + 1) / inject_Z (Z.of_nat (2 * n + 1))))%Q.

Fixpoint qsum (N : nat) : Q :=
  match N with
  | O => qterm 0
  | S m => (qsum m + qterm (S m))%Q
  end.

End Crossfader.

(* ================================================================== *)
(** * Numbers as doubles *)
(* ================================================================== *)

(** Where a result depends on the rounding of the arithmetic, a [number]
    is the binary64 value it is: [+], [-], [*] and [/] are the primitive
    operations of the type [float], which round to nearest, ties to even,
    as the JavaScript operators do; comparisons are exact. *)
Module F64.

Import Floats.PrimFloat Floats.FloatOps Floats.SpecFloat.
Local Open Scope Q_scope.

(** [ToBoolean] of a number: false for [NaN], [0] and [-0]. *)
Definition truthy (x : float) : bool :=
  negb (is_nan x) && negb (is_zero x).

(** The value of a finite number, as a rational. *)
Definition exact (x : float) : option Q :=
  match Prim2SF x with
  | S754_zero _ => Some 0
  | S754_finite s m e =>
      Some ((if s then -1 else 1) * inject_Z (Zpos m) * Qpower 2 e)
  | S754_infinity _ => None
  | S754_nan => None
  end.

(** A number that is an integer, an infinity or [NaN]: what [Math.round]
    returns.  The sign of a zero is not kept. *)
Inductive Integral : Type :=
| Int (z : Z)
| PosInfinity
| NegInfinity
| NotANumber.

(** [Math.round(x)]: the integer closest to [x], the larger one of two
    that are equally close; an infinity and [NaN] are returned as they
    are.  The integer is computed from the value of [x] without rounding. *)
Definition Math_round (x : float) : Integral :=
  match exact x with
  | Some q => Int (Qfloor (q + (1 # 2)))
  | None =>
      match Prim2SF x with
      | S754_infinity false => PosInfinity
      | S754_infinity true => NegInfinity
      | _ => NotANumber
      end
  end.

(** [Math.min(a, r)] and [Math.max(a, r)] for an integer [a]. *)
Definition Math_min (a : Z) (r : Integral) : Integral :=
  match r with
  | Int z => Int (Z.min a z)
  | PosInfinity => Int a
  | NegInfinity => NegInfinity
  | NotANumber => NotANumber
  end.

Definition Math_max (a : Z) (r : Integral) : Integral :=
  match r with
  | Int z => Int (Z.max a z)
  | PosInfinity => PosInfinity
  | NegInfinity => Int a
  | NotANumber => NotANumber
  end.

(** An integer as a number (rounded, when it has more than 53 bits). *)
Definition of_Z (z : Z) : float :=
  SF2Prim (binary_normalize prec emax z 0 false).

Definition number (r : Integral) : float :=
  match r with
  | Int z => of_Z z
  | PosInfinity => infinity
  | NegInfinity => neg_infinity
  | NotANumber => nan
  end.

(** A zero, a finite number or an infinity of a given sign. *)
Definition signed (s : bool) (x : spec_float) : Prop :=
  match x with
  | S754_zero s' | S754_infinity s' | S754_finite s' _ _ => s' = s
  | S754_nan => False
  end.

End F64.

(* ================================================================== *)
(** * Metronome: tap tempo *)
(* ================================================================== *)

Module TapTempo.

Import Floats.PrimFloat.
Local Open Scope float_scope.

(** The two pieces of state the tap handler touches: the ref holding the
    recent tap times (readings of [performance.now()], milliseconds) and
    the metronome tempo. *)
Record State : Type := mkState {
  tapTempoTimestamps : list float;
  metronomeBpm : float
}.

(** The differences between neighbours, as the [for] loop pushes them. *)
Fixpoint intervals (ts : list float) : list float :=
  match ts with
  | a :: (b :: _) as rest => (b - a) :: intervals rest
  | _ => []
  end.

(** [xs.reduce((a, b) => a + b, 0)]. *)
Definition sum (xs : list float) : float := fold_left add xs 0.

Definition averageInterval (ts : list float) : float :=
  sum (intervals ts) / F64.of_Z (Z.of_nat (length (intervals ts))).

(** [Math.max(40, Math.min(240, newBpm))]. *)
Definition clampBpm (newBpm : F64.Integral) : F64.Integral :=
  F64.Math_max 40 (F64.Math_min 240 newBpm).

(** The window after the reset test, the push and the shift. *)
Definition window (now : float) (ts : list float) : list float :=
  let kept :=
    match Js.last_opt ts with
    | Some lastTap =>
        if F64.truthy lastTap && (2000 <? now - lastTap)
        then [] else ts
    | None => ts
    end in
  let pushed := kept ++ [now] in
  if Nat.ltb 5 (length pushed) then tl pushed else pushed.

Definition handleMetronomeTap (now : float) (st : State) : State :=
  let ts := window now (tapTempoTimestamps st) in
  if Nat.ltb 1 (length ts) then
    let avg := averageInterval ts in
    if 0 <? avg
    then mkState ts (F64.number (clampBpm (F64.Math_round (60000 / avg))))
    else mkState ts (metronomeBpm st)
  else mkState ts (metronomeBpm st).

(** A run of taps from the left. *)
Definition taps (nows : list float) (st : State) : State :=
  fold_left (fun s now => handleMetronomeTap now s) nows st.

End TapTempo.

(* ================================================================== *)
(** * JavaScript objects used as string-keyed maps *)
(* ================================================================== *)

(** An object is the list of its own properties in insertion order, which
    is the order [for ... in] and [Object.keys] follow for keys that are
    not array indices. *)
Module Obj.

Local Open Scope string_scope.

Definition t (V : Type) : Type := list (string * V).

Definition keys {V : Type} (o : t V) : list string := map fst o.

(** [o[k]]; [None] is [undefined] for an absent property. *)
Fixpoint get {V : Type} (k : string) (o : t V) : option V :=
  match o with
  | [] => None
  | (k', v) :: o' => if String.eqb k' k then Some v else get k o'
  end.

(** [o[k] = v]: an existing property keeps its place, a new one goes last. *)
Fixpoint set {V : Type} (k : string) (v : V) (o : t V) : t V :=
  match o with
  | [] => [(k, v)]
  | (k', v') :: o' =>
      if String.eqb k' k then (k, v) :: o' else (k', v') :: set k v o'
  end.

(** [delete o[k]]. *)
Definition delete {V : Type} (k : string) (o : t V) : t V :=
  filter (fun e => negb (String.eqb (fst e) k)) o.

End Obj.

(* ================================================================== *)
(** * MIDI binding layer *)
(* ================================================================== *)

Module Midi.

Local Open Scope string_scope.

(** Logical controls and physical message identifiers are strings in the
    source; the identifier is the template
    [type_channel_data1]. *)
Definition MappableControl : Type := string.
Definition MidiMessageId : Type := string.

(** The forward map: a property may be present and hold [undefined]. *)
Definition MidiMapping : Type := Obj.t (option MidiMessageId).

Definition ReverseMapping : Type := Obj.t MappableControl.

(** The identifier of an incoming message [command, data1, data2], [None]
    for the message classes the handler ignores. *)
Definition messageIdOf (command data1 data2 : Z) : option MidiMessageId :=
  let channel := (Z.land command 15 + 1)%Z in
  let status := Z.land command 240 in
  if Z.eqb status 144 || Z.eqb status 128 then
    let type :=
      if Z.eqb status 144 && Z.ltb 0 data2 then "note_on" else "note_off" in
    Some (type ++ "_" ++ Js.show_int (Some channel)
               ++ "_" ++ Js.show_int (Some data1))
  else if Z.eqb status 176 then
    Some ("cc_" ++ Js.show_int (Some channel)
                ++ "_" ++ Js.show_int (Some data1))
  else None.

(** [newMapping[key] === messageId]. *)
Definition holds (m : MidiMapping) (key : string) (messageId : MidiMessageId)
  : bool :=
  match Obj.get key m with
  | Some (Some v) => String.eqb v messageId
  | _ => false
  end.

(** The clearing loop of the learn update,
    [Object.keys(newMapping).forEach(key => ...)], on a list of keys. *)
Definition clear_loop (messageId : MidiMessageId) (ks : list string)
  (m : MidiMapping) : MidiMapping :=
  fold_left
    (fun newMapping key =>
       if holds newMapping key messageId
       then Obj.delete key newMapping else newMapping)
    ks m.

(** The learn update of [setMidiMapping]: every control bound to the
    message is removed from a copy of the map, then the control being
    learnt is bound. *)
Definition learn (messageId : MidiMessageId) (control : MappableControl)
  (prev : MidiMapping) : MidiMapping :=
  Obj.set control (Some messageId) (clear_loop messageId (Obj.keys prev) prev).

(** The loop [for (const control in midiMapping)] of the effect, on a list
    of controls. *)
Definition index_loop (midiMapping : MidiMapping) (ks : list string)
  (rev : ReverseMapping) : ReverseMapping :=
  fold_left
    (fun newReverseMapping control =>
       match Obj.get control midiMapping with
       | Some (Some messageId) =>
           if Js.truthy_str messageId
           then Obj.set messageId control newReverseMapping
           else newReverseMapping
       | _ => newReverseMapping
       end)
    ks rev.

(** The reverse index built by the effect on [midiMapping]. *)
Definition rebuild (midiMapping : MidiMapping) : ReverseMapping :=
  index_loop midiMapping (Obj.keys midiMapping) [].

(** At most one logical control per physical message. *)
Definition one_control_per_message (fwd : MidiMapping) : Prop :=
  forall c1 c2 m,
    Obj.get c1 fwd = Some (Some m) -> Obj.get c2 fwd = Some (Some m) ->
    c1 = c2.

Record State : Type := mkState {
  midiMapping : MidiMapping;
  reverseMidiMapping : ReverseMapping;
  isMidiLearning : option MappableControl
}.

(** The outcome of [localStorage.setItem] in the effect. *)
Inductive SetItem : Type := Stored | Throws.

(** The effect that runs after every change of [midiMapping].  Saving the
    mapping and rebuilding the reverse index share one [try] block: when
    [setItem] throws, the rest of the block is skipped and the index is
    left as it was. *)
Definition syncReverse (storage : SetItem) (st : State) : State :=
  match storage with
  | Stored =>
      mkState (midiMapping st) (rebuild (midiMapping st)) (isMidiLearning st)
  | Throws => st
  end.

(** [setIsMidiLearning(control)]: the panel names the control to learn. *)
Definition startLearning (control : MappableControl) (st : State) : State :=
  mkState (midiMapping st) (reverseMidiMapping st) (Some control).

Definition learning (st : State) : option MappableControl :=
  match isMidiLearning st with
  | Some c => if Js.truthy_str c then Some c else None
  | None => None
  end.

(** One incoming message: the new state and the control action to run, if
    any (the control and the value byte). *)
Definition handleMidiMessage (command data1 data2 : Z) (st : State)
  : State * option (MappableControl * Z) :=
  match messageIdOf command data1 data2 with
  | None => (st, None)
  | Some messageId =>
      match learning st with
      | Some control =>
          (mkState (learn messageId control (midiMapping st))
                   (reverseMidiMapping st) None, None)
      | None =>
          match Obj.get messageId (reverseMidiMapping st) with
          | Some targetControl =>
              if Js.truthy_str targetControl
              then (st, Some (targetControl, data2)) else (st, None)
          | None => (st, None)
          end
      end
  end.

(** A message followed by the effect it triggers.  The effect runs when
    the message has changed [midiMapping], that is in learn mode. *)
Definition step (storage : SetItem) (command data1 data2 : Z) (st : State)
  : State :=
  match messageIdOf command data1 data2, learning st with
  | Some _, Some _ =>
      syncReverse storage (fst (handleMidiMessage command data1 data2 st))
  | _, _ => fst (handleMidiMessage command data1 data2 st)
  end.

End Midi.

(* ================================================================== *)
(** * Tracks and deck state *)
(* ================================================================== *)

Module Deck.

Local Open Scope Q_scope.

(** Browser objects the control logic only passes around. *)
Inductive File : Type := FileHandle (n : nat).
Inductive AudioBuffer : Type := AudioBufferHandle (n : nat).
Inductive ArrayBuffer : Type := ArrayBufferHandle (n : nat).

(** [interface Song]; an optional or nullable field is an [option]. *)
Record Song : Type := mkSong {
  song_id : Q;
  song_name : string;
  song_file : File;
  song_key : option string;
  song_bpm : option Q;
  song_genre : option string;
  song_energy : option Q
}.

Record Loop : Type := mkLoop {
  loop_start : option Q;
  loop_end : option Q;
  loop_active : bool
}.

(** [interface DeckState]. *)
Record DeckState : Type := mkDeck {
  song : option Song;
  isPlaying : bool;
  gain : Q;
  volume : Q;
  playbackRate : Q;
  currentTime : Q;
  duration : Q;
  platterAngle : Q;
  cuePoints : list (option Q);
  bpm : option Q;
  loop : Loop;
  waveform : option (list Q);
  key : option string;
  zoom : Q;
  viewStartRatio : Q;
  perceivedLoudness : option Q;
  lastUpdateTime : option Q;
  keyLock : bool;
  scratchModeEnabled : bool;
  wasPlayingBeforeScratch : bool
}.

Inductive DeckId : Type := DeckA | DeckB.

Definition noLoop : Loop := mkLoop None None false.

(** The state both decks start with ([useState] of [deckA] and [deckB]). *)
Definition initialDeckState : DeckState :=
  {| song := None; isPlaying := false; gain := 50; volume := 3 # 4;
     playbackRate := 1; currentTime := 0; duration := 0; platterAngle := 0;
     cuePoints := []; bpm := None; loop := noLoop; waveform := None;
     key := None; zoom := 1; viewStartRatio := 0; perceivedLoudness := None;
     lastUpdateTime := None; keyLock := false; scratchModeEnabled := false;
     wasPlayingBeforeScratch := false |}.

(** ** Updates of single fields, [{ ...d, field: v }] *)

Definition with_loop (l : Loop) (d : DeckState) : DeckState :=
  mkDeck (song d) (isPlaying d) (gain d) (volume d) (playbackRate d)
    (currentTime d) (duration d) (platterAngle d) (cuePoints d) (bpm d)
    l (waveform d) (key d) (zoom d) (viewStartRatio d)
    (perceivedLoudness d) (lastUpdateTime d) (keyLock d)
    (scratchModeEnabled d) (wasPlayingBeforeScratch d).

Definition with_isPlaying (b : bool) (d : DeckState) : DeckState :=
  mkDeck (song d) b (gain d) (volume d) (playbackRate d)
    (currentTime d) (duration d) (platterAngle d) (cuePoints d) (bpm d)
    (loop d) (waveform d) (key d) (zoom d) (viewStartRatio d)
    (perceivedLoudness d) (lastUpdateTime d) (keyLock d)
    (scratchModeEnabled d) (wasPlayingBeforeScratch d).

Definition with_volume (v : Q) (d : DeckState) : DeckState :=
  mkDeck (song d) (isPlaying d) (gain d) v (playbackRate d)
    (currentTime d) (duration d) (platterAngle d) (cuePoints d) (bpm d)
    (loop d) (waveform d) (key d) (zoom d) (viewStartRatio d)
    (perceivedLoudness d) (lastUpdateTime d) (keyLock d)
    (scratchModeEnabled d) (wasPlayingBeforeScratch d).

Definition with_playbackRate (r : Q) (d : DeckState) : DeckState :=
  mkDeck (song d) (isPlaying d) (gain d) (volume d) r
    (currentTime d) (duration d) (platterAngle d) (cuePoints d) (bpm d)
    (loop d) (waveform d) (key d) (zoom d) (viewStartRatio d)
    (perceivedLoudness d) (lastUpdateTime d) (keyLock d)
    (scratchModeEnabled d) (wasPlayingBeforeScratch d).

Definition with_currentTime (t : Q) (d : DeckState) : DeckState :=
  mkDeck (song d) (isPlaying d) (gain d) (volume d) (playbackRate d)
    t (duration d) (platterAngle d) (cuePoints d) (bpm d)
    (loop d) (waveform d) (key d) (zoom d) (viewStartRatio d)
    (perceivedLoudness d) (lastUpdateTime d) (keyLock d)
    (scratchModeEnabled d) (wasPlayingBeforeScratch d).

Definition with_platterAngle (a : Q) (d : DeckState) : DeckState :=
  mkDeck (song d) (isPlaying d) (gain d) (volume d) (playbackRate d)
    (currentTime d) (duration d) a (cuePoints d) (bpm d)
    (loop d) (waveform d) (key d) (zoom d) (viewStartRatio d)
    (perceivedLoudness d) (lastUpdateTime d) (keyLock d)
    (scratchModeEnabled d) (wasPlayingBeforeScratch d).

Definition with_viewStartRatio (v : Q) (d : DeckState) : DeckState :=
  mkDeck (song d) (isPlaying d) (gain d) (volume d) (playbackRate d)
    (currentTime d) (duration d) (platterAngle d) (cuePoints d) (bpm d)
    (loop d) (waveform d) (key d) (zoom d) v
    (perceivedLoudness d) (lastUpdateTime d) (keyLock d)
    (scratchModeEnabled d) (wasPlayingBeforeScratch d).

Definition with_lastUpdateTime (t : option Q) (d : DeckState) : DeckState :=
  mkDeck (song d) (isPlaying d) (gain d) (volume d) (playbackRate d)
    (currentTime d) (duration d) (platterAngle d) (cuePoints d) (bpm d)
    (loop d) (waveform d) (key d) (zoom d) (viewStartRatio d)
    (perceivedLoudness d) t (keyLock d)
    (scratchModeEnabled d) (wasPlayingBeforeScratch d).

Definition with_keyLock (b : bool) (d : DeckState) : DeckState :=
  mkDeck (song d) (isPlaying d) (gain d) (volume d) (playbackRate d)
    (currentTime d) (duration d) (platterAngle d) (cuePoints d) (bpm d)
    (loop d) (waveform d) (key d) (zoom d) (viewStartRatio d)
    (perceivedLoudness d) (lastUpdateTime d) b
    (scratchModeEnabled d) (wasPlayingBeforeScratch d).

Definition with_scratchModeEnabled (b : bool) (d : DeckState) : DeckState :=
  mkDeck (song d) (isPlaying d) (gain d) (volume d) (playbackRate d)
    (currentTime d) (duration d) (platterAngle d) (cuePoints d) (bpm d)
    (loop d) (waveform d) (key d) (zoom d) (viewStartRatio d)
    (perceivedLoudness d) (lastUpdateTime d) (keyLock d)
    b (wasPlayingBeforeScratch d).

(** ** Loading a track *)

(** What decoding and analysing a file yields inside [loadSong]. *)
Record Analysis : Type := mkAnalysis {
  newId : Q;                    (* Date.now() + Math.random() *)
  fileName : string;
  file : File;
  audioDuration : Q;            (* audioBuffer.duration *)
  waveformData : list Q;
  loudness : Q;
  detectedKey : string;
  mockGenre : string;
  mockBpm : Q;
  energy : Q
}.

Definition songWithDetails (a : Analysis) : Song :=
  {| song_id := newId a; song_name := fileName a; song_file := file a;
     song_key := Some (detectedKey a); song_genre := Some (mockGenre a);
     song_bpm := Some (mockBpm a); song_energy := Some (energy a) |}.

(** [{ ...d, ...newDeckState }]: the literal [newDeckState] sets every field
    but [lastUpdateTime]. *)
Definition spread_newDeckState (a : Analysis) (d : DeckState) : DeckState :=
  {| song := Some (songWithDetails a);
     duration := audioDuration a;
     isPlaying := false;
     currentTime := 0;
     platterAngle := 0;
     bpm := song_bpm (songWithDetails a);
     playbackRate := 1;
     cuePoints := [];
     loop := noLoop;
     waveform := Some (waveformData a);
     key := Some (detectedKey a);
     zoom := 1;
     viewStartRatio := 0;
     perceivedLoudness := Some (loudness a);
     gain := 50;
     volume := 3 # 4;
     keyLock := false;
     scratchModeEnabled := false;
     wasPlayingBeforeScratch := false;
     lastUpdateTime := lastUpdateTime d |}.

(** The state update of [loadSong],
    [d => ({ ...d, ...newDeckState, volume: d.volume, keyLock: d.keyLock,
             scratchModeEnabled: d.scratchModeEnabled })]. *)
Definition loadSong_update (a : Analysis) (d : DeckState) : DeckState :=
  with_scratchModeEnabled (scratchModeEnabled d)
    (with_keyLock (keyLock d)
       (with_volume (volume d) (spread_newDeckState a d))).

(** The value the promise of [loadSong] resolves to, from the deck state of
    the render that created the callback. *)
Definition loadSong_resolved (a : Analysis) (deck : DeckState) : DeckState :=
  spread_newDeckState a deck.

(** [loadSong]: decoding may fail, the deck is then left alone. *)
Definition loadSong (decoded : option Analysis) (d : DeckState) : DeckState :=
  match decoded with
  | Some a => loadSong_update a d
  | None => d
  end.

(** ** Transport: play, seek and the per-frame clock *)

(** The state part of [togglePlay]; [deckState] is the state of the render
    the function belongs to, [audioReady] says that the deck has a buffer
    and its graph nodes, [rate] is [options.playbackRate]. *)
Definition togglePlay (deckState : DeckState) (audioReady : bool)
  (rate : option Q) (now : Q) (d : DeckState) : DeckState :=
  if isPlaying deckState then with_isPlaying false d
  else if audioReady then
    let r := match rate with Some r => r | None => playbackRate deckState end in
    with_lastUpdateTime (Some now) (with_playbackRate r (with_isPlaying true d))
  else d.

(** [Math.max(lo, Math.min(x, hi))]. *)
Definition clamp (lo x hi : Q) : Q := Qmax lo (Qmin x hi).

(** What a call of [seekDeck] asks for: the position and view start it
    queues for the deck state ([None] is NaN) and whether the audio source
    is stopped and started again at that position. *)
Record SeekRequest : Type := mkSeek {
  seek_time : option Q;
  seek_viewStartRatio : option Q;
  seek_restart : bool
}.

(** [seekDeck]; [deckState] is the deck state the function closed over.
    [None] as result is the early [return]. *)
Definition seekDeck (deckState : DeckState) (audioReady : bool)
  (newTime : option Q) : option SeekRequest :=
  match song deckState with
  | None => None
  | Some _ =>
      if negb (Js.truthy_num (duration deckState)) then None
      else
        let time :=
          option_map (fun t => clamp 0 t (duration deckState)) newTime in
        let newViewStartRatio :=
          if Js.num_gt (zoom deckState) 1 then
            option_map
              (fun t =>
                 let visibleRatio := 1 / zoom deckState in
                 let targetRatio := t / duration deckState in
                 clamp 0 (targetRatio - visibleRatio / 2) (1 - visibleRatio))
              time
          else Some (viewStartRatio deckState) in
        Some (mkSeek time newViewStartRatio
                (isPlaying deckState && audioReady))
  end.

(** The updates a seek request queues, applied to the deck state; [None]
    when the position is NaN, which [DeckState] cannot hold. *)
Definition applySeek (r : SeekRequest) (now : Q) (d : DeckState)
  : option DeckState :=
  match seek_time r, seek_viewStartRatio r with
  | Some t, Some v =>
      let d1 := with_viewStartRatio v (with_currentTime t d) in
      Some (if seek_restart r then with_lastUpdateTime (Some now) d1 else d1)
  | _, _ => None
  end.

(** The position the clock reaches in this frame. *)
Definition advanced (now : Q) (d : DeckState) : Q :=
  match lastUpdateTime d with
  | Some last => currentTime d + ((now - last) / 1000) * playbackRate d
  | None => currentTime d
  end.

Definition spin (d : DeckState) : Q :=
  match Js.rem (platterAngle d + 2 * playbackRate d) 360 with
  | Some a => a
  | None => 0   (* not reached, 360 is not zero *)
  end.

(** The position wrapped into the loop window. *)
Definition wrapped (loopStart loopEnd newTime : Q) : option Q :=
  let loopDuration := loopEnd - loopStart in
  let timeOver := newTime - loopEnd in
  option_map (fun r => loopStart + r) (Js.rem timeOver loopDuration).

(** The view start after a frame without a loop wrap. *)
Definition scrolled (newTime : Q) (d : DeckState) : Q :=
  if Js.num_gt (zoom d) 1 && Js.num_gt (duration d) 0 then
    let visibleRatio := 1 / zoom d in
    let progressRatio := newTime / duration d in
    let viewEndRatio := viewStartRatio d + visibleRatio in
    if Js.num_gt progressRatio (viewEndRatio - visibleRatio * (1 # 5))
       || Js.num_lt progressRatio (viewStartRatio d + visibleRatio * (1 # 5))
    then clamp 0 (progressRatio - visibleRatio / 2) (1 - visibleRatio)
    else viewStartRatio d
  else viewStartRatio d.

(** The test guarding the wrap: an active loop with both bounds whose end
    has been reached. *)
Definition loopToWrap (newTime : Q) (d : DeckState) : option (Q * Q) :=
  match loop_active (loop d), loop_start (loop d), loop_end (loop d) with
  | true, Some loopStart, Some loopEnd =>
      if Js.num_ge newTime loopEnd then Some (loopStart, loopEnd) else None
  | _, _, _ => None
  end.

(** One deck in one frame of [updateLoop]: the state the updater returns
    and the seek it asked for.  [seek] is the [seekDeck] the callback closed
    over. *)
Definition processDeck (seek : option Q -> option SeekRequest) (now : Q)
  (d : DeckState) : DeckState * option SeekRequest :=
  if negb (isPlaying d) || negb (Js.truthy_onum (lastUpdateTime d))
  then (d, None)
  else
    let newTime := advanced now d in
    let newAngle := spin d in
    match loopToWrap newTime d with
    | Some (loopStart, loopEnd) =>
        (with_lastUpdateTime (Some now) (with_platterAngle newAngle d),
         seek (wrapped loopStart loopEnd newTime))
    | None =>
        if Js.num_ge newTime (duration d)
        then (with_currentTime (duration d) (with_isPlaying false d), None)
        else
          (with_lastUpdateTime (Some now)
             (with_viewStartRatio (scrolled newTime d)
                (with_platterAngle newAngle (with_currentTime newTime d))),
           None)
    end.

(** The clock that runs.  [updateLoop] is [useCallback(() => ..., [])]: the
    empty dependency list keeps the function created by the first render,
    and the effect that installs the frame loop depends on [updateLoop]
    only, so it is installed once.  [seekDeck] is an ordinary function of
    the component body, made anew by every render and closing over that
    render's [deckA] and [deckB]; the one [updateLoop] refers to is the
    first render's, whose decks are [initialDeckState].  The updater
    argument [d] is the current state all the same. *)
Definition updateLoop (audioReady : bool) (now : Q) (d : DeckState)
  : DeckState * option SeekRequest :=
  processDeck (seekDeck initialDeckState audioReady) now d.

(** The deck after a frame: the returned state with the queued seek
    updates applied. *)
Definition frame (audioReady : bool) (now : Q) (d : DeckState)
  : option DeckState :=
  match updateLoop audioReady now d with
  | (d', Some r) => applySeek r now d'
  | (d', None) => Some d'
  end.

(** ** Loops *)

Inductive LoopAction : Type :=
| LoopIn
| LoopOut
| LoopExit
| Reloop
| AutoLoop (beats : Q).

(** [handleSetLoop]: [deckState] is the state of the render the handler
    belongs to, [d] the state the queued update is applied to. *)
Definition handleSetLoop (deckState : DeckState) (type : LoopAction)
  (d : DeckState) : DeckState :=
  match type with
  | AutoLoop beats =>
      match bpm deckState with
      | Some deckBpm =>
          if Js.truthy_num deckBpm then
            let beatDuration := 60 / deckBpm in
            let loopDuration := beats * beatDuration in
            let start := currentTime deckState in
            let end_ := Qmin (start + loopDuration) (duration deckState) in
            with_loop (mkLoop (Some start) (Some end_) true) d
          else d
      | None => d
      end
  | LoopIn =>
      with_loop (mkLoop (Some (currentTime d)) None false) d
  | LoopOut =>
      match loop_start (loop deckState) with
      | Some loopStart =>
          if Js.num_gt (currentTime deckState) loopStart
          then with_loop (mkLoop (loop_start (loop deckState))
                                 (Some (currentTime deckState)) true) d
          else d
      | None => d
      end
  | LoopExit =>
      with_loop (mkLoop (loop_start (loop deckState))
                        (loop_end (loop deckState)) false) d
  | Reloop =>
      match loop_start (loop deckState), loop_end (loop deckState) with
      | Some _, Some _ =>
          with_loop (mkLoop (loop_start (loop deckState))
                            (loop_end (loop deckState)) true) d
      | _, _ => d
      end
  end.

(** The pre-roll of the 'Loop Out' transition style in [startTransition]. *)
Definition loopOutPreroll (fromDeckState : DeckState) (d : DeckState)
  : DeckState :=
  match bpm fromDeckState with
  | Some deckBpm =>
      if Js.truthy_num deckBpm then
        let beatDuration := 60 / deckBpm in
        let loopDuration := 4 * beatDuration in
        let loopStartTime := currentTime fromDeckState in
        let loopEndTime := loopStartTime + loopDuration in
        with_loop (mkLoop (Some loopStartTime)
                          (Some (Qmin loopEndTime (duration fromDeckState)))
                          true) d
      else d
  | None => d
  end.

(** The invariant of the loop region: an active loop has both bounds and
    its end lies strictly after its start. *)
Definition loop_invariant (l : Loop) : Prop :=
  loop_active l = true ->
  exists s e, loop_start l = Some s /\ loop_end l = Some e /\ s < e.

(** Stored bounds are ordered, whether the loop is active or not. *)
Definition loop_ordered (l : Loop) : Prop :=
  forall s e, loop_start l = Some s -> loop_end l = Some e -> s < e.

End Deck.

(* ================================================================== *)
(** * Auto-DJ: selection of the next track *)
(* ================================================================== *)

Module AutoDj.

Import Deck.
Local Open Scope Q_scope.
Local Open Scope string_scope.

(** ** [getArtistFromName]

    The pattern is [^(.*?)\s+-\s+.+$], matched by backtracking; each
    function below is the part of the pattern named in its comment. *)

(** [.+$]: one or more code units, none a line terminator, up to the end. *)
Fixpoint rest_of_title (s : string) : bool :=
  match s with
  | EmptyString => false
  | String c EmptyString => negb (Js.isLineTerminator c)
  | String c s' => negb (Js.isLineTerminator c) && rest_of_title s'
  end.

(** [\s+.+$]. *)
Fixpoint spaces_then_title (s : string) : bool :=
  match s with
  | String c s' =>
      Js.isWhiteSpace c && (spaces_then_title s' || rest_of_title s')
  | EmptyString => false
  end.

(** [-\s+.+$]. *)
Definition dash_then_title (s : string) : bool :=
  match s with
  | String "-" s' => spaces_then_title s'
  | _ => false
  end.

(** [\s+-\s+.+$]. *)
Fixpoint separator_then_title (s : string) : bool :=
  match s with
  | String c s' =>
      Js.isWhiteSpace c && (separator_then_title s' || dash_then_title s')
  | EmptyString => false
  end.

(** [^(.*?)] followed by the rest: the shortest prefix without a line
    terminator after which the rest matches; [acc] is the prefix read so
    far, reversed.  The result is group 1. *)
Fixpoint shortest_artist (acc s : string) : option string :=
  if separator_then_title s then Some (Js.rev_string "" acc)
  else
    match s with
    | String c s' =>
        if Js.isLineTerminator c then None
        else shortest_artist (String c acc) s'
    | EmptyString => None
    end.

Definition getArtistFromName (name : string) : option string :=
  option_map Js.trim (shortest_artist "" name).

(** ** Settings and session state *)

Inductive TransitionType : Type :=
| Smart | Crossfade | Cut | FadeInOut | EQFade | LoopOutStyle | FilterFade.

Inductive PlaylistSource : Type := FromLibrary | FromQueues.

Inductive EnergyFlow : Type := Any | Maintain | Increase | Decrease.

Record BpmMatch : Type := mkBpmMatch {
  enabled : bool;
  range : Q
}.

Record AutoDjSettings : Type := mkSettings {
  transitionType : TransitionType;
  transitionDuration : Q;
  transitionTrigger : Q;
  playlistSource : PlaylistSource;
  shuffle : bool;
  harmonicMix : bool;
  genreMatch : bool;
  bpmMatch : BpmMatch;
  avoidRepeatingArtist : bool;
  autoGain : bool;
  beatMatch : bool;
  energyFlow : EnergyFlow
}.

(** The settings the application starts with. *)
Definition initialSettings : AutoDjSettings :=
  {| transitionType := Smart; transitionDuration := 8;
     transitionTrigger := 12; playlistSource := FromLibrary;
     shuffle := true; harmonicMix := true; genreMatch := false;
     bpmMatch := mkBpmMatch true 5; avoidRepeatingArtist := true;
     autoGain := true; beatMatch := true; energyFlow := Any |}.

(** Everything [getNextTrack] reads. *)
Record Session : Type := mkSession {
  library : list Song;
  queueA : list Song;
  queueB : list Song;
  deckA : DeckState;
  deckB : DeckState;
  autoDjActiveDeck : DeckId;
  autoDjSettings : AutoDjSettings;
  autoDjHistory : list Song
}.

Definition activeDeckState (st : Session) : DeckState :=
  match autoDjActiveDeck st with
  | DeckA => deckA st
  | DeckB => deckB st
  end.

(** [s.id !== other] where [other] may be [undefined]. *)
Definition id_differs (x : Q) (other : option Q) : bool :=
  match other with
  | Some y => negb (Js.num_eq x y)
  | None => true
  end.

(** ** The tiered selection pool *)

Definition ids (songs : list Song) : list Q := map song_id songs.

Definition tier1 (lib history : list Song) (currentSongId avoidTrackId : option Q)
  : list Song :=
  filter (fun s => negb (Js.has_num (ids history) (song_id s))
                   && id_differs (song_id s) currentSongId
                   && id_differs (song_id s) avoidTrackId) lib.

(** [Math.ceil(autoDjHistory.length / 2)]. *)
Definition recentHistoryCount (history : list Song) : nat :=
  Z.to_nat (Js.Math_ceil (inject_Z (Z.of_nat (length history)) / 2)).

Definition add_if_truthy (x : option Q) (xs : list Q) : list Q :=
  match x with
  | Some q => if Js.truthy_num q then xs ++ [q] else xs
  | None => xs
  end.

Definition tier2 (lib history : list Song) (currentSongId avoidTrackId : option Q)
  : list Song :=
  let recentHistoryIds :=
    add_if_truthy avoidTrackId
      (add_if_truthy currentSongId
         (ids (firstn (recentHistoryCount history) history))) in
  filter (fun s => negb (Js.has_num recentHistoryIds (song_id s))) lib.

Definition tier3 (lib : list Song) (currentSongId avoidTrackId : option Q)
  : list Song :=
  filter (fun s => id_differs (song_id s) currentSongId
                   && id_differs (song_id s) avoidTrackId) lib.

Definition tier4 (lib : list Song) (avoidTrackId : option Q) : list Song :=
  match filter (fun s => id_differs (song_id s) avoidTrackId) lib with
  | [] => lib
  | pool => pool
  end.

Definition isEmpty {A : Type} (xs : list A) : bool :=
  match xs with [] => true | _ => false end.

Definition selectionPool (lib history : list Song)
  (currentSongId avoidTrackId : option Q) : list Song :=
  let pool1 := tier1 lib history currentSongId avoidTrackId in
  let pool2 :=
    if isEmpty pool1 && Nat.ltb 1 (length lib)
    then tier2 lib history currentSongId avoidTrackId else pool1 in
  let pool3 :=
    if isEmpty pool2 && Nat.ltb 1 (length lib)
    then tier3 lib currentSongId avoidTrackId else pool2 in
  if isEmpty pool3 then tier4 lib avoidTrackId else pool3.

(** ** The criteria filters *)

(** [if (matches.length > 0) filteredTracks = matches]. *)
Definition narrowed (matches filteredTracks : list Song) : list Song :=
  if Nat.ltb 0 (length matches) then matches else filteredTracks.

Definition energyKeeps (flow : EnergyFlow) (currentEnergy : Q) (s : Song)
  : bool :=
  match song_energy s with
  | None => true
  | Some e =>
      if negb (Js.truthy_num e) then true
      else match flow with
           | Maintain => Js.num_le (Qabs (e - currentEnergy)) 2
           | Increase => Js.num_gt e currentEnergy
           | Decrease => Js.num_lt e currentEnergy
           | Any => true
           end
  end.

Definition isAny (flow : EnergyFlow) : bool :=
  match flow with Any => true | _ => false end.

Definition artistKeeps (currentArtist : string) (s : Song) : bool :=
  match getArtistFromName (song_name s) with
  | None => true
  | Some nextArtist =>
      negb (Js.truthy_str nextArtist)
      || negb (String.eqb (Js.toLowerCase nextArtist)
                          (Js.toLowerCase currentArtist))
  end.

Definition bpmKeeps (bpm range : Q) (s : Song) : bool :=
  match song_bpm s with
  | Some b => Js.truthy_num b && Js.num_ge b (bpm - range)
              && Js.num_le b (bpm + range)
  | None => false
  end.

Definition genreKeeps (genre : string) (s : Song) : bool :=
  match song_genre s with
  | Some g => String.eqb g genre
  | None => false
  end.

Definition harmonicKeeps (compatibleKeys : list string) (s : Song) : bool :=
  match song_key s with
  | Some k => Js.truthy_str k && Js.includes_str compatibleKeys k
  | None => false
  end.

Definition afterEnergy (settings : AutoDjSettings) (current : option Song)
  (filteredTracks : list Song) : list Song :=
  match current with
  | Some cur =>
      match song_energy cur with
      | Some currentEnergy =>
          if negb (isAny (energyFlow settings)) && Js.truthy_num currentEnergy
          then narrowed (filter (energyKeeps (energyFlow settings)
                                   currentEnergy) filteredTracks)
                        filteredTracks
          else filteredTracks
      | None => filteredTracks
      end
  | None => filteredTracks
  end.

Definition afterArtist (settings : AutoDjSettings) (current : option Song)
  (filteredTracks : list Song) : list Song :=
  match current with
  | Some cur =>
      if avoidRepeatingArtist settings && Js.truthy_str (song_name cur) then
        match getArtistFromName (song_name cur) with
        | Some currentArtist =>
            if Js.truthy_str currentArtist
            then narrowed (filter (artistKeeps currentArtist) filteredTracks)
                          filteredTracks
            else filteredTracks
        | None => filteredTracks
        end
      else filteredTracks
  | None => filteredTracks
  end.

Definition afterBpm (settings : AutoDjSettings) (current : option Song)
  (filteredTracks : list Song) : list Song :=
  match current with
  | Some cur =>
      match song_bpm cur with
      | Some bpm =>
          if enabled (bpmMatch settings) && Js.truthy_num bpm
          then narrowed (filter (bpmKeeps bpm (range (bpmMatch settings)))
                           filteredTracks)
                        filteredTracks
          else filteredTracks
      | None => filteredTracks
      end
  | None => filteredTracks
  end.

Definition afterGenre (settings : AutoDjSettings) (current : option Song)
  (filteredTracks : list Song) : list Song :=
  match current with
  | Some cur =>
      match song_genre cur with
      | Some genre =>
          if genreMatch settings && Js.truthy_str genre
          then narrowed (filter (genreKeeps genre) filteredTracks)
                        filteredTracks
          else filteredTracks
      | None => filteredTracks
      end
  | None => filteredTracks
  end.

Definition afterHarmonic (settings : AutoDjSettings) (current : option Song)
  (filteredTracks : list Song) : list Song :=
  match current with
  | Some cur =>
      match song_key cur with
      | Some key =>
          if harmonicMix settings && Js.truthy_str key
          then narrowed (filter (harmonicKeeps
                                   (Camelot.getCompatibleKeys key))
                           filteredTracks)
                        filteredTracks
          else filteredTracks
      | None => filteredTracks
      end
  | None => filteredTracks
  end.

(** The block "Apply User Criteria Filtering" of [getNextTrack], statement
    by statement. *)
Definition filteredTracks (settings : AutoDjSettings) (current : option Song)
  (selectionPool : list Song) : list Song :=
  let filteredTracks := selectionPool in
  let filteredTracks := afterEnergy settings current filteredTracks in
  let filteredTracks := afterArtist settings current filteredTracks in
  let filteredTracks := afterBpm settings current filteredTracks in
  let filteredTracks := afterGenre settings current filteredTracks in
  let filteredTracks := afterHarmonic settings current filteredTracks in
  filteredTracks.

(** ** The final pick *)

Definition findById (pool : list Song) (x : Q) : option Song :=
  find (fun p => Js.num_eq (song_id p) x) pool.

(** [library.findIndex(s => s.id === currentSongId)]. *)
Fixpoint findIndex (lib : list Song) (currentSongId : option Q) : option nat :=
  match lib with
  | [] => None
  | s :: rest =>
      if negb (id_differs (song_id s) currentSongId) then Some O
      else option_map S (findIndex rest currentSongId)
  end.

(** The loop [for (let i = 1; i <= library.length; i++)], from [i] on with
    [fuel] rounds left. *)
Fixpoint walk (lib pool : list Song) (currentSongIndex i fuel : nat)
  : option Song :=
  match fuel with
  | O => None
  | S fuel' =>
      let nextIndex := Nat.modulo (currentSongIndex + i) (length lib) in
      match nth_error lib nextIndex with
      | Some nextSongInLibrary =>
          match findById pool (song_id nextSongInLibrary) with
          | Some m => Some m
          | None => walk lib pool currentSongIndex (S i) fuel'
          end
      | None => walk lib pool currentSongIndex (S i) fuel'
      end
  end.

Definition sequentialPick (lib finalSelectionPool : list Song)
  (currentSongId : option Q) : option Song :=
  let viaLibrary :=
    match findIndex lib currentSongId with
    | Some currentSongIndex =>
        walk lib finalSelectionPool currentSongIndex 1 (length lib)
    | None => None
    end in
  match viaLibrary with
  | Some m => Some m
  | None => nth_error finalSelectionPool 0
  end.

(** [Math.floor(Math.random() * finalSelectionPool.length)]. *)
Definition randomIndex (random : Q) (n : nat) : nat :=
  Z.to_nat (Js.Math_floor (random * inject_Z (Z.of_nat n))).

(** [getNextTrack(avoidTrackId)]; [random] is what [Math.random()] returns
    in this call.  [None] is [null] (or [undefined]). *)
Definition getNextTrack (st : Session) (random : Q) (avoidTrackId : option Q)
  : option Song :=
  let nextDeckQueue :=
    match autoDjActiveDeck st with DeckA => queueB st | DeckB => queueA st end in
  let fromQueue :=
    match playlistSource (autoDjSettings st) with
    | FromQueues => nth_error nextDeckQueue 0
    | FromLibrary => None
    end in
  match fromQueue with
  | Some s => Some s
  | None =>
      if isEmpty (library st) then None
      else
        let current := song (activeDeckState st) in
        let currentSongId := option_map song_id current in
        let selectionPool :=
          selectionPool (library st) (autoDjHistory st)
                        currentSongId avoidTrackId in
        if isEmpty selectionPool then None
        else
          let filteredTracks :=
            filteredTracks (autoDjSettings st) current selectionPool in
          let finalSelectionPool :=
            if Nat.ltb 0 (length filteredTracks)
            then filteredTracks else selectionPool in
          if shuffle (autoDjSettings st)
          then nth_error finalSelectionPool
                 (randomIndex random (length finalSelectionPool))
          else sequentialPick (library st) finalSelectionPool currentSongId
  end.

(** ** The spec's wording of the criteria filters

    Five soft criteria in a fixed order; a criterion that applies narrows
    the pool when its narrowed set is not empty and is skipped otherwise. *)

Record Criterion : Type := mkCriterion {
  applies : bool;
  keeps : Song -> bool
}.

Definition skipped : Criterion := mkCriterion false (fun _ => true).

Definition energyCriterion (settings : AutoDjSettings) (current : option Song)
  : Criterion :=
  match current with
  | Some cur =>
      match song_energy cur with
      | Some e =>
          mkCriterion (negb (isAny (energyFlow settings)) && Js.truthy_num e)
                      (energyKeeps (energyFlow settings) e)
      | None => skipped
      end
  | None => skipped
  end.

Definition artistCriterion (settings : AutoDjSettings) (current : option Song)
  : Criterion :=
  match current with
  | Some cur =>
      match getArtistFromName (song_name cur) with
      | Some a =>
          mkCriterion (avoidRepeatingArtist settings
                       && Js.truthy_str (song_name cur) && Js.truthy_str a)
                      (artistKeeps a)
      | None => skipped
      end
  | None => skipped
  end.

Definition bpmCriterion (settings : AutoDjSettings) (current : option Song)
  : Criterion :=
  match current with
  | Some cur =>
      match song_bpm cur with
      | Some b =>
          mkCriterion (enabled (bpmMatch settings) && Js.truthy_num b)
                      (bpmKeeps b (range (bpmMatch settings)))
      | None => skipped
      end
  | None => skipped
  end.

Definition genreCriterion (settings : AutoDjSettings) (current : option Song)
  : Criterion :=
  match current with
  | Some cur =>
      match song_genre cur with
      | Some g =>
          mkCriterion (genreMatch settings && Js.truthy_str g) (genreKeeps g)
      | None => skipped
      end
  | None => skipped
  end.

Definition harmonicCriterion (settings : AutoDjSettings)
  (current : option Song) : Criterion :=
  match current with
  | Some cur =>
      match song_key cur with
      | Some k =>
          mkCriterion (harmonicMix settings && Js.truthy_str k)
                      (harmonicKeeps (Camelot.getCompatibleKeys k))
      | None => skipped
      end
  | None => skipped
  end.

Definition criteriaInOrder (settings : AutoDjSettings) (current : option Song)
  : list Criterion :=
  [ energyCriterion settings current;
    artistCriterion settings current;
    bpmCriterion settings current;
    genreCriterion settings current;
    harmonicCriterion settings current ].

(** One criterion on a pool. *)
Definition softStep (pool : list Song) (c : Criterion) : list Song :=
  if applies c then
    match filter (keeps c) pool with
    | [] => pool
    | narrowedSet => narrowedSet
    end
  else pool.

Definition softFilter (cs : list Criterion) (pool : list Song) : list Song :=
  fold_left softStep cs pool.

End AutoDj.

(* ================================================================== *)
(** * The beat-kit store *)
(* ================================================================== *)

Module BeatStore.

Import Deck.
Local Open Scope string_scope.

(** [interface Beat extends Song]; [file] is optional here because the
    stored copy of a beat has none. *)
Record Beat : Type := mkBeat {
  beat_id : Q;
  beat_name : string;
  beat_file : option File;
  audioBuffer : option AudioBuffer;
  arrayBuffer : option ArrayBuffer;
  beat_key : option string;
  beat_bpm : option Q;
  beat_genre : option string;
  beat_energy : option Q
}.

(** [const { file, audioBuffer, ...storableBeat } = beat]. *)
Definition storableBeat (beat : Beat) : Beat :=
  mkBeat (beat_id beat) (beat_name beat) None None (arrayBuffer beat)
    (beat_key beat) (beat_bpm beat) (beat_genre beat) (beat_energy beat).

(** The pads of one category; [None] is an empty pad. *)
Definition Pads : Type := list (option Beat).

(** [Record<string, (Beat | null)[]>]. *)
Definition Beats : Type := Obj.t Pads.

(** [Array(12).fill(null)]. *)
Definition emptyPads : Pads := repeat None 12.

Definition emptyBeats : Beats :=
  [ ("drum", emptyPads); ("tuning", emptyPads); ("instrumental", emptyPads) ].

(** [xs[i] = v] on an array: a write past the end lengthens the array, the
    slots in between are empty. *)
Fixpoint array_set {A : Type} (i : nat) (v : A) (xs : list (option A))
  : list (option A) :=
  match i, xs with
  | O, [] => [Some v]
  | O, _ :: xs' => Some v :: xs'
  | S j, [] => None :: array_set j v []
  | S j, x :: xs' => x :: array_set j v xs'
  end.

(** A record of the object store; its key is [id]. *)
Record Item : Type := mkItem {
  item_id : string;
  item_category : string;
  item_index : nat;
  item_beat : Beat
}.

(** The object store: its records in the order of their keys. *)
Definition Store : Type := list Item.

(** [store.add]: the record goes to its place in key order; a key that is
    already there fails the request ([None]). *)
Fixpoint add (it : Item) (s : Store) : option Store :=
  match s with
  | [] => Some [it]
  | x :: s' =>
      match String.compare (item_id it) (item_id x) with
      | Lt => Some (it :: s)
      | Eq => None
      | Gt => option_map (cons x) (add it s')
      end
  end.

(** The key of a pad's record, the template [category-index]. *)
Definition idOf (category : string) (index : nat) : string :=
  category ++ "-" ++ Js.show_nat index.

(** The records [saveBeatsToDB] adds for one category, pad by pad. *)
Fixpoint itemsOfPads (category : string) (index : nat) (pads : Pads)
  : list Item :=
  match pads with
  | [] => []
  | Some beat :: rest =>
      mkItem (idOf category index) category index (storableBeat beat)
      :: itemsOfPads category (S index) rest
  | None :: rest => itemsOfPads category (S index) rest
  end.

(** All of them, category after category ([for (const category in beats)]). *)
Definition itemsOf (beats : Beats) : list Item :=
  flat_map (fun cp => itemsOfPads (fst cp) 0 (snd cp)) beats.

Definition addAll (items : list Item) (s : Store) : option Store :=
  fold_left
    (fun acc it => match acc with Some s' => add it s' | None => None end)
    items (Some s).

(** The database: [None] when it cannot be opened. *)
Definition DB : Type := option Store.

(** [saveBeatsToDB]: the store is cleared and refilled in one transaction;
    a failed request aborts it and the store is as before.  Without a
    database nothing is written. *)
Definition saveBeatsToDB (beats : Beats) (db : DB) : DB :=
  match db with
  | None => None
  | Some old =>
      match addAll (itemsOf beats) [] with
      | Some s => Some s
      | None => Some old
      end
  end.

(** What reading the store gives [loadBeatsFromDB]. *)
Inductive ReadOutcome : Type :=
| Unavailable                 (* [openDB] rejects *)
| RequestError                (* [request.onerror] *)
| Rows (savedBeats : list Item).   (* [request.result] of [getAll] *)

Definition getAll (db : DB) : ReadOutcome :=
  match db with
  | None => Unavailable
  | Some s => Rows s
  end.

(** The [forEach] of [loadBeatsFromDB]: a record of a known category is
    written to its pad. *)
Definition place (newBeatsState : Beats) (item : Item) : Beats :=
  match Obj.get (item_category item) newBeatsState with
  | Some pads =>
      Obj.set (item_category item)
              (array_set (item_index item) (item_beat item) pads)
              newBeatsState
  | None => newBeatsState
  end.

Definition loadBeatsFromDB (r : ReadOutcome) : Beats :=
  match r with
  | Rows savedBeats => fold_left place savedBeats emptyBeats
  | RequestError => emptyBeats
  | Unavailable => emptyBeats
  end.

(** The spec's wording of the round trip: the same structure with the
    fields that cannot be stored removed from every populated pad. *)
Definition stripped (beats : Beats) : Beats :=
  map (fun cp => (fst cp, map (option_map storableBeat) (snd cp))) beats.

(** A kit with one populated pad. *)
Definition onePad (category : string) (padIndex : nat) (beat : Beat) : Beats :=
  Obj.set category (array_set padIndex beat emptyPads) emptyBeats.

Definition categories : list string := ["drum"; "tuning"; "instrumental"].

(** The pads of the application's kits. *)
Definition allPads : list (string * nat) := list_prod categories (seq 0 12).

(** The content of one pad of a kit. *)
Definition cell (beats : Beats) (category : string) (k : nat) : option Beat :=
  match Obj.get category beats with
  | Some pads => nth k pads None
  | None => None
  end.

(** The pad a record belongs to, and whether it is a given one. *)
Definition keyOf (it : Item) : string * nat :=
  (item_category it, item_index it).

Definition fills (it : Item) (category : string) (k : nat) : bool :=
  String.eqb (item_category it) category && Nat.eqb k (item_index it).

(** A record of the kit: a known category and one of its twelve pads. *)
Definition onKit (it : Item) : Prop :=
  In (item_category it) categories /\ (item_index it < 12)%nat.

(** At most one record per pad. *)
Definition onePerPad (rows : list Item) : Prop :=
  NoDup (map keyOf rows).

(** The kits the application holds: the three categories, twelve pads
    each. *)
Definition wellFormed (beats : Beats) : Prop :=
  exists drum tuning instrumental,
    beats = [ ("drum", drum); ("tuning", tuning);
              ("instrumental", instrumental) ]
    /\ length drum = 12%nat /\ length tuning = 12%nat
    /\ length instrumental = 12%nat.

End BeatStore.

(* ================================================================== *)
(** * A session used in examples *)
(* ================================================================== *)

(** One deck followed through the handlers above: a 200 s track at 120 BPM
    is loaded and started at clock reading 1000 ms; frames advance it. *)
Module Scenario.

Import Deck.
Local Open Scope Q_scope.
Local Open Scope string_scope.

Definition track : Analysis :=
  {| newId := 1700000000000 + (1 # 4);
     fileName := "Daft Punk - Around the World.mp3";
     file := FileHandle 0;
     audioDuration := 200;
     waveformData := [];
     loudness := 1 # 10;
     detectedKey := "8A";
     mockGenre := "House";
     mockBpm := 120;
     energy := 6 |}.

Definition loaded : DeckState := loadSong (Some track) initialDeckState.

Definition playing : DeckState := togglePlay loaded true None 1000 loaded.

(** The deck after the frame at clock reading [now]. *)
Definition after (now : Q) (d : DeckState) : DeckState :=
  match frame true now d with
  | Some d' => d'
  | None => d
  end.

(** Loop in at 10 s, loop out at 14 s. *)
Definition at10 : DeckState := after 11000 playing.
Definition loopInSet : DeckState := handleSetLoop at10 LoopIn at10.
Definition at14 : DeckState := after 15000 loopInSet.
Definition looping : DeckState := handleSetLoop at14 LoopOut at14.

(** The track played to its end. *)
Definition ended : DeckState := after 201000 playing.

(** A library of two tracks, both already in the play history; the first
    one is on the active deck. *)
Definition trackOne : Song :=
  mkSong 1 "Daft Punk - One More Time.mp3" (FileHandle 1)
         (Some "8A") (Some 123) (Some "House") (Some 7).

Definition trackTwo : Song :=
  mkSong 2 "Justice - D.A.N.C.E.mp3" (FileHandle 2)
         (Some "3B") (Some 113) (Some "Pop") (Some 5).

Definition deckWith (s : Song) : DeckState :=
  mkDeck (Some s) true 50 (3 # 4) 1 0 200 0 [] (song_bpm s) noLoop None
         (song_key s) 1 0 None (Some 1000) false false false.

Definition twoTrackSession : AutoDj.Session :=
  AutoDj.mkSession [trackOne; trackTwo] [] [] (deckWith trackOne)
    initialDeckState DeckA AutoDj.initialSettings [trackTwo; trackOne].

(** Three more tracks, to tell the order of the criteria apart. *)
Definition trackThree : Song :=
  mkSong 3 "Moby - Porcelain.mp3" (FileHandle 3)
         (Some "9A") (Some 96) (Some "House") (Some 3).

Definition trackFour : Song :=
  mkSong 4 "Orbital - Halcyon.mp3" (FileHandle 4)
         (Some "5B") (Some 125) (Some "Techno") (Some 6).

End Scenario.

(* ================================================================== *)
(** * Analysis of a track file *)
(* ================================================================== *)

Module TrackAnalysis.

Local Open Scope Z_scope.
Local Open Scope string_scope.

Definition MOCK_GENRES : list string :=
  [ "House"; "Techno"; "Trance"; "Drum & Bass"; "Pop"; "Hip Hop"; "Rock";
    "Ambient" ].

(** [ToInt32]: the integer modulo 2^32, read as a signed 32-bit value. *)
Definition toInt32 (z : Z) : Z := (z + 2 ^ 31) mod 2 ^ 32 - 2 ^ 31.

(** One round of the loop of [getMockProperties]:
    [hash = (hash << 5) - hash + char; hash |= 0]. *)
Definition hashStep (hash : Z) (c : ascii) : Z :=
  let char := Z.of_nat (Js.code c) in
  let hash := toInt32 (Z.shiftl (toInt32 hash) 5) - hash + char in
  toInt32 hash.

Fixpoint hashLoop (hash : Z) (fileName : string) : Z :=
  match fileName with
  | String c rest => hashLoop (hashStep hash c) rest
  | EmptyString => hash
  end.

Record MockProperties : Type := mkMock {
  mock_key : option string;
  mock_genre : option string;
  mock_bpm : Z
}.

(** [xs[i]] for an integer [i]; [None] is [undefined]. *)
Definition at_index {A : Type} (xs : list A) (i : Z) : option A :=
  if (i <? 0)%Z then None else nth_error xs (Z.to_nat i).

Definition getMockProperties (fileName : string) : MockProperties :=
  let hash := Z.abs (hashLoop 0 fileName) in
  {| mock_key := at_index Camelot.CAMELOT_KEYS
                   (Z.rem hash (Z.of_nat (length Camelot.CAMELOT_KEYS)));
     mock_genre := at_index MOCK_GENRES
                     (Z.rem hash (Z.of_nat (length MOCK_GENRES)));
     mock_bpm := 118 + Z.rem hash 14 |}.

(** The [switch] of [calculateEnergy] on the genre. *)
Definition genreBonus (genre : option string) : Z :=
  match genre with
  | Some g =>
      if String.eqb g "Techno" || String.eqb g "Drum & Bass"
         || String.eqb g "Trance" then 2
      else if String.eqb g "House" || String.eqb g "Pop"
              || String.eqb g "Rock" then 1
      else if String.eqb g "Ambient" then -2
      else 0
  | None => 0
  end.

Definition calculateEnergy (loudness : Q) (genre : option string) : Z :=
  let energy := Js.Math_ceil (loudness * 50) in
  let energy := energy + genreBonus genre in
  Z.max 1 (Z.min 10 energy).

(** ** [generateWaveform] *)

(** The inner loop: the largest magnitude among the first [blockSize]
    samples of [block], starting from [max]. *)
Fixpoint blockMax (blockSize : nat) (block : list Q) (max : Q) : Q :=
  match blockSize, block with
  | S n, x :: rest =>
      blockMax n rest (if Js.num_gt (Qabs x) max then Qabs x else max)
  | _, _ => max
  end.

Definition samples : nat := 512.

Definition blockSizeOf (rawData : list Q) : nat :=
  Nat.div (length rawData) samples.

Definition generateWaveform (rawData : list Q) : list Q :=
  let blockSize := blockSizeOf rawData in
  map (fun i => blockMax blockSize (skipn (blockSize * i) rawData) 0%Q)
      (seq 0 samples).

(** A ramp of 1024 samples, two samples per block (used in examples). *)
Definition ramp : list Q :=
  map (fun i => (inject_Z (Z.of_nat i) / 1024 - (1 # 2))%Q) (seq 0 1024).

End TrackAnalysis.

(* ================================================================== *)
(** * Knob laws of the mixer *)
(* ================================================================== *)

Module Knobs.

Local Open Scope Q_scope.

(** [Math.pow(10, x)]. *)
Definition pow10 (x : R) : R := Rpower 10 x.

(** The preamp gain factor for the deck's gain knob.  The power is the
    exact one: the value at 50 is the source's literal, the others are the
    numbers [Math.pow] approximates, so that orders and bounds carry over
    to the code and products of two computed factors do not. *)
Definition mapGainKnobToFactor (value : R) : R :=
  if Req_dec_T value 50 then 1%R
  else
    let db := ((value - 50) * (12 / 50))%R in
    pow10 (db / 20).

(** The headphone monitor mix: (cueGain, masterGain) for a [headphoneMix]
    setting, with the exact cosine and sine: bounds and orders of the gains
    carry over to the code, the sum of their squares does not. *)
Definition headphoneMixGains (headphoneMix : R) : R * R :=
  let mixValue := (headphoneMix / 100)%R in
  let angle := (mixValue * (1 / 2) * Crossfader.Math_PI)%R in
  (cos angle, sin angle).

(** The three-band mixer EQ, [mapKnobToGain] (decibels). *)
Definition mapKnobToGain (value : Q) : Q :=
  if Js.num_eq value 50 then 0
  else if Js.num_lt value 50 then (value / 50 - 1) * 26
  else ((value - 50) / 50) * 6.

(** The bass-boost shelf gain (decibels). *)
Definition bassBoostGain (bassBoost : Q) : Q := (bassBoost / 100) * 15.

(** The gain of the headphone output. *)
Definition headphoneGain (headphoneVolume : Q) : Q :=
  (headphoneVolume / 100) * (3 # 2).

End Knobs.

(* ================================================================== *)
(** * Deck handlers: hot cues, waveform view, scratching *)
(* ================================================================== *)

Module DeckControls.

Import Deck.
Local Open Scope Q_scope.

Definition with_cuePoints (cs : list (option Q)) (d : DeckState) : DeckState :=
  mkDeck (song d) (isPlaying d) (gain d) (volume d) (playbackRate d)
    (currentTime d) (duration d) (platterAngle d) cs (bpm d)
    (loop d) (waveform d) (key d) (zoom d) (viewStartRatio d)
    (perceivedLoudness d) (lastUpdateTime d) (keyLock d)
    (scratchModeEnabled d) (wasPlayingBeforeScratch d).

Definition with_zoom (z : Q) (d : DeckState) : DeckState :=
  mkDeck (song d) (isPlaying d) (gain d) (volume d) (playbackRate d)
    (currentTime d) (duration d) (platterAngle d) (cuePoints d) (bpm d)
    (loop d) (waveform d) (key d) z (viewStartRatio d)
    (perceivedLoudness d) (lastUpdateTime d) (keyLock d)
    (scratchModeEnabled d) (wasPlayingBeforeScratch d).

Definition with_wasPlayingBeforeScratch (b : bool) (d : DeckState)
  : DeckState :=
  mkDeck (song d) (isPlaying d) (gain d) (volume d) (playbackRate d)
    (currentTime d) (duration d) (platterAngle d) (cuePoints d) (bpm d)
    (loop d) (waveform d) (key d) (zoom d) (viewStartRatio d)
    (perceivedLoudness d) (lastUpdateTime d) (keyLock d)
    (scratchModeEnabled d) b.

(** ** Hot cues *)

(** [xs[i] = x] where [x] may be [undefined] ([None]): a write past the
    end lengthens the array, the slots in between are empty. *)
Fixpoint array_put {A : Type} (i : nat) (x : option A) (xs : list (option A))
  : list (option A) :=
  match i, xs with
  | O, [] => [x]
  | O, _ :: xs' => x :: xs'
  | S j, [] => None :: array_put j x []
  | S j, y :: xs' => y :: array_put j x xs'
  end.

(** The loop [while (length > 0 && last === undefined) pop()], on the
    reversed array. *)
Fixpoint popEmpty {A : Type} (reversed : list (option A)) : list (option A) :=
  match reversed with
  | None :: rest => popEmpty rest
  | _ => reversed
  end.

Definition trimTrailing {A : Type} (xs : list (option A)) : list (option A) :=
  rev (popEmpty (rev xs)).

(** [cuePoints[i]]; [None] is [undefined], also past the end. *)
Definition cueAt (cuePoints : list (option Q)) (cueIndex : nat) : option Q :=
  nth cueIndex cuePoints None.

Inductive CueActionType : Type := CueSet | CueJump | CueDelete.

(** [handleCueAction]: [deckState] is the state of the render the handler
    belongs to, [d] the state the queued update is applied to; the second
    component is the call of [seekDeck], if any. *)
Definition handleCueAction (deckState : DeckState) (audioReady : bool)
  (type : CueActionType) (cueIndex : nat) (d : DeckState)
  : DeckState * option SeekRequest :=
  match song deckState with
  | None => (d, None)
  | Some _ =>
      match type with
      | CueSet =>
          let newCues :=
            array_put cueIndex (Some (currentTime deckState))
                      (cuePoints deckState) in
          (with_cuePoints newCues d, None)
      | CueJump =>
          match cueAt (cuePoints deckState) cueIndex with
          | Some cueTime => (d, seekDeck deckState audioReady (Some cueTime))
          | None => (d, None)
          end
      | CueDelete =>
          match cueAt (cuePoints deckState) cueIndex with
          | Some _ =>
              let newCues :=
                trimTrailing (array_put cueIndex None (cuePoints deckState)) in
              (with_cuePoints newCues d, None)
          | None => (d, None)
          end
      end
  end.

(** No empty slot at the end of the array. *)
Definition trimmed {A : Type} (xs : list (option A)) : Prop :=
  Js.last_opt xs <> Some None.

(** ** The waveform view *)

(** [handleZoomChange]; [deckState] is the state of the render the handler
    belongs to.  The arithmetic is exact: what is proved of the result is
    the effect of its two clamps (the zoom in 1..64, the view start in
    0..1 - 1/zoom), not an equation between positions. *)
Definition handleZoomChange (deckState : DeckState) (newZoom : Q)
  (pointerRatioInView : option Q) (d : DeckState) : DeckState :=
  let maxZoom := 64 in
  let clampedZoom := Qmax 1 (Qmin newZoom maxZoom) in
  if Js.num_lt (Qabs (clampedZoom - zoom deckState)) (1 # 100) then d
  else
    let visibleRatioOld := 1 / zoom deckState in
    let visibleRatioNew := 1 / clampedZoom in
    let centred :=
      let centerPointRatio := viewStartRatio deckState + visibleRatioOld / 2 in
      centerPointRatio - visibleRatioNew / 2 in
    let newViewStartRatio :=
      match pointerRatioInView with
      | Some p =>
          if Js.num_ge p 0 && Js.num_le p 1 then
            let pointerTimeRatio :=
              viewStartRatio deckState + p * visibleRatioOld in
            pointerTimeRatio - p * visibleRatioNew
          else centred
      | None => centred
      end in
    let newViewStartRatio :=
      Qmax 0 (Qmin newViewStartRatio (1 - visibleRatioNew)) in
    with_viewStartRatio newViewStartRatio (with_zoom clampedZoom d).

(** [handleScrollChange]. *)
Definition handleScrollChange (scrollDeltaRatio : Q) (d : DeckState)
  : DeckState :=
  if Js.num_le (zoom d) 1 then d
  else
    let visibleRatio := 1 / zoom d in
    let newViewStartRatio := viewStartRatio d - scrollDeltaRatio in
    let clampedViewStartRatio :=
      Qmax 0 (Qmin newViewStartRatio (1 - visibleRatio)) in
    with_viewStartRatio clampedViewStartRatio d.

(** The view window lies inside the track. *)
Definition viewInside (d : DeckState) : Prop :=
  1 <= zoom d /\ zoom d <= 64
  /\ 0 <= viewStartRatio d /\ viewStartRatio d + 1 / zoom d <= 1.

(** The playhead lies inside the track. *)
Definition playheadInside (d : DeckState) : Prop :=
  0 <= currentTime d /\ currentTime d <= duration d.

(** ** Scratching *)

Definition toggleScratchMode (d : DeckState) : DeckState :=
  with_scratchModeEnabled (negb (scratchModeEnabled d)) d.

Inductive PlatterEvent : Type :=
| PlatterStart
| PlatterDrag (movementX : Q)
| PlatterEnd.

(** The deferred [togglePlay(deckId, { forceStartTime, playbackRate })]. *)
Record Resume : Type := mkResume {
  forceStartTime : Q;
  resumeRate : Q
}.

Definition hasSong (d : DeckState) : bool :=
  match song d with Some _ => true | None => false end.

(** [handlePlatterInteraction]: the state the updater returns and the
    deferred play command, if one is queued.  [audioContext] says that the
    audio context exists. *)
Definition handlePlatterInteraction (audioContext : bool)
  (type : PlatterEvent) (d : DeckState) : DeckState * option Resume :=
  if negb audioContext then (d, None)
  else if negb (scratchModeEnabled d) || negb (hasSong d) then (d, None)
  else
    match type with
    | PlatterStart =>
        let wasPlaying := isPlaying d in
        (with_isPlaying false (with_wasPlayingBeforeScratch wasPlaying d),
         None)
    | PlatterDrag movementX =>
        let scratchSensitivity := 5 # 1000 in
        let deltaTime := movementX * scratchSensitivity in
        let newTime :=
          Qmax 0 (Qmin (duration d) (currentTime d + deltaTime)) in
        let angleChange := movementX * 2 in
        let newAngle :=
          match Js.rem (platterAngle d + angleChange) 360 with
          | Some a => a
          | None => 0   (* not reached, 360 is not zero *)
          end in
        (with_platterAngle newAngle (with_currentTime newTime d), None)
    | PlatterEnd =>
        (with_wasPlayingBeforeScratch false d,
         if wasPlayingBeforeScratch d
         then Some (mkResume (currentTime d) (playbackRate d))
         else None)
    end.

(** The state after a run of drag events. *)
Definition drags (movements : list Q) (d : DeckState) : DeckState :=
  fold_left
    (fun s movementX =>
       fst (handlePlatterInteraction true (PlatterDrag movementX) s))
    movements d.

(** What a drag leaves alone. *)
Definition sameButPosition (d s : DeckState) : Prop :=
  song s = song d /\ isPlaying s = isPlaying d
  /\ playbackRate s = playbackRate d /\ duration s = duration d
  /\ scratchModeEnabled s = scratchModeEnabled d
  /\ wasPlayingBeforeScratch s = wasPlayingBeforeScratch d.

End DeckControls.

(* ================================================================== *)
(** * Library and deck queues *)
(* ================================================================== *)

Module Library.

Import Deck.

Definition names (songs : list Song) : list string := map song_name songs.

(** [prev.findIndex(s => s.name === name)]. *)
Fixpoint findIndexByName (name : string) (prev : list Song) : option nat :=
  match prev with
  | [] => None
  | s :: rest =>
      if String.eqb (song_name s) name then Some O
      else option_map S (findIndexByName name rest)
  end.

(** [{ ...existing, ...mockProps, key: detectedKey, energy: energy }]. *)
Definition refreshed (a : Analysis) (existing : Song) : Song :=
  {| song_id := song_id existing; song_name := song_name existing;
     song_file := song_file existing;
     song_key := Some (detectedKey a); song_genre := Some (mockGenre a);
     song_bpm := Some (mockBpm a); song_energy := Some (energy a) |}.

(** [xs[i] = f(xs[i])] for an index inside the array. *)
Fixpoint update_at {A : Type} (i : nat) (f : A -> A) (xs : list A) : list A :=
  match i, xs with
  | _, [] => []
  | O, x :: xs' => f x :: xs'
  | S j, x :: xs' => x :: update_at j f xs'
  end.

(** The library update of [loadSong]. *)
Definition loadSong_library (a : Analysis) (prev : list Song) : list Song :=
  match findIndexByName (fileName a) prev with
  | Some existingIndex => update_at existingIndex (refreshed a) prev
  | None => prev ++ [songWithDetails a]
  end.

(** The library update of [addSongsToLibrary]. *)
Definition addSongsToLibrary (newSongs prevLibrary : list Song) : list Song :=
  let existingNames := names prevLibrary in
  let uniqueNewSongs :=
    filter (fun s => negb (Js.includes_str existingNames (song_name s)))
           newSongs in
  if Nat.ltb 0 (length uniqueNewSongs)
  then prevLibrary ++ uniqueNewSongs else prevLibrary.

(** The library update of [loadBeat]. *)
Definition loadBeat_library (beat : Song) (prev : list Song) : list Song :=
  filter (fun s => negb (String.eqb (song_name s) (song_name beat))) prev
  ++ [beat].

(** ** Queues *)

(** [xs.splice(i, 0, x)] for [0 <= i]. *)
Definition splice_in {A : Type} (i : nat) (x : A) (xs : list A) : list A :=
  firstn i xs ++ x :: skipn i xs.

(** [xs.splice(i, 1)] for [0 <= i]: what is left, and the removed item if
    there is one. *)
Definition splice_out {A : Type} (i : nat) (xs : list A) : list A * option A :=
  (firstn i xs ++ skipn (S i) xs, nth_error xs i).

(** The queue update of [handleAddToQueue]; [index] is an integer or
    absent. *)
Definition handleAddToQueue (song : Song) (index : option Z)
  (prevQueue : list Song) : list Song :=
  match index with
  | Some i =>
      if (0 <=? i)%Z && (i <=? Z.of_nat (length prevQueue))%Z
      then splice_in (Z.to_nat i) song prevQueue
      else prevQueue ++ [song]
  | None => prevQueue ++ [song]
  end.

Definition handleRemoveFromQueue (songId : Q) (prev : list Song) : list Song :=
  filter (fun s => negb (Js.num_eq (song_id s) songId)) prev.

(** The queue update of [handleReorderQueue] for indices from 0 on.  An
    entry [None] of the result is [undefined], which is what a [dragIndex]
    past the end puts into the queue. *)
Definition handleReorderQueue (dragIndex hoverIndex : nat)
  (queue : list Song) : list (option Song) :=
  let (newQueue, draggedItem) := splice_out dragIndex (map Some queue) in
  let draggedItem :=
    match draggedItem with
    | Some item => item
    | None => None
    end in
  splice_in hoverIndex draggedItem newQueue.

End Library.

(* ================================================================== *)
(** * More of the example session *)
(* ================================================================== *)

Module Fixtures.

Import Deck.
Local Open Scope Q_scope.
Local Open Scope string_scope.

(** The file of [Scenario.track] decoded a second time, half a second
    later. *)
Definition reloaded : Analysis :=
  {| newId := 1700000000500 + (3 # 4);
     fileName := fileName Scenario.track;
     file := file Scenario.track;
     audioDuration := audioDuration Scenario.track;
     waveformData := waveformData Scenario.track;
     loudness := loudness Scenario.track;
     detectedKey := detectedKey Scenario.track;
     mockGenre := mockGenre Scenario.track;
     mockBpm := mockBpm Scenario.track;
     energy := energy Scenario.track |}.

(** A library that lists the file of [Scenario.track]. *)
Definition listed : list Song :=
  [Scenario.trackOne; songWithDetails Scenario.track].

(** Settings with every criterion off and sequential order. *)
Definition plainSettings : AutoDj.AutoDjSettings :=
  AutoDj.mkSettings AutoDj.Crossfade 8 12 AutoDj.FromLibrary false false false
    (AutoDj.mkBpmMatch false 5) false false false AutoDj.Any.

(** A quieter and slower track, and the deck state [loadSong] returns for
    it. *)
Definition quiet : Analysis :=
  {| newId := 1700000001000 + (1 # 8);
     fileName := "Moby - Porcelain.mp3";
     file := FileHandle 3;
     audioDuration := 240;
     waveformData := [];
     loudness := 1 # 25;
     detectedKey := "9A";
     mockGenre := "House";
     mockBpm := 96;
     energy := 3 |}.

Definition loadedQuiet : DeckState := loadSong (Some quiet) initialDeckState.

(** A beat as [loadBeat] builds it. *)
Definition kick : BeatStore.Beat :=
  BeatStore.mkBeat 1700000002000 "kick.wav" (Some (FileHandle 4))
    (Some (AudioBufferHandle 4)) (Some (ArrayBufferHandle 4))
    (Some "8A") (Some 120) (Some "House") None.

End Fixtures.

(* ================================================================== *)
(** * MIDI: what a mapped control does *)
(* ================================================================== *)

Module MidiControls.

Import Deck DeckControls.
Local Open Scope Q_scope.
Local Open Scope string_scope.

Definition FX_LIST : list string :=
  [ "Low-Pass"; "High-Pass"; "Band-Pass";
    "Delay"; "Reverb"; "Flanger"; "Phaser"; "Chorus";
    "Distortion" ].

(** The identifiers of [MAPPABLE_CONTROLS], in the order of the table. *)
Definition MAPPABLE_CONTROLS : list string :=
  [ "deckA_play"; "deckA_volume"; "deckA_pitch"; "deckA_cue";
    "deckA_hotcue_1"; "deckA_hotcue_2"; "deckA_hotcue_3"; "deckA_hotcue_4";
    "deckA_loop_1"; "deckA_loop_4"; "deckA_loop_8"; "deckA_loop_16";
    "deckB_play"; "deckB_volume"; "deckB_pitch"; "deckB_cue";
    "deckB_hotcue_1"; "deckB_hotcue_2"; "deckB_hotcue_3"; "deckB_hotcue_4";
    "deckB_loop_1"; "deckB_loop_4"; "deckB_loop_8"; "deckB_loop_16";
    "crossfader"; "master_volume"; "headphone_volume"; "headphone_mix";
    "eq_bass"; "eq_mid"; "eq_treble";
    "fx_selected_dryWet"; "fx_selected_param1"; "fx_selected_param2" ]
  ++ map (fun fx => "fx_toggle_" ++ fx) FX_LIST.

(** ** String helpers *)

(** [s.split(sep)] for a separator of one code unit. *)
Fixpoint split (sep : ascii) (s : string) : list string :=
  match s with
  | EmptyString => [EmptyString]
  | String c rest =>
      if Ascii.eqb c sep then EmptyString :: split sep rest
      else
        match split sep rest with
        | piece :: pieces => String c piece :: pieces
        | [] => [String c EmptyString]   (* not reached *)
        end
  end.

(** [s.startsWith(p)]. *)
Definition startsWith (s p : string) : bool := String.prefix p s.

(** [s.replace(p, '')]: the first occurrence of [p] is removed. *)
Fixpoint removeFirst (p s : string) : string :=
  if String.prefix p s
  then String.substring (String.length p)
                        (String.length s - String.length p) s
  else
    match s with
    | String c rest => String c (removeFirst p rest)
    | EmptyString => EmptyString
    end.

(** [parseInt(controlId.split('_')[2])]; a missing piece is [undefined],
    which parses to NaN. *)
Definition thirdPiece (controlId : string) : option Z :=
  match nth_error (split "_" controlId) 2 with
  | Some piece => Js.parseInt piece
  | None => None
  end.

(** ** The action of a control *)

Inductive Band : Type := Bass | Mid | Treble.

Inductive FxParam : Type := DryWet | Param1 | Param2.

(** What [handleControlAction] calls or sets. *)
Inductive ControlAction : Type :=
| SetDeckVolume (deck : DeckId) (volume : Q)
| PitchChange (deck : DeckId) (newRate : Q)
| TogglePlay (deck : DeckId)
| SetDeckCue (deck : DeckId) (on : bool)
| SetCrossfader (crossfader : Q)
| SetMasterVolume (masterVolume : Q)
| SetHeadphoneVolume (headphoneVolume : Q)
| SetHeadphoneMix (headphoneMix : Q)
| SetEqKnob (band : Band) (value : Q)
| HotCue (deck : DeckId) (type : CueActionType) (index : option Z)
| AutoLoopBeats (deck : DeckId) (beats : option Z)
| ToggleFx (fxType : string)
| SetFxParam (selectedFx : string) (param : FxParam) (value : Q)
| NoAction.

(** [cuePoints[index] ? 'jump' : 'set'] for an index that may be NaN or
    negative. *)
Definition jumpOrSet (cuePoints : list (option Q)) (index : option Z)
  : CueActionType :=
  let cue :=
    match index with
    | Some i => if (i <? 0)%Z then None else cueAt cuePoints (Z.to_nat i)
    | None => None
    end in
  if Js.truthy_onum cue then CueJump else CueSet.

(** [handleControlAction]; [deckA], [deckB] and [selectedFx] are those of
    the render the function belongs to, [value] is the data byte. *)
Definition handleControlAction (deckA deckB : DeckState)
  (selectedFx : option string) (controlId : string) (value : Z)
  : ControlAction :=
  let v := inject_Z value in
  let pressed := (0 <? value)%Z in
  if String.eqb controlId "deckA_volume" then SetDeckVolume DeckA (v / 127)
  else if String.eqb controlId "deckA_pitch"
  then PitchChange DeckA ((9 # 10) + (v / 127) * (2 # 10))
  else if String.eqb controlId "deckA_play" && pressed then TogglePlay DeckA
  else if String.eqb controlId "deckA_cue" then SetDeckCue DeckA pressed
  else if String.eqb controlId "deckB_volume" then SetDeckVolume DeckB (v / 127)
  else if String.eqb controlId "deckB_pitch"
  then PitchChange DeckB ((9 # 10) + (v / 127) * (2 # 10))
  else if String.eqb controlId "deckB_play" && pressed then TogglePlay DeckB
  else if String.eqb controlId "deckB_cue" then SetDeckCue DeckB pressed
  else if String.eqb controlId "crossfader"
  then SetCrossfader (-1 + (v / 127) * 2)
  else if String.eqb controlId "master_volume" then SetMasterVolume (v / 127)
  else if String.eqb controlId "headphone_volume"
  then SetHeadphoneVolume ((v / 127) * 100)
  else if String.eqb controlId "headphone_mix"
  then SetHeadphoneMix ((v / 127) * 100)
  else if String.eqb controlId "eq_bass" then SetEqKnob Bass ((v / 127) * 100)
  else if String.eqb controlId "eq_mid" then SetEqKnob Mid ((v / 127) * 100)
  else if String.eqb controlId "eq_treble"
  then SetEqKnob Treble ((v / 127) * 100)
  else if startsWith controlId "deckA_hotcue_" && pressed then
    let index := option_map Z.pred (thirdPiece controlId) in
    HotCue DeckA (jumpOrSet (cuePoints deckA) index) index
  else if startsWith controlId "deckB_hotcue_" && pressed then
    let index := option_map Z.pred (thirdPiece controlId) in
    HotCue DeckB (jumpOrSet (cuePoints deckB) index) index
  else if startsWith controlId "deckA_loop_" && pressed
  then AutoLoopBeats DeckA (thirdPiece controlId)
  else if startsWith controlId "deckB_loop_" && pressed
  then AutoLoopBeats DeckB (thirdPiece controlId)
  else if startsWith controlId "fx_toggle_" && pressed
  then ToggleFx (removeFirst "fx_toggle_" controlId)
  else
    match selectedFx with
    | Some fx =>
        if Js.truthy_str fx then
          if String.eqb controlId "fx_selected_dryWet"
          then SetFxParam fx DryWet ((v / 127) * 100)
          else if String.eqb controlId "fx_selected_param1"
          then SetFxParam fx Param1 ((v / 127) * 100)
          else if String.eqb controlId "fx_selected_param2"
          then SetFxParam fx Param2 ((v / 127) * 100)
          else NoAction
        else NoAction
    | None => NoAction
    end.

(** The range of the parameter an action sets, as the state and the
    interfaces document it: faders and volumes 0..1, pitch 0.9..1.1, the
    crossfader -1..1, knobs and effect parameters 0..100, hot cues 1..8
    (indices 0..7), loop lengths in beats, effects of [FX_LIST]. *)
Definition inRange (a : ControlAction) : bool :=
  match a with
  | SetDeckVolume _ x | SetMasterVolume x =>
      Js.num_le 0 x && Js.num_le x 1
  | PitchChange _ r => Js.num_le (9 # 10) r && Js.num_le r (11 # 10)
  | SetCrossfader x => Js.num_le (-1) x && Js.num_le x 1
  | SetHeadphoneVolume x | SetHeadphoneMix x | SetEqKnob _ x
  | SetFxParam _ _ x =>
      Js.num_le 0 x && Js.num_le x 100
  | HotCue _ _ (Some i) => (0 <=? i)%Z && (i <=? 7)%Z
  | HotCue _ _ None => false
  | AutoLoopBeats _ (Some b) => (0 <? b)%Z
  | AutoLoopBeats _ None => false
  | ToggleFx fx => Js.includes_str FX_LIST fx
  | TogglePlay _ | SetDeckCue _ _ => true
  | NoAction => false
  end.

Definition isNoAction (a : ControlAction) : bool :=
  match a with NoAction => true | _ => false end.

(** The data bytes. *)
Definition dataBytes : list Z := map Z.of_nat (seq 0 128).

End MidiControls.

(* ================================================================== *)
(** * Auto-DJ: the mix of a transition *)
(* ================================================================== *)

Module Transition.

Import Deck AutoDj.
Local Open Scope Q_scope.

(** [song.energy || 5]. *)
Definition energyOr5 (energy : option Q) : Q :=
  match energy with
  | Some e => if Js.truthy_num e then e else 5
  | None => 5
  end.

(** [fromSong.genre === nextTrack.genre]. *)
Definition sameGenre (a b : option string) : bool :=
  match a, b with
  | Some x, Some y => String.eqb x y
  | None, None => true
  | _, _ => false
  end.

(** The style and the length in seconds [startTransition] goes on with:
    those of the settings, replaced by the "Smart" choice. *)
Definition chosenTransition (settings : AutoDjSettings)
  (fromSong : option Song) (nextTrack : Song) : TransitionType * Q :=
  match transitionType settings with
  | Smart =>
      match fromSong with
      | Some fromSong =>
          let energyDiff :=
            Qabs (energyOr5 (song_energy fromSong)
                  - energyOr5 (song_energy nextTrack)) in
          let genreMatch :=
            sameGenre (song_genre fromSong) (song_genre nextTrack) in
          if genreMatch && Js.num_le energyDiff 2 then (FilterFade, 12)
          else if Js.num_gt energyDiff 4 then (EQFade, 8)
          else (Crossfade, 6)
      | None => (Crossfade, transitionDuration settings)
      end
  | other => (other, transitionDuration settings)
  end.

(** The volume the incoming deck starts with: that of the deck state
    [loadSong] returned, or the auto-gain value.  The quotient is the exact
    one; the cap and the factor 0.75 are exact in the code too, so the
    range, the capped values and the order of the result carry over to the
    code, an equation between volume and loudness does not. *)
Definition toDeckStartVolume (settings : AutoDjSettings)
  (fromDeckState newToDeckState : DeckState) : Q :=
  if autoGain settings then
    match perceivedLoudness fromDeckState,
          perceivedLoudness newToDeckState with
    | Some fromLoudness, Some toLoudness =>
        if Js.truthy_num fromLoudness && Js.truthy_num toLoudness
           && Js.num_gt toLoudness 0
        then
          let gainFactor := fromLoudness / toLoudness in
          let cappedGain := Qmax (1 # 2) (Qmin (3 # 2) gainFactor) in
          (3 # 4) * cappedGain
        else volume newToDeckState
    | _, _ => volume newToDeckState
    end
  else volume newToDeckState.

(** The rate the incoming deck is started at, as the exact quotient of
    the tempos: its sign and its side of 1 carry over to the code, the
    product of rate and tempo does not. *)
Definition targetPlaybackRate (settings : AutoDjSettings)
  (fromDeckState : DeckState) (nextTrack : Song) : Q :=
  if beatMatch settings then
    match song fromDeckState with
    | Some fromSong =>
        match song_bpm fromSong, song_bpm nextTrack with
        | Some fromBpm, Some nextBpm =>
            if Js.truthy_num fromBpm && Js.truthy_num nextBpm
               && Js.num_gt nextBpm 0
            then fromBpm / nextBpm
            else 1
        | _, _ => 1
        end
    | None => 1
    end
  else 1.

(** ** The ramp *)

(** What the ramp writes: the crossfader and the faders of the outgoing
    and of the incoming deck. *)
Record Mixer : Type := mkMixer {
  crossfader : Q;
  fromVolume : Q;
  toVolume : Q
}.

(** The interval of a transition: the counter [step], whether the interval
    is still set, and the mixer. *)
Record Ramp : Type := mkRamp {
  step : Z;
  running : bool;
  mixer : Mixer
}.

(** [durationMs / 50]. *)
Definition steps (transitionDuration : Q) : Q :=
  transitionDuration * 1000 / 50.

(** [Math.min(1, step / steps)] for a counter from 1 on; a division by
    zero is [Infinity]. *)
Definition progress (steps : Q) (step : Z) : Q :=
  if Js.num_eq steps 0 then 1 else Qmin 1 (inject_Z step / steps).

(** [fromDeck === 'A' ? 1 : -1]: the crossfader position of the incoming
    deck. *)
Definition direction (fromDeck : DeckId) : Q :=
  match fromDeck with DeckA => 1 | DeckB => -1 end.

(** [startValue + (progress * 2 * direction)]. *)
Definition rampValue (fromDeck : DeckId) (progress : Q) : Q :=
  let direction := direction fromDeck in
  let startValue := - direction in
  startValue + progress * 2 * direction.

(** What [finishTransition] does to the mixer: the crossfader goes to the
    incoming deck and the fader of the emptied deck back to 0.75. *)
Definition finishTransition (fromDeck : DeckId) (m : Mixer) : Mixer :=
  mkMixer (direction fromDeck) (3 # 4) (toVolume m).

(** The mixer when the interval is set: the incoming deck has its start
    volume. *)
Definition rampStart (toDeckStartVolume : Q) (m : Mixer) : Ramp :=
  mkRamp 0 true (mkMixer (crossfader m) (fromVolume m) toDeckStartVolume).

(** One call of the interval function (with an audio context); a cleared
    interval is not called. *)
Definition intervalTick (transitionType : TransitionType) (fromDeck : DeckId)
  (steps fromDeckStartVolume toDeckStartVolume : Q) (r : Ramp) : Ramp :=
  if negb (running r) then r
  else
    let step := (step r + 1)%Z in
    let progress := progress steps step in
    let m := mixer r in
    let moved :=
      match transitionType with
      | FadeInOut =>
          mkMixer 0 (fromDeckStartVolume * (1 - progress))
                  (toDeckStartVolume * progress)
      | _ => mkMixer (rampValue fromDeck progress) (fromVolume m) (toVolume m)
      end in
    if Js.num_ge (inject_Z step) steps then
      let settled :=
        match transitionType with
        | FadeInOut => mkMixer (crossfader moved) 0 toDeckStartVolume
        | _ => moved
        end in
      mkRamp step false (finishTransition fromDeck settled)
    else mkRamp step true moved.

(** [n] calls of the interval function. *)
Fixpoint ticks (transitionType : TransitionType) (fromDeck : DeckId)
  (steps fromDeckStartVolume toDeckStartVolume : Q) (n : nat) (r : Ramp)
  : Ramp :=
  match n with
  | O => r
  | S n' =>
      intervalTick transitionType fromDeck steps fromDeckStartVolume
        toDeckStartVolume
        (ticks transitionType fromDeck steps fromDeckStartVolume
           toDeckStartVolume n' r)
  end.

(** The number of calls after which the interval is cleared. *)
Definition lastTick (transitionDuration : Q) : Z :=
  Qceiling (steps transitionDuration).

End Transition.

(* ================================================================== *)
(** * Beat pads: editing the kit *)
(* ================================================================== *)

Module BeatPads.

Import Deck BeatStore DeckControls.
Local Open Scope string_scope.

(** The [setBeats] update of [loadBeat]: the beat goes to its pad; a
    category the kit does not have yet starts from twelve empty pads. *)
Definition loadBeat_beats (category : string) (padIndex : nat) (beat : Beat)
  (prevBeats : Beats) : Beats :=
  let newCategoryBeats :=
    match Obj.get category prevBeats with
    | Some pads => pads
    | None => emptyPads
    end in
  Obj.set category (array_set padIndex beat newCategoryBeats) prevBeats.

(** The update of [handleRemoveBeat]: the pad is set to [null].  Spreading
    the pads of a category the kit does not have throws ([None]). *)
Definition handleRemoveBeat (category : string) (padIndex : nat)
  (prevBeats : Beats) : option Beats :=
  match Obj.get category prevBeats with
  | Some pads =>
      Some (Obj.set category (array_put padIndex None pads) prevBeats)
  | None => None
  end.

(** What [handleClearAllBeats] sets after the confirmation. *)
Definition handleClearAllBeats (confirmed : bool) (beats : Beats) : Beats :=
  if confirmed then emptyBeats else beats.

(** The edits of the kit. *)
Inductive PadEdit : Type :=
| LoadBeat (category : string) (padIndex : nat) (beat : Beat)
| RemoveBeat (category : string) (padIndex : nat)
| ClearAllBeats.

Definition edit (e : PadEdit) (beats : Beats) : option Beats :=
  match e with
  | LoadBeat category padIndex beat =>
      Some (loadBeat_beats category padIndex beat beats)
  | RemoveBeat category padIndex => handleRemoveBeat category padIndex beats
  | ClearAllBeats => Some (handleClearAllBeats true beats)
  end.

(** A sequence of edits; it stops at the first one that throws. *)
Fixpoint edits (es : list PadEdit) (beats : Beats) : option Beats :=
  match es with
  | [] => Some beats
  | e :: rest =>
      match edit e beats with
      | Some beats' => edits rest beats'
      | None => None
      end
  end.

(** An edit of one of the 36 pads of the panel. *)
Definition onPad (e : PadEdit) : Prop :=
  match e with
  | LoadBeat category padIndex _ | RemoveBeat category padIndex =>
      In category categories /\ (padIndex < 12)%nat
  | ClearAllBeats => True
  end.

(** Whether pad [(category', k')] is pad [(category, k)]. *)
Definition samePad (category : string) (k : nat) (category' : string)
  (k' : nat) : bool :=
  String.eqb category category' && Nat.eqb k' k.

End BeatPads.

(* ================================================================== *)
(** * Theorems *)
(* ================================================================== *)

Section CamelotFacts.

Import Camelot.
Local Open Scope string_scope.

Example getCompatibleKeys_empty : getCompatibleKeys "" = [].
Proof. reflexivity. Qed.

Example getCompatibleKeys_12B :
  getCompatibleKeys "12B" = ["12A"; "1B"; "11B"].
Proof. vm_compute. reflexivity. Qed.

Lemma camelot_keys_are_the_wheel :
  CAMELOT_KEYS =
  flat_map (fun n => [camelot n ModeA; camelot n ModeB])
           (map Z.of_nat (seq 1 12)).
Proof. vm_compute. reflexivity. Qed.

(** C8. For every key of the Camelot wheel (number 1 to 12, mode A or B)
    [getCompatibleKeys] returns the same number with the opposite mode, then
    the next number and the previous number with the same mode, the numbers
    wrapping 12 -> 1 and 1 -> 12.  For "8A" the result is exactly "8B", "9A",
    "7A", and the previous-number neighbour of "1A" is "12A". *)
Theorem getCompatibleKeys_adjacency (n : Z) (m : mode) :
  (1 <= n <= 12)%Z ->
  getCompatibleKeys (camelot n m) = adjacency_rule n m
  /\ getCompatibleKeys "8A" = ["8B"; "9A"; "7A"]
  /\ nth_error (getCompatibleKeys "1A") 2 = Some "12A".
Proof.
  intros Hn.
  assert (Hcases : In n (map Z.of_nat (seq 1 12))).
  { replace n with (Z.of_nat (Z.to_nat n)) by lia.
    apply in_map, in_seq. lia. }
  split; [| split; vm_compute; reflexivity].
  simpl in Hcases.
  destruct m;
    repeat (destruct Hcases as [<- | Hcases]; [vm_compute; reflexivity |]);
    contradiction.
Qed.

Lemma getCompatibleKeys_adjacency_witness :
  (1 <= 8 <= 12)%Z
  /\ getCompatibleKeys (camelot 8 ModeA) = adjacency_rule 8 ModeA.
Proof.
  split; [lia |].
  apply (getCompatibleKeys_adjacency 8 ModeA); lia.
Defined.

End CamelotFacts.

Section CrossfaderFacts.

Import Crossfader.
Local Open Scope R_scope.

(** *** [Math.PI] against pi *)

Lemma Q2R_qpow (q : Q) (n : nat) : Q2R (qpow q n) = Q2R q ^ n.
Proof.
  induction n as [| n IH]; simpl.
  - apply RMicromega.Q2R_1.
  - now rewrite Q2R_mult, IH.
Qed.

Lemma Q2R_inject_nat (n : nat) : Q2R (inject_Z (Z.of_nat n)) = INR n.
Proof. unfold Q2R. simpl. rewrite INR_IZR_INZ. field. Qed.

Lemma Q2R_qterm (n : nat) : Q2R (qterm n) = tg_alt PI_2_3_7_tg n.
Proof.
  unfold qterm, tg_alt, PI_2_3_7_tg, Ratan_seq.
  assert (Hnz : ~ (inject_Z (Z.of_nat (2 * n + 1)) == 0)%Q).
  { unfold Qeq. simpl. lia. }
  rewrite Q2R_mult, Q2R_plus, Q2R_mult, !Q2R_div by exact Hnz.
  rewrite !Q2R_qpow, Q2R_inject_nat.
  replace (Q2R (1 # 3)) with (/ 3) by (unfold Q2R; simpl; field).
  replace (Q2R (1 # 7)) with (/ 7) by (unfold Q2R; simpl; field).
  replace (Q2R (-1)) with (-1) by (unfold Q2R; simpl; field).
  replace (Q2R 2) with 2 by (unfold Q2R; simpl; field).
  reflexivity.
Qed.

Lemma Q2R_qsum (N : nat) : Q2R (qsum N) = sum_f_R0 (tg_alt PI_2_3_7_tg) N.
Proof.
  induction N as [| N IH]; simpl.
  - apply Q2R_qterm.
  - now rewrite Q2R_plus, IH, Q2R_qterm.
Qed.

Lemma Math_PI_Q_below_series : (Math_PI_Q < 4 * qsum 19)%Q.
Proof. vm_compute. reflexivity. Qed.

Lemma series_near_Math_PI_Q :
  (4 * qsum 18 < Math_PI_Q + (1 # 4503599627370496))%Q.
Proof. vm_compute. reflexivity. Qed.

(** The double is below pi ... *)
Lemma Math_PI_below_PI : Math_PI < PI.
Proof.
  pose proof (PI_2_3_7_ineq 9) as [Hlo _].
  change (S (2 * 9)) with 19%nat in Hlo. rewrite <- Q2R_qsum in Hlo.
  pose proof (Qlt_Rlt _ _ Math_PI_Q_below_series) as H.
  rewrite Q2R_mult in H.
  replace (Q2R 4) with 4 in H by (unfold Q2R; simpl; field).
  unfold Math_PI. lra.
Qed.

(** ... by less than 2^-52. *)
Lemma PI_near_Math_PI : PI < Math_PI + / 4503599627370496.
Proof.
  pose proof (PI_2_3_7_ineq 9) as [_ Hhi].
  change (2 * 9)%nat with 18%nat in Hhi. rewrite <- Q2R_qsum in Hhi.
  pose proof (Qlt_Rlt _ _ series_near_Math_PI_Q) as H.
  rewrite Q2R_mult, Q2R_plus in H.
  replace (Q2R 4) with 4 in H by (unfold Q2R; simpl; field).
  replace (Q2R (1 # 4503599627370496)) with (/ 4503599627370496) in H
    by (unfold Q2R; simpl; field).
  unfold Math_PI. lra.
Qed.

Lemma Math_PI_positive : 0 < Math_PI.
Proof.
  unfold Math_PI. replace 0 with (Q2R 0) by apply RMicromega.Q2R_0.
  apply Qlt_Rlt. reflexivity.
Qed.

(** *** The three laws *)

Lemma position_range (x : R) : -1 <= x <= 1 -> 0 <= position x <= 1.
Proof. unfold position. intros; lra. Qed.

Lemma cube_range (p : R) : 0 <= p <= 1 -> 0 <= p ^ 3 <= 1.
Proof.
  intros [H0 H1]. split.
  - apply pow_le; exact H0.
  - replace 1 with (1 ^ 3) by ring. apply pow_incr; lra.
Qed.

Lemma quarter_turn_range (pi p : R) :
  0 < pi <= PI -> 0 <= p <= 1 -> 0 <= p * pi / 2 <= PI / 2.
Proof. intros [Hpi Hle] [H0 H1]. split; nra. Qed.

Lemma gainsWith_range (pi : R) (c : CrossfaderCurveType) (x : R) :
  0 < pi <= PI -> -1 <= x <= 1 ->
  0 <= fst (gainsWith pi c x) <= 1 /\ 0 <= snd (gainsWith pi c x) <= 1.
Proof.
  intros Hpi Hx. pose proof (position_range x Hx) as Hp.
  pose proof PI_RGT_0 as HPI.
  unfold gainsWith. destruct c.
  - simpl. lra.
  - pose proof (quarter_turn_range pi _ Hpi Hp) as [Ha Hb]. simpl.
    set (a := position x * pi / 2) in *.
    pose proof (COS_bound a) as [_ Hc]. pose proof (SIN_bound a) as [_ Hs].
    repeat split; try assumption.
    + apply cos_ge_0; lra.
    + apply sin_ge_0; lra.
  - destruct (Rlt_dec (position x) (1 / 2)) as [Hlt | Hge]; simpl.
    + pose proof (cube_range (2 * position x)) as Hc. lra.
    + pose proof (cube_range (2 * (1 - position x))) as Hc. lra.
Qed.

(** The left end stop is exact whatever the constant. *)
Lemma gainsWith_left_end (pi : R) (c : CrossfaderCurveType) :
  gainsWith pi c (-1) = (1, 0).
Proof.
  unfold gainsWith, position.
  replace ((-1 + 1) / 2) with 0 by lra.
  destruct c.
  - f_equal; lra.
  - replace (0 * pi / 2) with 0 by lra. now rewrite cos_0, sin_0.
  - destruct (Rlt_dec 0 (1 / 2)) as [_ | H]; [| lra].
    f_equal; lra.
Qed.

(** The right end stop of the linear and the fast-cut law is exact. *)
Lemma gainsWith_right_end (pi : R) (c : CrossfaderCurveType) :
  c <> SlowFade -> gainsWith pi c 1 = (0, 1).
Proof.
  intros Hc. unfold gainsWith, position.
  replace ((1 + 1) / 2) with 1 by lra.
  destruct c; [| contradiction |].
  - f_equal; lra.
  - destruct (Rlt_dec 1 (1 / 2)) as [H | _]; [lra |].
    f_equal; lra.
Qed.

(** With pi itself in place of [Math.PI] the constant-power law is exact at
    the right end stop too. *)
Lemma ideal_constant_power_right_end : gainsWith PI SlowFade 1 = (0, 1).
Proof.
  unfold gainsWith, position.
  replace ((1 + 1) / 2 * PI / 2) with (PI / 2) by lra.
  now rewrite cos_PI2, sin_PI2.
Qed.

Lemma constant_power_right_end :
  gains SlowFade 1 = (cos (Math_PI / 2), sin (Math_PI / 2)).
Proof.
  unfold gains, gainsWith, position.
  replace ((1 + 1) / 2 * Math_PI / 2) with (Math_PI / 2) by lra.
  reflexivity.
Qed.

(** Deck A's gain at the right end stop of the constant-power law: above
    zero, below 2^-53. *)
Lemma constant_power_right_end_gainA :
  0 < gainA SlowFade 1 < / 9007199254740992.
Proof.
  unfold gainA. rewrite constant_power_right_end. simpl.
  pose proof Math_PI_below_PI as Hlo. pose proof PI_near_Math_PI as Hhi.
  pose proof Math_PI_positive as Hpos.
  split.
  - apply cos_gt_0; lra.
  - rewrite <- (sin_shift (Math_PI / 2)).
    apply Rlt_trans with (PI / 2 - Math_PI / 2); [apply sin_lt_x; lra | lra].
Qed.

Lemma constant_power_right_end_gainB :
  1 - / 9007199254740992 < gainB SlowFade 1 <= 1.
Proof.
  pose proof constant_power_right_end_gainA as [HA0 HA1].
  unfold gainA, gainB in *. rewrite constant_power_right_end in *.
  simpl in *.
  pose proof (sin2_cos2 (Math_PI / 2)) as Hsq. unfold Rsqr in Hsq.
  pose proof (SIN_bound (Math_PI / 2)) as [_ Hs1].
  pose proof Math_PI_below_PI. pose proof Math_PI_positive.
  assert (Hs0 : 0 <= sin (Math_PI / 2)) by (apply sin_ge_0; lra).
  split; [nra | exact Hs1].
Qed.

(** C3 as stated fails at the right end stop of the constant-power law:
    [Math.PI] is below pi, so the cosine of [Math.PI / 2] is not zero. *)
Lemma constant_power_right_end_not_exact : gainA SlowFade 1 <> 0.
Proof. pose proof constant_power_right_end_gainA. lra. Qed.

(** C3, amended. For every crossfader position x in [-1, 1] and each of the
    three curve laws both deck gains lie in [0, 1].  At x = -1 the gains are
    exactly (1, 0) for every law; at x = 1 they are exactly (0, 1) for the
    linear and the fast-cut law, and for the constant-power law deck A's
    gain is positive and below 2^-53 and deck B's gain is within 2^-53 of 1
    (not above it). *)
Theorem crossfader_gains_bounded_and_ends
  (c : CrossfaderCurveType) (x : R) :
  -1 <= x <= 1 ->
  (0 <= gainA c x <= 1 /\ 0 <= gainB c x <= 1)
  /\ gainA c (-1) = 1 /\ gainB c (-1) = 0
  /\ (c <> SlowFade -> gainA c 1 = 0 /\ gainB c 1 = 1)
  /\ 0 < gainA SlowFade 1 < / 9007199254740992
  /\ 1 - / 9007199254740992 < gainB SlowFade 1 <= 1.
Proof.
  intros Hx.
  assert (Hpi : 0 < Math_PI <= PI).
  { pose proof Math_PI_below_PI. pose proof Math_PI_positive. lra. }
  split; [exact (gainsWith_range Math_PI c x Hpi Hx) |].
  unfold gainA at 1, gainB at 1, gains. rewrite gainsWith_left_end.
  split; [reflexivity |]. split; [reflexivity |].
  split.
  - intros Hc. unfold gainA, gainB, gains.
    now rewrite (gainsWith_right_end Math_PI c Hc).
  - split; [apply constant_power_right_end_gainA
           | apply constant_power_right_end_gainB].
Qed.

Lemma crossfader_gains_bounded_and_ends_witness :
  -1 <= 0 <= 1
  /\ (0 <= gainA SlowFade 0 <= 1 /\ 0 <= gainB SlowFade 0 <= 1).
Proof.
  assert (H : -1 <= 0 <= 1) by lra.
  split; [exact H |].
  exact (proj1 (crossfader_gains_bounded_and_ends SlowFade 0 H)).
Defined.

End CrossfaderFacts.

Section DoubleFacts.

Import Floats.PrimFloat Floats.FloatOps Floats.SpecFloat Floats.FloatAxioms.
Import F64.

(** *** Rounding to the format never gives [NaN] for a non-negative
    mantissa *)

Lemma shr_1_nonneg (mrs : shr_record) :
  (0 <= shr_m mrs)%Z -> (0 <= shr_m (shr_1 mrs))%Z.
Proof.
  destruct mrs as [m r s]. cbn [shr_m shr_1].
  destruct m as [| p | p]; [| destruct p | lia]; cbn [shr_m]; lia.
Qed.

Lemma iter_shr_1_nonneg (p : positive) (mrs : shr_record) :
  (0 <= shr_m mrs)%Z -> (0 <= shr_m (iter_pos shr_1 p mrs))%Z.
Proof.
  revert mrs. induction p as [p IH | p IH |]; intros mrs H; cbn [iter_pos].
  - apply IH, IH. now apply shr_1_nonneg.
  - now apply IH, IH.
  - now apply shr_1_nonneg.
Qed.

Lemma shr_nonneg (mrs : shr_record) (e n : Z) :
  (0 <= shr_m mrs)%Z -> (0 <= shr_m (fst (shr mrs e n)))%Z.
Proof.
  intros H. unfold shr. destruct n; cbn [fst]; try exact H.
  now apply iter_shr_1_nonneg.
Qed.

Lemma shr_record_of_loc_m (m : Z) (l : location) :
  shr_m (shr_record_of_loc m l) = m.
Proof. destruct l as [| []]; reflexivity. Qed.

Lemma shr_fexp_nonneg (m e : Z) (l : location) :
  (0 <= m)%Z -> (0 <= shr_m (fst (shr_fexp prec emax m e l)))%Z.
Proof.
  intros H. unfold shr_fexp. apply shr_nonneg.
  now rewrite shr_record_of_loc_m.
Qed.

Lemma round_nearest_even_nonneg (m : Z) (l : location) :
  (0 <= m)%Z -> (0 <= round_nearest_even m l)%Z.
Proof.
  intros H. unfold round_nearest_even.
  destruct l as [| []]; try destruct (Z.even m); lia.
Qed.

Lemma binary_round_aux_signed (s : bool) (m e : Z) (l : location) :
  (0 <= m)%Z -> signed s (binary_round_aux prec emax s m e l).
Proof.
  intros H. unfold binary_round_aux.
  pose proof (shr_fexp_nonneg m e l H) as H1.
  destruct (shr_fexp prec emax m e l) as [mrs' e']. cbn [fst] in H1.
  pose proof (shr_fexp_nonneg _ e' loc_Exact
                (round_nearest_even_nonneg _ (loc_of_shr_record mrs') H1))
    as H2.
  destruct (shr_fexp prec emax _ e' loc_Exact) as [mrs'' e''].
  cbn [fst] in H2.
  destruct (shr_m mrs'') as [| p | p]; [reflexivity | | lia].
  destruct (e'' <=? emax - prec)%Z; reflexivity.
Qed.

Lemma ltb_0_shape (y : float) :
  (0 <? y)%float = true ->
  Prim2SF y = S754_infinity false
  \/ exists m e, Prim2SF y = S754_finite false m e.
Proof.
  rewrite ltb_spec. unfold SFltb.
  change (Prim2SF 0) with (S754_zero false).
  destruct (Prim2SF y) as [s | s | | s m e]; cbn [SFcompare];
    try discriminate; destruct s; try discriminate; eauto.
Qed.

(** A positive finite number divided by a positive number. *)
Lemma div_positive_signed (x y : float) (mx : positive) (ex : Z) :
  Prim2SF x = S754_finite false mx ex -> (0 <? y)%float = true ->
  signed false (Prim2SF (x / y)).
Proof.
  intros Hx Hy. rewrite div_spec, Hx. unfold SF64div, SFdiv.
  destruct (ltb_0_shape y Hy) as [-> | (my & ey & ->)]; [reflexivity |].
  unfold SFdiv_core_binary.
  set (s := (ex - ey - _)%Z).
  set (m' := match s with
             | Zpos _ => Z.shiftl (Zpos mx) s
             | Z0 => Zpos mx
             | Zneg _ => Z0
             end).
  assert (Hm' : (0 <= m')%Z).
  { unfold m'. destruct s; try lia. apply Z.shiftl_nonneg. lia. }
  pose proof (Z.div_pos m' (Zpos my) Hm' ltac:(lia)) as Hq.
  unfold Z.div in Hq.
  destruct (Z.div_eucl m' (Zpos my)) as [q r].
  now apply binary_round_aux_signed.
Qed.

Lemma Math_round_signed (x : float) :
  signed false (Prim2SF x) ->
  (exists n, Math_round x = Int n) \/ Math_round x = PosInfinity.
Proof.
  unfold Math_round, exact.
  destruct (Prim2SF x) as [s | s | | s m e]; cbn [signed];
    intros H; try contradiction; subst; eauto.
Qed.

(** [Math.round] gives the nearest integer, the upper one at a tie. *)
Lemma Math_round_nearest (x : float) (n : Z) :
  Math_round x = Int n ->
  exists q, exact x = Some q
            /\ (inject_Z n - (1 # 2) <= q)%Q /\ (q < inject_Z n + (1 # 2))%Q.
Proof.
  unfold Math_round. destruct (exact x) as [q |] eqn:E.
  - intros H. exists q. split; [reflexivity |].
    assert (En : n = Qfloor (q + (1 # 2))) by congruence.
    rewrite En. clear H En.
    pose proof (Qfloor_le (q + (1 # 2))) as H1.
    pose proof (Qlt_floor (q + (1 # 2))) as H2.
    rewrite inject_Z_plus in H2. change (inject_Z 1) with 1%Q in H2.
    split; lra.
  - destruct (Prim2SF x) as [s | [] | | s m e]; discriminate.
Qed.

End DoubleFacts.

Section TapTempoFacts.

Import Floats.PrimFloat Floats.FloatOps Floats.SpecFloat Floats.FloatAxioms.
Import F64 TapTempo.

Lemma last_opt_snoc {A : Type} (xs : list A) (x : A) :
  Js.last_opt (xs ++ [x]) = Some x.
Proof. unfold Js.last_opt. now rewrite rev_app_distr. Qed.

Lemma last_cons_default {A : Type} (ts : list A) (b d : A) :
  last (b :: ts) d = last ts b.
Proof.
  revert b d. induction ts as [| c ts IH]; intros b d; [reflexivity |].
  change (last (b :: c :: ts) d) with (last (c :: ts) d).
  now rewrite (IH c d), (IH c b).
Qed.

Lemma last_opt_last {A} (a : A) (ts : list A) :
  Js.last_opt (a :: ts) = Some (last ts a).
Proof.
  revert a. induction ts as [| b ts IH] using rev_ind; intros a.
  - reflexivity.
  - rewrite app_comm_cons, last_opt_snoc. now rewrite last_last.
Qed.

(** The taps the reset test keeps. *)
Lemma window_kept (now : float) (ts : list float) :
  exists kept,
    window now ts
    = (if Nat.ltb 5 (length (kept ++ [now])) then tl (kept ++ [now])
       else kept ++ [now])
    /\ (kept = ts \/ kept = [])
    /\ ((forall lastTap, Js.last_opt ts = Some lastTap ->
           truthy lastTap && (2000 <? now - lastTap)%float = false) ->
        kept = ts)
    /\ (forall lastTap, Js.last_opt ts = Some lastTap ->
          truthy lastTap && (2000 <? now - lastTap)%float = true ->
          kept = []).
Proof.
  unfold window.
  destruct (Js.last_opt ts) as [lastTap |].
  - destruct (truthy lastTap && (2000 <? now - lastTap)%float) eqn:E.
    + exists []. repeat split; auto.
      intros H. specialize (H lastTap eq_refl). congruence.
    + exists ts. repeat split; auto.
      intros l [= <-] H. congruence.
  - exists ts. repeat split; auto. intros l [=].
Qed.

Lemma window_length (now : float) (ts : list float) :
  (length ts <= 5)%nat -> (1 <= length (window now ts) <= 5)%nat.
Proof.
  intros Hlen. destruct (window_kept now ts) as (kept & -> & Hk & _).
  assert (Hkept : (length kept <= 5)%nat) by (destruct Hk; subst; simpl; lia).
  destruct (Nat.ltb_spec 5 (length (kept ++ [now]))) as [H | H].
  - destruct kept as [| k kept']; cbn [app tl length] in *;
      rewrite ?length_app in *; cbn [length] in *; lia.
  - rewrite length_app in *. cbn [length] in *. lia.
Qed.

Lemma window_ends_with_now (now : float) (ts : list float) :
  Js.last_opt (window now ts) = Some now.
Proof.
  destruct (window_kept now ts) as (kept & -> & _).
  destruct (Nat.ltb 5 (length (kept ++ [now]))) eqn:E.
  - destruct kept as [| k kept']; [simpl in E; discriminate |].
    simpl. apply last_opt_snoc.
  - apply last_opt_snoc.
Qed.

Lemma window_after_pause (now lastTap : float) (ts : list float) :
  Js.last_opt ts = Some lastTap ->
  truthy lastTap = true -> (2000 <? now - lastTap)%float = true ->
  window now ts = [now].
Proof.
  intros Hlast Ht Hgap.
  destruct (window_kept now ts) as (kept & -> & _ & _ & Hreset).
  rewrite (Hreset lastTap Hlast) by now rewrite Ht, Hgap.
  reflexivity.
Qed.

Lemma window_rolls (now : float) (ts : list float) :
  (length ts <= 5)%nat ->
  (forall lastTap, Js.last_opt ts = Some lastTap ->
     truthy lastTap && (2000 <? now - lastTap)%float = false) ->
  window now ts = skipn (length (ts ++ [now]) - 5) (ts ++ [now]).
Proof.
  intros Hlen Hno.
  destruct (window_kept now ts) as (kept & -> & _ & Hkeep & _).
  rewrite (Hkeep Hno). rewrite length_app. cbn [length].
  destruct (Nat.ltb_spec 5 (length ts + 1)) as [H | H].
  - replace (length ts + 1 - 5)%nat with 1%nat by lia.
    destruct ts; reflexivity.
  - replace (length ts + 1 - 5)%nat with 0%nat by lia. reflexivity.
Qed.

Lemma handleMetronomeTap_window (now : float) (st : State) :
  tapTempoTimestamps (handleMetronomeTap now st)
  = window now (tapTempoTimestamps st).
Proof.
  unfold handleMetronomeTap.
  destruct (Nat.ltb 1 (length (window now (tapTempoTimestamps st))));
    [| reflexivity].
  now destruct (0 <? averageInterval _)%float.
Qed.

(** The window never grows beyond five taps, however many taps arrive. *)
Lemma taps_window_length (nows : list float) (st : State) :
  (length (tapTempoTimestamps st) <= 5)%nat ->
  (length (tapTempoTimestamps (taps nows st)) <= 5)%nat.
Proof.
  unfold taps. revert st.
  induction nows as [| now nows IH]; intros st Hlen; simpl; [exact Hlen |].
  apply IH. rewrite handleMetronomeTap_window.
  now apply window_length.
Qed.

(** What a tap does to the tempo, given the mean interval of its window. *)
Lemma tempo_of_mean (now : float) (st : State) (mean : float) :
  (1 <? length (window now (tapTempoTimestamps st)))%nat = true ->
  averageInterval (window now (tapTempoTimestamps st)) = mean ->
  if (0 <? mean)%float then
    exists k : Z,
      (40 <= k <= 240)%Z
      /\ metronomeBpm (handleMetronomeTap now st) = of_Z k
      /\ ((exists n, Math_round (60000 / mean) = Int n)
          \/ Math_round (60000 / mean) = PosInfinity)
      /\ (forall n, Math_round (60000 / mean) = Int n ->
                    k = Z.max 40 (Z.min 240 n))
      /\ (Math_round (60000 / mean) = PosInfinity -> k = 240%Z)
  else metronomeBpm (handleMetronomeTap now st) = metronomeBpm st.
Proof.
  intros Hlen Hmean. unfold handleMetronomeTap. rewrite Hlen, Hmean.
  destruct (0 <? mean)%float eqn:Hpos; [| reflexivity].
  cbn [metronomeBpm].
  assert (Hq : signed false (Prim2SF (60000 / mean))).
  { apply (div_positive_signed 60000 mean 8246337208320000 (-37));
      [vm_compute; reflexivity | exact Hpos]. }
  destruct (Math_round_signed _ Hq) as [[n Hn] | Hinf].
  - exists (Z.max 40 (Z.min 240 n)). rewrite Hn.
    split; [lia |]. split; [reflexivity |]. split; [eauto |].
    split; [now intros n' [= <-] | discriminate].
  - exists 240%Z. rewrite Hinf.
    split; [lia |]. split; [reflexivity |]. split; [auto |].
    split; [discriminate | reflexivity].
Qed.

Lemma of_Z_small :
  of_Z 1 = 1%float /\ of_Z 2 = 2%float /\ of_Z 3 = 3%float
  /\ of_Z 4 = 4%float /\ of_Z 120 = 120%float.
Proof. vm_compute. repeat split. Qed.

Lemma first_tap (t1 bpm0 : float) :
  handleMetronomeTap t1 (mkState [] bpm0) = mkState [t1] bpm0.
Proof. reflexivity. Qed.

Lemma no_pause (now lastTap : float) :
  (now - lastTap)%float = 500%float ->
  truthy lastTap && (2000 <? now - lastTap)%float = false.
Proof. intros ->. apply andb_false_r. Qed.

Lemma three_even_taps (t1 t2 t3 bpm0 : float) :
  (t2 - t1)%float = 500%float -> (t3 - t2)%float = 500%float ->
  taps [t1; t2; t3] (mkState [] bpm0) = mkState [t1; t2; t3] 120%float.
Proof.
  intros H1 H2. unfold taps. cbn [fold_left]. rewrite first_tap.
  assert (E2 : handleMetronomeTap t2 (mkState [t1] bpm0)
               = mkState [t1; t2] 120%float).
  { unfold handleMetronomeTap, window.
    cbn [tapTempoTimestamps Js.last_opt rev app].
    rewrite (no_pause t2 t1 H1).
    cbn [app length Nat.ltb Nat.leb tl].
    unfold averageInterval, sum. cbn [intervals fold_left length].
    rewrite H1. vm_compute. reflexivity. }
  rewrite E2.
  unfold handleMetronomeTap, window.
  cbn [tapTempoTimestamps Js.last_opt rev app].
  rewrite (no_pause t3 t2 H2).
  cbn [app length Nat.ltb Nat.leb tl].
  unfold averageInterval, sum. cbn [intervals fold_left length].
  rewrite H1, H2. vm_compute. reflexivity.
Qed.

(** The tempo values as numbers: for an integer of 40..240, [of_Z] is the
    conversion of the machine integer and has that integer as its value. *)
Lemma of_Z_bpm_check :
  forallb
    (fun k =>
       match Prim2SF (of_Z k), Prim2SF (of_uint63 (Uint63Axioms.of_Z k)) with
       | S754_finite s m e, S754_finite s' m' e' =>
           Bool.eqb s s' && Pos.eqb m m' && Z.eqb e e'
       | _, _ => false
       end
       && match exact (of_Z k) with
          | Some q => Qeq_bool q (inject_Z k)
          | None => false
          end)
    (map (fun n => Z.of_nat n + 40)%Z (seq 0 201)) = true.
Proof. vm_compute. reflexivity. Qed.

Lemma of_Z_bpm (k : Z) :
  (40 <= k <= 240)%Z ->
  of_Z k = of_uint63 (Uint63Axioms.of_Z k)
  /\ exists q, exact (of_Z k) = Some q /\ (q == inject_Z k)%Q.
Proof.
  intros H. pose proof of_Z_bpm_check as C. rewrite forallb_forall in C.
  assert (I : In k (map (fun n => Z.of_nat n + 40)%Z (seq 0 201))).
  { apply in_map_iff. exists (Z.to_nat (k - 40)). split; [lia |].
    apply in_seq. lia. }
  specialize (C k I). apply andb_prop in C as [C1 C2]. split.
  - apply Prim2SF_inj.
    destruct (Prim2SF (of_Z k)) as [| | | s m e]; try discriminate.
    destruct (Prim2SF (of_uint63 (Uint63Axioms.of_Z k))) as [| | | s' m' e'];
      try discriminate.
    apply andb_prop in C1 as [C1 Ce]. apply andb_prop in C1 as [Cs Cm].
    apply Bool.eqb_prop in Cs. apply Pos.eqb_eq in Cm. apply Z.eqb_eq in Ce.
    now subst.
  - destruct (exact (of_Z k)) as [q |]; [| discriminate].
    exists q. split; [reflexivity |]. now apply Qeq_bool_iff.
Qed.

(** C7. Tap tempo keeps between one and five tap times, the newest last.
    When the previous tap is more than 2000 ms back the window is cleared
    first, so the tap is handled exactly as a first tap: the window is the
    new tap alone and the tempo is untouched.  Otherwise the tap is
    appended and the window is the last five of the result.  With two or
    more taps in the window and a positive mean interval, the tempo is set
    to 60000 divided by the mean interval, rounded to the nearest integer
    and brought into 40..240; the mean is the sum of the differences of
    neighbouring taps, added up from 0 in order, divided by their count.
    Three taps whose differences are 500 give 120.  The numbers are
    doubles, every operation rounds as the source's does; a tempo of
    40..240 is the double of that integer. *)
Theorem tap_tempo_rolling_window_and_bpm (now : float) (st : State) :
  (length (tapTempoTimestamps st) <= 5)%nat ->
  let ts := tapTempoTimestamps st in
  let st' := handleMetronomeTap now st in
  let ts' := tapTempoTimestamps st' in
  let tempo_from (mean : float) : Prop :=
    if (0 <? mean)%float then
      exists k : Z,
        (40 <= k <= 240)%Z
        /\ metronomeBpm st' = of_Z k
        /\ ((exists n, Math_round (60000 / mean) = Int n)
            \/ Math_round (60000 / mean) = PosInfinity)
        /\ (forall n, Math_round (60000 / mean) = Int n ->
                      k = Z.max 40 (Z.min 240 n))
        /\ (Math_round (60000 / mean) = PosInfinity -> k = 240%Z)
    else metronomeBpm st' = metronomeBpm st in
  ((1 <= length ts' <= 5)%nat /\ Js.last_opt ts' = Some now)
  /\ (forall lastTap,
        Js.last_opt ts = Some lastTap ->
        truthy lastTap = true -> (2000 <? now - lastTap)%float = true ->
        st' = mkState [now] (metronomeBpm st)
        /\ st' = handleMetronomeTap now (mkState [] (metronomeBpm st)))
  /\ ((forall lastTap,
         Js.last_opt ts = Some lastTap ->
         truthy lastTap && (2000 <? now - lastTap)%float = false) ->
      ts' = skipn (length (ts ++ [now]) - 5) (ts ++ [now]))
  /\ (ts' = [now] -> metronomeBpm st' = metronomeBpm st)
  /\ (forall t1 t2, ts' = [t1; t2] ->
        tempo_from ((0 + (t2 - t1)) / 1)%float)
  /\ (forall t1 t2 t3, ts' = [t1; t2; t3] ->
        tempo_from ((0 + (t2 - t1) + (t3 - t2)) / 2)%float)
  /\ (forall t1 t2 t3 t4, ts' = [t1; t2; t3; t4] ->
        tempo_from ((0 + (t2 - t1) + (t3 - t2) + (t4 - t3)) / 3)%float)
  /\ (forall t1 t2 t3 t4 t5, ts' = [t1; t2; t3; t4; t5] ->
        tempo_from
          ((0 + (t2 - t1) + (t3 - t2) + (t4 - t3) + (t5 - t4)) / 4)%float)
  /\ (forall x n,
        Math_round x = Int n ->
        exists q, exact x = Some q
                  /\ (inject_Z n - (1 # 2) <= q)%Q
                  /\ (q < inject_Z n + (1 # 2))%Q)
  /\ (forall t1 t2 t3 bpm0,
        (t2 - t1)%float = 500%float -> (t3 - t2)%float = 500%float ->
        metronomeBpm (taps [t1; t2; t3] (mkState [] bpm0)) = 120%float)
  /\ of_Z 120 = 120%float
  /\ (forall k, (40 <= k <= 240)%Z ->
        of_Z k = of_uint63 (Uint63Axioms.of_Z k)
        /\ exists q, exact (of_Z k) = Some q /\ (q == inject_Z k)%Q)
  /\ (forall nows bpm0,
        (length (tapTempoTimestamps (taps nows (mkState [] bpm0))) <= 5)%nat).
Proof.
  intros Hlen ts st' ts' tempo_from.
  assert (Hts : ts' = window now ts) by apply handleMetronomeTap_window.
  destruct of_Z_small as (E1 & E2 & E3 & E4 & E120).
  assert (Hmean : forall w mean,
             ts' = w -> (1 <? length w)%nat = true ->
             averageInterval w = mean -> tempo_from mean).
  { intros w mean Hw Hl Ha. rewrite Hts in Hw. subst w.
    exact (tempo_of_mean now st mean Hl Ha). }
  split; [| split; [| split; [| split; [| split; [| split; [| split;
    [| split; [| split; [| split; [| split; [| split]]]]]]]]]]].
  - rewrite Hts. split; [now apply window_length |].
    apply window_ends_with_now.
  - intros lastTap Hlast Ht Hgap.
    assert (W : window now ts = [now])
      by exact (window_after_pause now lastTap ts Hlast Ht Hgap).
    unfold st', handleMetronomeTap. fold ts. rewrite W. split; reflexivity.
  - intros Hno. rewrite Hts. now apply window_rolls.
  - intros W. rewrite Hts in W. unfold st', handleMetronomeTap. fold ts.
    now rewrite W.
  - intros t1 t2 W. apply (Hmean _ _ W); [reflexivity |].
    unfold averageInterval, sum. cbn [intervals fold_left length Z.of_nat
      Pos.of_succ_nat Pos.succ]. now rewrite E1.
  - intros t1 t2 t3 W. apply (Hmean _ _ W); [reflexivity |].
    unfold averageInterval, sum. cbn [intervals fold_left length Z.of_nat
      Pos.of_succ_nat Pos.succ]. now rewrite E2.
  - intros t1 t2 t3 t4 W. apply (Hmean _ _ W); [reflexivity |].
    unfold averageInterval, sum. cbn [intervals fold_left length Z.of_nat
      Pos.of_succ_nat Pos.succ]. now rewrite E3.
  - intros t1 t2 t3 t4 t5 W. apply (Hmean _ _ W); [reflexivity |].
    unfold averageInterval, sum. cbn [intervals fold_left length Z.of_nat
      Pos.of_succ_nat Pos.succ]. now rewrite E4.
  - apply Math_round_nearest.
  - intros t1 t2 t3 bpm0 H1 H2. now rewrite three_even_taps.
  - exact E120.
  - exact of_Z_bpm.
  - intros nows bpm0. apply taps_window_length. simpl. lia.
Qed.

(** The guard [averageInterval > 0]: two taps at the same clock reading
    leave the tempo as it was. *)
Example taps_without_clock_advance_keep_bpm :
  handleMetronomeTap 1000 (mkState [1000%float] 90)
  = mkState [1000%float; 1000%float] 90%float.
Proof. vm_compute. reflexivity. Qed.

(** Readings of the clock with a fraction: the differences are rounded one
    by one (the first is 960.0000000000002), the quotient is 62.5 and the
    tempo 63. *)
Example taps_at_fractional_readings :
  metronomeBpm
    (taps [0x1.1c73333333333p+10; 0x1.063999999999ap+11;
           0x1.7e3999999999ap+11; 0x1.f63999999999ap+11]%float
       (mkState [] 120%float))
  = 63%float.
Proof. vm_compute. reflexivity. Qed.

(** Four taps over 1600 ms: the mean 1600 / 3 is rounded up, the quotient
    falls just below 112.5 and the tempo is 112. *)
Example taps_rounding_of_the_mean :
  metronomeBpm (taps [0; 533; 1066; 1600]%float (mkState [] 120%float))
  = 112%float.
Proof. vm_compute. reflexivity. Qed.

Lemma tap_tempo_rolling_window_and_bpm_witness :
  metronomeBpm (taps [1000; 1500; 2000]%float (mkState [] 90%float))
  = 120%float
  /\ handleMetronomeTap 5000 (mkState [1000; 1500]%float 90)
     = mkState [5000%float] 90%float.
Proof.
  assert (Hlen : (length (tapTempoTimestamps
                              (mkState [1000; 1500]%float 90%float)) <= 5)%nat)
    by (simpl; lia).
  destruct (tap_tempo_rolling_window_and_bpm 5000 _ Hlen)
    as (_ & Hreset & _ & _ & _ & _ & _ & _ & _ & Hthree & _).
  split.
  - apply Hthree; vm_compute; reflexivity.
  - destruct (Hreset 1500%float) as [Heq _];
      [reflexivity | vm_compute; reflexivity | vm_compute; reflexivity |].
    exact Heq.
Defined.

End TapTempoFacts.

Section MidiFacts.

Import Midi.
Local Open Scope string_scope.

Lemma get_set {V : Type} (k k' : string) (v : V) (o : Obj.t V) :
  Obj.get k' (Obj.set k v o) = if String.eqb k' k then Some v else Obj.get k' o.
Proof.
  induction o as [| [k0 v0] o IH]; simpl.
  - rewrite (String.eqb_sym k k'). reflexivity.
  - destruct (String.eqb_spec k0 k) as [-> | Hne]; simpl.
    + rewrite (String.eqb_sym k k'). destruct (String.eqb k' k); reflexivity.
    + destruct (String.eqb_spec k0 k') as [-> | Hne'].
      * destruct (String.eqb_spec k' k); [contradiction | reflexivity].
      * exact IH.
Qed.

Lemma get_delete {V : Type} (k k' : string) (o : Obj.t V) :
  Obj.get k' (Obj.delete k o) = if String.eqb k' k then None else Obj.get k' o.
Proof.
  unfold Obj.delete.
  induction o as [| [k0 v0] o IH]; simpl.
  - now destruct (String.eqb k' k).
  - destruct (String.eqb_spec k0 k) as [-> | Hne]; simpl.
    + rewrite IH. rewrite (String.eqb_sym k k').
      destruct (String.eqb k' k); reflexivity.
    + rewrite IH. destruct (String.eqb_spec k0 k') as [-> | Hne'].
      * destruct (String.eqb_spec k' k); [contradiction | reflexivity].
      * reflexivity.
Qed.

Lemma get_in_keys {V : Type} (k : string) (o : Obj.t V) :
  Obj.get k o <> None <-> In k (Obj.keys o).
Proof.
  induction o as [| [k0 v0] o IH]; simpl.
  - tauto.
  - destruct (String.eqb_spec k0 k) as [-> | Hne].
    + split; [auto | discriminate].
    + rewrite IH. intuition congruence.
Qed.

Lemma clear_loop_get (messageId : string) (ks : list string) (m : MidiMapping)
  (k : string) :
  Obj.get k (clear_loop messageId ks m)
  = if holds m k messageId && existsb (String.eqb k) ks then None
    else Obj.get k m.
Proof.
  unfold clear_loop.
  revert m. induction ks as [| k0 ks IH]; intros m; simpl.
  - now rewrite andb_false_r.
  - rewrite IH. clear IH.
    destruct (holds m k0 messageId) eqn:Hk0.
    + unfold holds at 1. rewrite get_delete.
      destruct (String.eqb_spec k k0) as [-> | Hne]; simpl.
      * now rewrite Hk0.
      * reflexivity.
    + destruct (String.eqb_spec k k0) as [-> | Hne]; simpl.
      * rewrite Hk0. reflexivity.
      * reflexivity.
Qed.

Lemma holds_in_keys (m : MidiMapping) (k messageId : string) :
  holds m k messageId = true -> existsb (String.eqb k) (Obj.keys m) = true.
Proof.
  unfold holds. intros H. apply existsb_exists. exists k.
  split; [| apply String.eqb_refl].
  apply get_in_keys. destruct (Obj.get k m); [discriminate | discriminate].
Qed.

Lemma learn_get (messageId control k : string) (prev : MidiMapping) :
  Obj.get k (learn messageId control prev)
  = if String.eqb k control then Some (Some messageId)
    else if holds prev k messageId then None
    else Obj.get k prev.
Proof.
  unfold learn.
  rewrite get_set, clear_loop_get.
  destruct (String.eqb k control); [reflexivity |].
  destruct (holds prev k messageId) eqn:H; [| reflexivity].
  now rewrite (holds_in_keys _ _ _ H).
Qed.

Lemma truthy_str_spec (s : string) : Js.truthy_str s = true <-> s <> "".
Proof.
  unfold Js.truthy_str. destruct (String.eqb_spec s ""); simpl; split;
    congruence.
Qed.

(** Every entry written or kept by the loop is backed by the forward map. *)
Lemma index_loop_sound (fwd : MidiMapping) (ks : list string)
  (rev : ReverseMapping) :
  (forall m c, Obj.get m rev = Some c -> Obj.get c fwd = Some (Some m)) ->
  forall m c, Obj.get m (index_loop fwd ks rev) = Some c ->
              Obj.get c fwd = Some (Some m).
Proof.
  unfold index_loop.
  revert rev. induction ks as [| k ks IH]; intros rev Hrev; simpl.
  - exact Hrev.
  - apply IH. intros m c.
    destruct (Obj.get k fwd) as [[v |] |] eqn:Hk; try apply Hrev.
    destruct (Js.truthy_str v); [| apply Hrev].
    rewrite get_set. destruct (String.eqb_spec m v) as [-> | _].
    + now intros [= <-].
    + apply Hrev.
Qed.

(** Every bound message of a listed control ends up indexed. *)
Lemma index_loop_complete (fwd : MidiMapping) (ks : list string)
  (rev : ReverseMapping) (c m : string) :
  (In c ks \/ Obj.get m rev <> None) ->
  Obj.get c fwd = Some (Some m) -> m <> "" ->
  Obj.get m (index_loop fwd ks rev) <> None.
Proof.
  unfold index_loop. intros Hin Hc Hm.
  assert (Hgen : forall ks rev,
             Obj.get m rev <> None ->
             Obj.get m (index_loop fwd ks rev) <> None).
  { clear. induction ks as [| k ks IH]; intros rev Hrev; simpl; [exact Hrev |].
    apply IH.
    destruct (Obj.get k fwd) as [[v |] |]; try exact Hrev.
    destruct (Js.truthy_str v); [| exact Hrev].
    rewrite get_set. destruct (String.eqb m v); [discriminate | exact Hrev]. }
  destruct Hin as [Hin | Hrev]; [| now apply Hgen].
  revert rev. induction ks as [| k ks IH]; intros rev; simpl; [contradiction |].
  destruct Hin as [-> | Hin]; [| now apply IH].
  apply Hgen. rewrite Hc.
  apply truthy_str_spec in Hm. rewrite Hm, get_set, String.eqb_refl.
  discriminate.
Qed.

Lemma rebuild_no_stale (fwd : MidiMapping) (m c : string) :
  Obj.get m (rebuild fwd) = Some c -> Obj.get c fwd = Some (Some m).
Proof.
  apply (index_loop_sound fwd (Obj.keys fwd) []). discriminate.
Qed.

Lemma rebuild_complete (fwd : MidiMapping) (c m : string) :
  Obj.get c fwd = Some (Some m) -> m <> "" ->
  exists c', Obj.get m (rebuild fwd) = Some c'
             /\ Obj.get c' fwd = Some (Some m).
Proof.
  intros Hc Hm.
  assert (H : Obj.get m (rebuild fwd) <> None).
  { apply (index_loop_complete fwd (Obj.keys fwd) [] c m); try assumption.
    left. apply get_in_keys. congruence. }
  destruct (Obj.get m (rebuild fwd)) as [c' |] eqn:E; [| contradiction].
  exists c'. split; [reflexivity | now apply rebuild_no_stale].
Qed.

Lemma learn_unique (messageId control c : string) (prev : MidiMapping) :
  Obj.get c (learn messageId control prev) = Some (Some messageId) ->
  c = control.
Proof.
  rewrite learn_get.
  destruct (String.eqb_spec c control) as [-> | Hne]; [reflexivity |].
  destruct (holds prev c messageId) eqn:Hh; [discriminate |].
  intros Hget. unfold holds in Hh. rewrite Hget, String.eqb_refl in Hh.
  discriminate.
Qed.

Lemma learn_preserves_one_control (messageId control : string)
  (prev : MidiMapping) :
  one_control_per_message prev ->
  one_control_per_message (learn messageId control prev).
Proof.
  intros Hinv c1 c2 m H1 H2.
  destruct (String.eqb_spec m messageId) as [-> | Hm].
  - apply learn_unique in H1, H2. congruence.
  - rewrite learn_get in H1, H2.
    destruct (String.eqb c1 control); [congruence |].
    destruct (String.eqb c2 control); [congruence |].
    destruct (holds prev c1 messageId); [discriminate |].
    destruct (holds prev c2 messageId); [discriminate |].
    now apply (Hinv c1 c2 m).
Qed.

Lemma messageIdOf_truthy (command data1 data2 : Z) (M : string) :
  messageIdOf command data1 data2 = Some M -> M <> "".
Proof.
  unfold messageIdOf.
  destruct (Z.eqb (Z.land command 240) 144 || Z.eqb (Z.land command 240) 128).
  - destruct (Z.eqb (Z.land command 240) 144 && Z.ltb 0 data2);
      intros [= <-]; discriminate.
  - destruct (Z.eqb (Z.land command 240) 176); [| discriminate].
    intros [= <-]. discriminate.
Qed.

Lemma learning_truthy (st : State) (control : string) :
  learning st = Some control -> Js.truthy_str control = true.
Proof.
  unfold learning. destruct (isMidiLearning st) as [c |]; [| discriminate].
  destruct (Js.truthy_str c) eqn:E; [| discriminate]. now intros [= <-].
Qed.

Lemma learning_of (c : string) (fwd : MidiMapping) (rev : ReverseMapping) :
  c <> "" -> learning (mkState fwd rev (Some c)) = Some c.
Proof.
  intros H. unfold learning. cbn [isMidiLearning].
  now rewrite (proj2 (truthy_str_spec c) H).
Qed.

(** A message received in learn mode: the mapping is updated, learn mode
    ends, and the effect runs. *)
Lemma step_learns (storage : SetItem) (command data1 data2 : Z)
  (st : State) (M control : string) :
  messageIdOf command data1 data2 = Some M ->
  learning st = Some control ->
  step storage command data1 data2 st
  = syncReverse storage
      (mkState (learn M control (midiMapping st)) (reverseMidiMapping st) None).
Proof.
  intros HM HL. unfold step, handleMidiMessage. now rewrite HM, HL.
Qed.

(** Whenever the save succeeds, the stored index is the rebuilt one. *)
Lemma step_stored_consistent (command data1 data2 : Z) (st : State) :
  reverseMidiMapping st = rebuild (midiMapping st) ->
  reverseMidiMapping (step Stored command data1 data2 st)
  = rebuild (midiMapping (step Stored command data1 data2 st)).
Proof.
  intros H. unfold step, handleMidiMessage.
  destruct (messageIdOf command data1 data2) as [M |]; [| exact H].
  destruct (learning st) as [c |]; [reflexivity |].
  destruct (Obj.get M (reverseMidiMapping st)) as [t |]; [| exact H].
  destruct (Js.truthy_str t); exact H.
Qed.

Lemma syncReverse_idempotent (storage : SetItem) (st : State) :
  syncReverse storage (syncReverse storage st) = syncReverse storage st.
Proof. destruct storage; reflexivity. Qed.

(** C5. The forward map does what the claim says: learning control X to
    message M and then control Y (another control) to the same M leaves X
    unmapped and Y mapped to M, the only control mapped to M, whether the
    mapping can be saved or not.  The index rebuilt from a forward map holds
    no stale entry, and when the save succeeds the stored index is the
    rebuilt one and sends M to Y.  When [localStorage.setItem] throws at
    the second learn, the effect skips the rebuild: the stored index is
    still the one from before, it sends M to X, which the forward map no
    longer binds, and the next message M drives X. *)
Theorem midi_reverse_index_stale_when_save_throws
  (X Y M : string) (command data1 data2 : Z) :
  X <> Y -> X <> "" -> Y <> "" ->
  messageIdOf command data1 data2 = Some M ->
  let st0 := mkState [] [] (Some X) in
  let st1 := step Stored command data1 data2 st0 in
  let saved := step Stored command data1 data2 (startLearning Y st1) in
  let st2 := step Throws command data1 data2 (startLearning Y st1) in
  (midiMapping st2 = midiMapping saved
   /\ Obj.get X (midiMapping st2) = None
   /\ Obj.get Y (midiMapping st2) = Some (Some M)
   /\ (forall c, Obj.get c (midiMapping st2) = Some (Some M) -> c = Y))
  /\ (forall (any : MidiMapping) m c,
        Obj.get m (rebuild any) = Some c -> Obj.get c any = Some (Some m))
  /\ (reverseMidiMapping saved = rebuild (midiMapping saved)
      /\ Obj.get M (reverseMidiMapping saved) = Some Y)
  /\ (reverseMidiMapping st2 = reverseMidiMapping st1
      /\ Obj.get M (reverseMidiMapping st2) = Some X
      /\ reverseMidiMapping st2 <> rebuild (midiMapping st2)
      /\ handleMidiMessage command data1 data2 st2 = (st2, Some (X, data2))).
Proof.
  intros Hxy HX HY HM. cbv zeta.
  pose proof (messageIdOf_truthy _ _ _ _ HM) as HMne.
  assert (E1 : step Stored command data1 data2 (mkState [] [] (Some X))
               = mkState [(X, Some M)] [(M, X)] None).
  { rewrite (step_learns Stored _ _ _ _ M X HM (learning_of X [] [] HX)).
    unfold syncReverse, rebuild, index_loop, learn.
    cbn [midiMapping isMidiLearning Obj.keys map fst clear_loop fold_left
         Obj.set Obj.get].
    rewrite String.eqb_refl, (proj2 (truthy_str_spec M) HMne).
    reflexivity. }
  rewrite E1. unfold startLearning.
  cbn [midiMapping reverseMidiMapping isMidiLearning].
  set (fwd2 := learn M Y [(X, Some M)]).
  assert (E2 : forall storage,
             step storage command data1 data2
               (mkState [(X, Some M)] [(M, X)] (Some Y))
             = syncReverse storage (mkState fwd2 [(M, X)] None)).
  { intros storage.
    now rewrite (step_learns storage _ _ _ _ M Y HM (learning_of Y _ _ HY)). }
  rewrite !E2. cbn [syncReverse midiMapping reverseMidiMapping isMidiLearning].
  assert (HY2 : Obj.get Y fwd2 = Some (Some M)).
  { unfold fwd2. now rewrite learn_get, String.eqb_refl. }
  assert (HX2 : Obj.get X fwd2 = None).
  { unfold fwd2. rewrite learn_get.
    destruct (String.eqb_spec X Y); [contradiction |].
    unfold holds. cbn [Obj.get]. now rewrite !String.eqb_refl. }
  assert (Huniq : forall c, Obj.get c fwd2 = Some (Some M) -> c = Y).
  { intros c. apply learn_unique. }
  assert (HrevY : Obj.get M (rebuild fwd2) = Some Y).
  { destruct (rebuild_complete fwd2 Y M HY2 HMne) as (c' & Hrev & Hfwd).
    now rewrite Hrev, (Huniq c' Hfwd). }
  assert (HrevX : Obj.get M [(M, X)] = Some X).
  { cbn [Obj.get]. now rewrite String.eqb_refl. }
  split; [repeat split; assumption |].
  split; [intros any m c; apply rebuild_no_stale |].
  split; [split; [reflexivity | exact HrevY] |].
  split; [reflexivity |]. split; [exact HrevX |]. split.
  - intros E.
    assert (F : Obj.get M (rebuild fwd2) = Some X)
      by (rewrite <- E; exact HrevX).
    rewrite HrevY in F. congruence.
  - unfold handleMidiMessage, learning. rewrite HM.
    cbn [isMidiLearning reverseMidiMapping Obj.get]. rewrite String.eqb_refl.
    now rewrite (proj2 (truthy_str_spec X) HX).
Qed.

Lemma midi_reverse_index_stale_when_save_throws_witness :
  let st1 := step Stored 144 60 100 (mkState [] [] (Some "deckA_play")) in
  let st2 := step Throws 144 60 100 (startLearning "deckB_play" st1) in
  Obj.get "deckA_play" (midiMapping st2) = None
  /\ Obj.get "note_on_1_60" (reverseMidiMapping st2) = Some "deckA_play"
  /\ handleMidiMessage 144 60 100 st2 = (st2, Some ("deckA_play", 100%Z)).
Proof.
  destruct (midi_reverse_index_stale_when_save_throws
              "deckA_play" "deckB_play" "note_on_1_60" 144 60 100)
    as ((_ & HX & _) & _ & _ & (_ & Hrev & _ & Hrun));
    try discriminate; try reflexivity.
  split; [exact HX |]. split; [exact Hrev | exact Hrun].
Defined.

(** The same two learns with the save succeeding both times. *)
Example midi_learn_twice_with_storage :
  step Stored 144 60 100
    (startLearning "deckB_play"
       (step Stored 144 60 100 (mkState [] [] (Some "deckA_play"))))
  = mkState [("deckB_play", Some "note_on_1_60")]
            [("note_on_1_60", "deckB_play")] None.
Proof. reflexivity. Qed.

Example learn_two_controls_same_message :
  rebuild (learn "cc_1_7" "deckB_volume"
             (learn "cc_1_7" "deckA_volume" [("crossfader", Some "cc_1_8")]))
  = [("cc_1_8", "crossfader"); ("cc_1_7", "deckB_volume")].
Proof. reflexivity. Qed.

Example messageIdOf_note_on : messageIdOf 144 60 100 = Some "note_on_1_60".
Proof. reflexivity. Qed.

Example messageIdOf_note_on_zero_velocity :
  messageIdOf 145 60 0 = Some "note_off_2_60".
Proof. reflexivity. Qed.

Example messageIdOf_cc : messageIdOf 178 7 64 = Some "cc_3_7".
Proof. reflexivity. Qed.

End MidiFacts.

Section DeckFacts.

Import Deck.
Local Open Scope Q_scope.

Lemma num_ge_iff (x y : Q) : Js.num_ge x y = true <-> y <= x.
Proof. unfold Js.num_ge. apply Qle_bool_iff. Qed.

Lemma truthy_num_iff (x : Q) : Js.truthy_num x = true <-> ~ x == 0.
Proof.
  unfold Js.truthy_num. rewrite negb_true_iff. split.
  - intros H. now apply Qeq_bool_neq.
  - intros H. destruct (Qeq_bool x 0) eqn:E; [| reflexivity].
    apply Qeq_bool_iff in E. contradiction.
Qed.

(** The remainder of a non-negative dividend by a positive divisor. *)
Lemma rem_range (a b : Q) :
  0 <= a -> 0 < b ->
  exists r, Js.rem a b = Some r /\ 0 <= r /\ r < b
            /\ exists n : Z, (0 <= n)%Z /\ a == b * inject_Z n + r.
Proof.
  intros Ha Hb. unfold Js.rem.
  assert (Qeq_bool b 0 = false) as ->.
  { destruct (Qeq_bool b 0) eqn:E; [| reflexivity].
    apply Qeq_bool_iff in E. lra. }
  assert (Hq : 0 <= a / b).
  { apply Qle_shift_div_l; [exact Hb | lra]. }
  unfold Js.trunc.
  assert (Qle_bool 0 (a / b) = true) as -> by now apply Qle_bool_iff.
  set (n := Qfloor (a / b)).
  pose proof (Qfloor_le (a / b)) as Hlo.
  pose proof (Qlt_floor (a / b)) as Hhi. fold n in Hlo, Hhi.
  assert (Hab : a == b * (a / b)) by (field; lra).
  rewrite inject_Z_plus in Hhi. change (inject_Z 1) with 1 in Hhi.
  eexists. split; [reflexivity |].
  repeat split.
  - nra.
  - nra.
  - exists n. split; [| ring].
    change 0%Z with (Qfloor 0). now apply Qfloor_resp_le.
Qed.

(** *** The transport clock and the loop window *)

Lemma loopToWrap_active (newTime loopStart loopEnd : Q) (d : DeckState) :
  loop d = mkLoop (Some loopStart) (Some loopEnd) true ->
  loopEnd <= newTime ->
  loopToWrap newTime d = Some (loopStart, loopEnd).
Proof.
  intros Hloop Hend. unfold loopToWrap. rewrite Hloop. simpl.
  apply num_ge_iff in Hend. now rewrite Hend.
Qed.

(** The first render's [seekDeck] returns at its guard, whatever it is
    asked. *)
Lemma seekDeck_of_first_render (audioReady : bool) (newTime : option Q) :
  seekDeck initialDeckState audioReady newTime = None.
Proof. reflexivity. Qed.

(** With the deck state of the current render, the same frame asks for a
    seek into the loop window. *)
Lemma processDeck_wraps_with_current_state
  (audioReady : bool) (now : Q) (d : DeckState) (loopStart loopEnd : Q) :
  isPlaying d = true ->
  Js.truthy_onum (lastUpdateTime d) = true ->
  song d <> None ->
  loop d = mkLoop (Some loopStart) (Some loopEnd) true ->
  0 <= loopStart -> loopStart < loopEnd -> loopEnd <= duration d ->
  loopEnd <= advanced now d ->
  exists r t over,
    snd (processDeck (seekDeck d audioReady) now d) = Some r
    /\ seek_time r = Some t
    /\ Js.rem (advanced now d - loopEnd) (loopEnd - loopStart) = Some over
    /\ t == loopStart + over
    /\ loopStart <= t /\ t < loopEnd
    /\ seek_restart r = audioReady.
Proof.
  intros Hplay Hlast Hsong Hloop H0 Hlt Hdur Hend.
  destruct (rem_range (advanced now d - loopEnd) (loopEnd - loopStart))
    as (over & Hrem & Hlo & Hhi & _); [lra | lra |].
  unfold processDeck. rewrite Hplay, Hlast. cbn [negb orb].
  rewrite (loopToWrap_active _ loopStart loopEnd d Hloop Hend). cbn [snd].
  unfold wrapped. rewrite Hrem. cbn [option_map].
  unfold seekDeck. destruct (song d) as [sg |]; [| congruence].
  assert (Js.truthy_num (duration d) = true) as ->.
  { apply truthy_num_iff. lra. }
  cbn [negb option_map]. rewrite Hplay. cbn [andb].
  eexists. exists (clamp 0 (loopStart + over) (duration d)), over.
  split; [reflexivity |].
  assert (Hclamp : clamp 0 (loopStart + over) (duration d) == loopStart + over).
  { unfold clamp. rewrite Q.min_l by lra. apply Q.max_r. lra. }
  repeat split; try reflexivity; rewrite ?Hclamp; try lra.
Qed.

(** C4. When a playing deck with an active loop reaches the loop end, the
    frame of the transport clock that runs in the application computes the
    wrapped position and calls [seekDeck], but that [seekDeck] belongs to
    the first render and returns at its guard: no seek is requested, the
    returned state keeps the old position and only the platter angle and the
    time stamp change.  In the example session the loop is [10 s, 14 s], the
    frame advances the playhead to 15 s, nothing is sought and the position
    stays at 14 s (the wrap to 11 s is what the frame would ask for with the
    deck state of the current render, see the example below). *)
Theorem transport_clock_loop_wrap_never_seeks
  (audioReady : bool) (now : Q) (d : DeckState) (loopStart loopEnd : Q) :
  isPlaying d = true ->
  Js.truthy_onum (lastUpdateTime d) = true ->
  loop d = mkLoop (Some loopStart) (Some loopEnd) true ->
  loopEnd <= advanced now d ->
  updateLoop audioReady now d
  = (with_lastUpdateTime (Some now) (with_platterAngle (spin d) d), None)
  /\ (forall d', frame audioReady now d = Some d' ->
                 currentTime d' = currentTime d)
  /\ (loop_active (loop Scenario.looping) = true
      /\ option_map Qred (loop_start (loop Scenario.looping)) = Some 10
      /\ option_map Qred (loop_end (loop Scenario.looping)) = Some 14
      /\ advanced 16000 Scenario.looping == 15
      /\ snd (updateLoop true 16000 Scenario.looping) = None
      /\ currentTime (Scenario.after 16000 Scenario.looping) == 14).
Proof.
  intros Hplay Hlast Hloop Hend.
  assert (Hupd : updateLoop audioReady now d
                 = (with_lastUpdateTime (Some now)
                      (with_platterAngle (spin d) d), None)).
  { unfold updateLoop, processDeck. rewrite Hplay, Hlast. cbn [negb orb].
    rewrite (loopToWrap_active _ loopStart loopEnd d Hloop Hend).
    now rewrite seekDeck_of_first_render. }
  split; [exact Hupd |]. split.
  - intros d'. unfold frame. rewrite Hupd. now intros [= <-].
  - split; [vm_compute; reflexivity |].
    split; [vm_compute; reflexivity |].
    split; [vm_compute; reflexivity |].
    split; [vm_compute; reflexivity |].
    split; vm_compute; reflexivity.
Qed.

Lemma transport_clock_loop_wrap_never_seeks_witness :
  isPlaying Scenario.looping = true
  /\ snd (updateLoop true 16000 Scenario.looping) = None.
Proof.
  assert (H := transport_clock_loop_wrap_never_seeks true 16000
                 Scenario.looping (10000 # 1000) (14000000 # 1000000)).
  split; [reflexivity |].
  rewrite (proj1 (H eq_refl eq_refl eq_refl
                    ltac:(vm_compute; discriminate))).
  reflexivity.
Defined.

Example loop_10_14_wraps_15_to_11_with_current_state :
  match snd (processDeck (seekDeck Scenario.looping true) 16000
               Scenario.looping) with
  | Some r => option_map Qred (seek_time r) = Some 11 /\ seek_restart r = true
  | None => False
  end.
Proof. vm_compute. split; reflexivity. Qed.

(** *** Loop regions *)

Lemma num_gt_lt (x y : Q) : Js.num_gt x y = true <-> y < x.
Proof.
  unfold Js.num_gt. rewrite negb_true_iff.
  split; intros H.
  - apply Qnot_le_lt. intros Hle. apply Qle_bool_iff in Hle. congruence.
  - destruct (Qle_bool x y) eqn:E; [| reflexivity].
    apply Qle_bool_iff in E. lra.
Qed.

Lemma loop_with_loop (l : Loop) (d : DeckState) : loop (with_loop l d) = l.
Proof. reflexivity. Qed.

(** Capturing the loop end keeps the invariant: the handler tests that the
    playhead is past the loop start. *)
Lemma loop_out_keeps_invariant (deckState d : DeckState) :
  loop_invariant (loop d) ->
  loop_invariant (loop (handleSetLoop deckState LoopOut d)).
Proof.
  intros Hd. simpl.
  destruct (loop_start (loop deckState)) as [s |] eqn:Hs; [| exact Hd].
  destruct (Js.num_gt (currentTime deckState) s) eqn:Hgt; [| exact Hd].
  apply num_gt_lt in Hgt. intros _.
  exists s, (currentTime deckState). simpl. auto.
Qed.

Lemma loop_in_keeps_invariant (deckState d : DeckState) :
  loop_invariant (loop (handleSetLoop deckState LoopIn d)).
Proof. simpl. intros H. discriminate. Qed.

Lemma loop_exit_keeps_invariant (deckState d : DeckState) :
  loop_invariant (loop (handleSetLoop deckState LoopExit d)).
Proof. simpl. intros H. discriminate. Qed.

(** Re-activating a stored loop keeps the invariant when the stored bounds
    are ordered. *)
Lemma reloop_keeps_invariant (deckState d : DeckState) :
  loop_ordered (loop deckState) ->
  loop_invariant (loop d) ->
  loop_invariant (loop (handleSetLoop deckState Reloop d)).
Proof.
  intros Hord Hd. simpl.
  destruct (loop_start (loop deckState)) as [s |] eqn:Hs; [| exact Hd].
  destruct (loop_end (loop deckState)) as [e |] eqn:He; [| exact Hd].
  intros _. exists s, e. simpl. auto.
Qed.

(** A beat-count loop keeps the invariant while the playhead is before the
    end of the track. *)
Lemma auto_loop_keeps_invariant_before_end
  (deckState d : DeckState) (beats deckBpm : Q) :
  bpm deckState = Some deckBpm -> 0 < deckBpm -> 0 < beats ->
  currentTime deckState < duration deckState ->
  loop_invariant (loop (handleSetLoop deckState (AutoLoop beats) d)).
Proof.
  intros Hbpm Hpos Hbeats Hbefore. simpl. rewrite Hbpm.
  assert (Js.truthy_num deckBpm = true) as -> by (apply truthy_num_iff; lra).
  intros _. eexists. eexists. simpl. repeat split.
  assert (0 < beats * (60 / deckBpm)).
  { apply Qmult_lt_0_compat; [exact Hbeats |].
    apply Qlt_shift_div_l; lra. }
  apply Q.min_glb_lt; lra.
Qed.

(** At the end of the track the clamp [Math.min(start + loopDuration,
    duration)] makes both bounds equal. *)
Lemma auto_loop_at_end_is_empty
  (deckState d : DeckState) (beats deckBpm : Q) :
  bpm deckState = Some deckBpm -> 0 < deckBpm -> 0 < beats ->
  currentTime deckState == duration deckState ->
  ~ loop_invariant (loop (handleSetLoop deckState (AutoLoop beats) d)).
Proof.
  intros Hbpm Hpos Hbeats Hend. simpl. rewrite Hbpm.
  assert (Js.truthy_num deckBpm = true) as -> by (apply truthy_num_iff; lra).
  intros Hinv. destruct (Hinv eq_refl) as (s & e & Hs & He & Hlt).
  simpl in Hs, He. injection Hs as <-. injection He as <-.
  assert (0 < beats * (60 / deckBpm)).
  { apply Qmult_lt_0_compat; [exact Hbeats |].
    apply Qlt_shift_div_l; lra. }
  pose proof (Q.le_min_r (currentTime deckState + beats * (60 / deckBpm))
                (duration deckState)).
  lra.
Qed.

(** C6. The deck of the example session has played its track to the end
    (the clock stopped it with the playhead on the full duration).  A
    beat-count auto-loop there, and likewise the Loop Out pre-roll, stores
    an active loop whose end equals its start: the loop invariant is
    broken.  The loop-out capture on the same deck state keeps it. *)
Theorem auto_loop_at_track_end_breaks_loop_invariant :
  isPlaying Scenario.ended = false
  /\ currentTime Scenario.ended == duration Scenario.ended
  /\ loop_invariant (loop Scenario.ended)
  /\ loop (handleSetLoop Scenario.ended (AutoLoop 4) Scenario.ended)
     = mkLoop (Some 200) (Some 200) true
  /\ ~ loop_invariant
         (loop (handleSetLoop Scenario.ended (AutoLoop 4) Scenario.ended))
  /\ ~ loop_invariant (loop (loopOutPreroll Scenario.ended Scenario.ended))
  /\ loop_invariant
       (loop (handleSetLoop Scenario.ended LoopOut Scenario.ended)).
Proof.
  assert (Hbroken : ~ loop_invariant (mkLoop (Some 200) (Some 200) true)).
  { intros H. destruct (H eq_refl) as (s & e & [= <-] & [= <-] & Hlt).
    lra. }
  assert (Hauto : loop (handleSetLoop Scenario.ended (AutoLoop 4)
                          Scenario.ended)
                  = mkLoop (Some 200) (Some 200) true)
    by (vm_compute; reflexivity).
  assert (Hpre : loop (loopOutPreroll Scenario.ended Scenario.ended)
                 = mkLoop (Some 200) (Some 200) true)
    by (vm_compute; reflexivity).
  split; [vm_compute; reflexivity |].
  split; [vm_compute; reflexivity |].
  split; [intros H; discriminate |].
  split; [exact Hauto |].
  split; [rewrite Hauto; exact Hbroken |].
  split; [rewrite Hpre; exact Hbroken |].
  apply loop_out_keeps_invariant. intros H. discriminate.
Qed.

(** *** Loading a track *)

(** C10. Loading a track keeps the deck's fader volume, its key-lock flag
    and its scratch-mode flag, and sets the preamp gain knob to 50 and the
    playback rate to 1 whatever they were before. *)
Theorem loadSong_keeps_fader_and_toggles_resets_gain_and_rate
  (a : Analysis) (d : DeckState) :
  let d' := loadSong (Some a) d in
  volume d' = volume d
  /\ keyLock d' = keyLock d
  /\ scratchModeEnabled d' = scratchModeEnabled d
  /\ gain d' = 50
  /\ playbackRate d' = 1.
Proof. repeat split. Qed.

Example loadSong_resets_a_turned_gain_knob :
  gain (loadSong (Some Scenario.track)
          (with_volume (1 # 2) (with_playbackRate (11 # 10)
             (mkDeck None false 80 1 1 0 0 0 [] None noLoop None None 1 0
                None None true true false))))
  = 50.
Proof. reflexivity. Qed.

Example loadSong_failure_leaves_deck (d : DeckState) : loadSong None d = d.
Proof. reflexivity. Qed.

(** The value the promise resolves to carries the default volume, not the
    deck's. *)
Example loadSong_resolved_has_default_volume (a : Analysis) (deck : DeckState) :
  volume (loadSong_resolved a deck) = 3 # 4.
Proof. reflexivity. Qed.

End DeckFacts.

Section AutoDjFacts.

Import Deck AutoDj.
Local Open Scope Q_scope.
Local Open Scope string_scope.

(** *** The tiered pool *)

Lemma isEmpty_false {A : Type} (xs : list A) : isEmpty xs = false <-> xs <> [].
Proof. destruct xs; simpl; split; congruence. Qed.

Lemma isEmpty_true {A : Type} (xs : list A) : isEmpty xs = true <-> xs = [].
Proof. destruct xs; simpl; split; congruence. Qed.

Lemma tier4_nonempty (lib : list Song) (avoidTrackId : option Q) :
  lib <> [] -> tier4 lib avoidTrackId <> [].
Proof.
  intros Hlib. unfold tier4.
  destruct (filter _ lib); [exact Hlib | discriminate].
Qed.

Lemma tier4_incl (lib : list Song) (avoidTrackId : option Q) :
  incl (tier4 lib avoidTrackId) lib.
Proof.
  unfold tier4.
  destruct (filter _ lib) eqn:E; [apply incl_refl |].
  rewrite <- E. apply incl_filter.
Qed.

Lemma selectionPool_nonempty
  (lib history : list Song) (currentSongId avoidTrackId : option Q) :
  lib <> [] -> selectionPool lib history currentSongId avoidTrackId <> [].
Proof.
  intros Hlib. unfold selectionPool.
  match goal with |- (if isEmpty ?p then _ else _) <> [] =>
    destruct (isEmpty p) eqn:E end.
  - now apply tier4_nonempty.
  - now apply isEmpty_false.
Qed.

Lemma selectionPool_incl
  (lib history : list Song) (currentSongId avoidTrackId : option Q) :
  incl (selectionPool lib history currentSongId avoidTrackId) lib.
Proof.
  unfold selectionPool, tier1, tier2, tier3.
  repeat match goal with
         | |- context [if ?b then _ else _] => destruct b
         end;
    auto using incl_filter, tier4_incl.
Qed.

(** *** The criteria filters *)

Lemma narrowed_nonempty (matches pool : list Song) :
  pool <> [] -> narrowed matches pool <> [].
Proof.
  intros Hpool. unfold narrowed.
  destruct matches; simpl; [exact Hpool | discriminate].
Qed.

Lemma narrowed_filter_incl (f : Song -> bool) (pool : list Song) :
  incl (narrowed (filter f pool) pool) pool.
Proof.
  unfold narrowed.
  destruct (Nat.ltb 0 (length (filter f pool)));
    [apply incl_filter | apply incl_refl].
Qed.

Lemma narrowed_as_step (f : Song -> bool) (pool : list Song) :
  narrowed (filter f pool) pool = softStep pool (mkCriterion true f).
Proof.
  unfold narrowed, softStep. simpl. now destruct (filter f pool).
Qed.

Lemma softStep_skipped (pool : list Song) (f : Song -> bool) :
  softStep pool (mkCriterion false f) = pool.
Proof. reflexivity. Qed.

Lemma softStep_nonempty (pool : list Song) (c : Criterion) :
  pool <> [] -> softStep pool c <> [].
Proof.
  intros Hpool. unfold softStep.
  destruct (applies c); [| exact Hpool].
  destruct (filter (keeps c) pool); [exact Hpool | discriminate].
Qed.

Lemma softStep_incl (pool : list Song) (c : Criterion) :
  incl (softStep pool c) pool.
Proof.
  unfold softStep.
  destruct (applies c); [| apply incl_refl].
  destruct (filter (keeps c) pool) eqn:E; [apply incl_refl |].
  rewrite <- E. apply incl_filter.
Qed.

Lemma softFilter_nonempty (cs : list Criterion) (pool : list Song) :
  pool <> [] -> softFilter cs pool <> [].
Proof.
  unfold softFilter. revert pool.
  induction cs as [| c cs IH]; intros pool Hpool; simpl; [exact Hpool |].
  apply IH. now apply softStep_nonempty.
Qed.

Lemma softFilter_incl (cs : list Criterion) (pool : list Song) :
  incl (softFilter cs pool) pool.
Proof.
  unfold softFilter. revert pool.
  induction cs as [| c cs IH]; intros pool; simpl; [apply incl_refl |].
  eapply incl_tran; [apply IH | apply softStep_incl].
Qed.

Lemma afterEnergy_as_step settings current pool :
  afterEnergy settings current pool
  = softStep pool (energyCriterion settings current).
Proof.
  unfold afterEnergy, energyCriterion.
  destruct current as [cur |]; [| reflexivity].
  destruct (song_energy cur) as [e |]; [| reflexivity].
  destruct (negb (isAny (energyFlow settings)) && Js.truthy_num e); [apply narrowed_as_step | reflexivity].
Qed.

Lemma afterArtist_as_step settings current pool :
  afterArtist settings current pool
  = softStep pool (artistCriterion settings current).
Proof.
  unfold afterArtist, artistCriterion.
  destruct current as [cur |]; [| reflexivity].
  destruct (getArtistFromName (song_name cur)) as [a |].
  - destruct (avoidRepeatingArtist settings && Js.truthy_str (song_name cur));
      [| reflexivity].
    destruct (Js.truthy_str a); [apply narrowed_as_step | reflexivity].
  - now destruct (avoidRepeatingArtist settings
                  && Js.truthy_str (song_name cur)).
Qed.

Lemma afterBpm_as_step settings current pool :
  afterBpm settings current pool = softStep pool (bpmCriterion settings current).
Proof.
  unfold afterBpm, bpmCriterion.
  destruct current as [cur |]; [| reflexivity].
  destruct (song_bpm cur) as [b |]; [| reflexivity].
  destruct (enabled (bpmMatch settings) && Js.truthy_num b); [apply narrowed_as_step | reflexivity].
Qed.

Lemma afterGenre_as_step settings current pool :
  afterGenre settings current pool
  = softStep pool (genreCriterion settings current).
Proof.
  unfold afterGenre, genreCriterion.
  destruct current as [cur |]; [| reflexivity].
  destruct (song_genre cur) as [g |]; [| reflexivity].
  destruct (genreMatch settings && Js.truthy_str g); [apply narrowed_as_step | reflexivity].
Qed.

Lemma afterHarmonic_as_step settings current pool :
  afterHarmonic settings current pool
  = softStep pool (harmonicCriterion settings current).
Proof.
  unfold afterHarmonic, harmonicCriterion.
  destruct current as [cur |]; [| reflexivity].
  destruct (song_key cur) as [k |]; [| reflexivity].
  destruct (harmonicMix settings && Js.truthy_str k); [apply narrowed_as_step | reflexivity].
Qed.

Lemma filteredTracks_as_softFilter settings current pool :
  filteredTracks settings current pool
  = softFilter (criteriaInOrder settings current) pool.
Proof.
  unfold filteredTracks, softFilter, criteriaInOrder. cbn [fold_left].
  now rewrite afterEnergy_as_step, afterArtist_as_step, afterBpm_as_step,
    afterGenre_as_step, afterHarmonic_as_step.
Qed.

Lemma filteredTracks_nonempty settings current pool :
  pool <> [] -> filteredTracks settings current pool <> [].
Proof.
  rewrite filteredTracks_as_softFilter. apply softFilter_nonempty.
Qed.

Lemma filteredTracks_incl settings current pool :
  incl (filteredTracks settings current pool) pool.
Proof.
  rewrite filteredTracks_as_softFilter. apply softFilter_incl.
Qed.

(** C2. The criteria block of [getNextTrack] is the five soft criteria
    applied in the order energy flow, artist repeat, BPM window, genre,
    harmonic key.  A criterion replaces the pool by its narrowed set only
    when it applies and that set is not empty; otherwise the pool from
    before it is kept.  So a non-empty pool stays non-empty, and the result
    is drawn from the pool. *)
Theorem criteria_filters_apply_in_order_and_skip_when_empty
  (settings : AutoDjSettings) (current : option Song) (pool : list Song) :
  filteredTracks settings current pool
  = fold_left softStep
      [ energyCriterion settings current;
        artistCriterion settings current;
        bpmCriterion settings current;
        genreCriterion settings current;
        harmonicCriterion settings current ] pool
  /\ (forall (c : Criterion) (p : list Song),
        softStep p c
        = if applies c && negb (isEmpty (filter (keeps c) p))
          then filter (keeps c) p else p)
  /\ (pool <> [] -> filteredTracks settings current pool <> [])
  /\ incl (filteredTracks settings current pool) pool.
Proof.
  split; [apply filteredTracks_as_softFilter |].
  split.
  - intros c p. unfold softStep.
    destruct (applies c); [| reflexivity].
    now destruct (filter (keeps c) p).
  - split; [apply filteredTracks_nonempty | apply filteredTracks_incl].
Qed.

(** *** The final pick *)

Lemma randomIndex_in_range (random : Q) (n : nat) :
  (0 <= random)%Q -> (random < 1)%Q -> (0 < n)%nat ->
  (randomIndex random n < n)%nat.
Proof.
  intros H0 H1 Hn. unfold randomIndex, Js.Math_floor.
  set (x := (random * inject_Z (Z.of_nat n))%Q).
  assert (Hn' : (0 < inject_Z (Z.of_nat n))%Q).
  { change 0%Q with (inject_Z 0). rewrite <- Zlt_Qlt. lia. }
  assert (Hx0 : (0 <= x)%Q) by (unfold x; nra).
  assert (Hx1 : (x < inject_Z (Z.of_nat n))%Q) by (unfold x; nra).
  assert (Hlo : (0 <= Qfloor x)%Z).
  { change 0%Z with (Qfloor 0). now apply Qfloor_resp_le. }
  assert (Hhi : (Qfloor x < Z.of_nat n)%Z).
  { rewrite Zlt_Qlt. pose proof (Qfloor_le x). lra. }
  lia.
Qed.

Lemma findById_in (pool : list Song) (x : Q) (m : Song) :
  findById pool x = Some m -> In m pool.
Proof. unfold findById. intros H. now apply find_some in H. Qed.

Lemma walk_in (lib pool : list Song) (cur i fuel : nat) (m : Song) :
  walk lib pool cur i fuel = Some m -> In m pool.
Proof.
  revert i. induction fuel as [| fuel IH]; intros i; simpl; [discriminate |].
  destruct (nth_error lib _) as [next |]; [| apply IH].
  destruct (findById pool (song_id next)) eqn:E; [| apply IH].
  intros [= <-]. now apply findById_in in E.
Qed.

Lemma sequentialPick_some (lib pool : list Song) (currentSongId : option Q) :
  pool <> [] ->
  exists s, sequentialPick lib pool currentSongId = Some s /\ In s pool.
Proof.
  intros Hpool. unfold sequentialPick.
  destruct (match findIndex lib currentSongId with
            | Some k => walk lib pool k 1 (length lib)
            | None => None end) as [m |] eqn:E.
  - exists m. split; [reflexivity |].
    destruct (findIndex lib currentSongId); [| discriminate].
    now apply walk_in in E.
  - destruct pool as [| p pool]; [contradiction |].
    exists p. simpl. auto.
Qed.

(** C1. For every non-empty library the selection returns a track, never
    null: the first track of the next deck's queue when queues are the
    source and that queue is not empty, a track of the library otherwise.
    [random] is a value [Math.random] can return.  The witness is a
    two-track library with both tracks in the play history. *)
Theorem getNextTrack_returns_a_track
  (st : Session) (random : Q) (avoidTrackId : option Q) :
  library st <> [] -> (0 <= random)%Q -> (random < 1)%Q ->
  exists s,
    getNextTrack st random avoidTrackId = Some s
    /\ (In s (library st) \/ In s (queueA st) \/ In s (queueB st)).
Proof.
  intros Hlib H0 H1. unfold getNextTrack.
  set (fromQueue :=
         match playlistSource (autoDjSettings st) with
         | FromQueues =>
             nth_error (match autoDjActiveDeck st with
                        | DeckA => queueB st | DeckB => queueA st end) 0
         | FromLibrary => None
         end).
  destruct fromQueue as [q |] eqn:Eq.
  - exists q. split; [reflexivity |]. right.
    subst fromQueue.
    destruct (playlistSource (autoDjSettings st)); [discriminate |].
    apply nth_error_In in Eq.
    destruct (autoDjActiveDeck st); auto.
  - apply isEmpty_false in Hlib as Hlib'. rewrite Hlib'.
    set (current := song (activeDeckState st)).
    set (pool := selectionPool (library st) (autoDjHistory st)
                   (option_map song_id current) avoidTrackId).
    assert (Hpool : pool <> []) by now apply selectionPool_nonempty.
    assert (Hincl : incl pool (library st)) by apply selectionPool_incl.
    apply isEmpty_false in Hpool as Hpool'. rewrite Hpool'.
    set (filtered := filteredTracks (autoDjSettings st) current pool).
    set (final := if Nat.ltb 0 (length filtered) then filtered else pool).
    assert (Hfinal : final <> [] /\ incl final pool).
    { unfold final. destruct (Nat.ltb_spec 0 (length filtered)) as [Hlen | _].
      - split; [destruct filtered; simpl in *; [lia | discriminate] |].
        apply filteredTracks_incl.
      - split; [exact Hpool | apply incl_refl]. }
    destruct Hfinal as [Hne Hsub].
    destruct (shuffle (autoDjSettings st)).
    + assert (Hlen : (0 < length final)%nat).
      { destruct final; [contradiction | simpl; lia]. }
      pose proof (randomIndex_in_range random (length final) H0 H1 Hlen) as Hidx.
      destruct (nth_error final (randomIndex random (length final)))
        as [s |] eqn:E.
      * exists s. split; [reflexivity |]. left.
        apply Hincl, Hsub. now apply nth_error_In in E.
      * apply nth_error_None in E. lia.
    + destruct (sequentialPick_some (library st) final
                  (option_map song_id current) Hne) as (s & Hs & Hin).
      exists s. split; [exact Hs |]. left. now apply Hincl, Hsub.
Qed.

Lemma getNextTrack_returns_a_track_witness :
  AutoDj.library Scenario.twoTrackSession <> []
  /\ (forall s, In s (autoDjHistory Scenario.twoTrackSession)
                <-> In s (AutoDj.library Scenario.twoTrackSession))
  /\ exists s,
       getNextTrack Scenario.twoTrackSession (1 # 2) None = Some s
       /\ (In s (AutoDj.library Scenario.twoTrackSession)
           \/ In s (queueA Scenario.twoTrackSession)
           \/ In s (queueB Scenario.twoTrackSession)).
Proof.
  split; [discriminate |].
  split; [intros s; simpl; tauto |].
  apply (getNextTrack_returns_a_track Scenario.twoTrackSession (1 # 2) None);
    [discriminate | lra | lra].
Defined.

Lemma criteria_filters_apply_in_order_and_skip_when_empty_witness :
  [Scenario.trackTwo; Scenario.trackThree] <> []
  /\ filteredTracks initialSettings (Some Scenario.trackOne)
       [Scenario.trackTwo; Scenario.trackThree] <> [].
Proof.
  assert (H : [Scenario.trackTwo; Scenario.trackThree] <> []) by discriminate.
  split; [exact H |].
  exact (proj1 (proj2 (proj2
    (criteria_filters_apply_in_order_and_skip_when_empty initialSettings
       (Some Scenario.trackOne) [Scenario.trackTwo; Scenario.trackThree]))) H).
Defined.

(** The two-track library: tier 1 and tier 2 are empty, tier 3 gives the
    other track; when that one is to be avoided too, tier 4 gives the
    library minus the avoided track. *)
Example two_track_library_tiers :
  let lib := AutoDj.library Scenario.twoTrackSession in
  let history := autoDjHistory Scenario.twoTrackSession in
  tier1 lib history (Some 1) None = []
  /\ tier2 lib history (Some 1) None = []
  /\ selectionPool lib history (Some 1) None = [Scenario.trackTwo]
  /\ selectionPool lib history (Some 1) (Some 2) = [Scenario.trackOne]
  /\ getNextTrack Scenario.twoTrackSession (1 # 2) None
     = Some Scenario.trackTwo.
Proof. vm_compute. repeat split. Qed.

(** A filter that would empty the pool is skipped: no track is within the
    BPM window of the current one, the pool is kept and the genre filter
    then narrows it. *)
Example bpm_filter_skipped_then_genre_narrows :
  let settings :=
    mkSettings Smart 8 12 FromLibrary false false true (mkBpmMatch true 5)
               false true true Any in
  afterBpm settings (Some Scenario.trackOne)
    [Scenario.trackTwo; Scenario.trackThree]
  = [Scenario.trackTwo; Scenario.trackThree]
  /\ filteredTracks settings (Some Scenario.trackOne)
       [Scenario.trackTwo; Scenario.trackThree]
     = [Scenario.trackThree].
Proof. vm_compute. split; reflexivity. Qed.

(** The order of the criteria matters: BPM window before genre keeps
    another track than genre before BPM window would. *)
Example criteria_order_matters :
  let settings :=
    mkSettings Smart 8 12 FromLibrary false false true (mkBpmMatch true 5)
               false true true Any in
  let current := Some Scenario.trackOne in
  let pool := [Scenario.trackThree; Scenario.trackFour] in
  filteredTracks settings current pool = [Scenario.trackFour]
  /\ softFilter [genreCriterion settings current; bpmCriterion settings current]
       pool = [Scenario.trackThree].
Proof. vm_compute. split; reflexivity. Qed.

Example getArtistFromName_examples :
  getArtistFromName "Daft Punk - One More Time.mp3" = Some "Daft Punk"
  /\ getArtistFromName "Daft Punk  -  Around - the World.mp3" = Some "Daft Punk"
  /\ getArtistFromName "NoDash.mp3" = None
  /\ getArtistFromName "A - " = None
  /\ getArtistFromName " - x" = Some "".
Proof. vm_compute. repeat split. Qed.

End AutoDjFacts.

Section BeatStoreFacts.

Import BeatStore.
Local Open Scope string_scope.

Lemma loadBeatsFromDB_first_run :
  loadBeatsFromDB (getAll (Some [])) = emptyBeats.
Proof. reflexivity. Qed.

Lemma emptyBeats_wellFormed : wellFormed emptyBeats.
Proof. exists emptyPads, emptyPads, emptyPads. repeat split. Qed.

(** *** Arrays *)

Lemma array_set_length {A : Type} (i : nat) (v : A) (xs : list (option A)) :
  (i < length xs)%nat -> length (array_set i v xs) = length xs.
Proof.
  revert xs. induction i as [| i IH]; intros [| x xs] H; simpl in *;
    try lia.
  f_equal. apply IH. lia.
Qed.

Lemma array_set_nth {A : Type} (i k : nat) (v : A) (xs : list (option A)) :
  (i < length xs)%nat ->
  nth k (array_set i v xs) None = if Nat.eqb k i then Some v else nth k xs None.
Proof.
  revert k xs. induction i as [| i IH]; intros k [| x xs] H; simpl in *;
    try lia.
  - destruct k; reflexivity.
  - destruct k; [reflexivity |]. simpl. apply IH. lia.
Qed.

(** *** The store *)

Lemma add_permutation (it : Item) (s s' : Store) :
  add it s = Some s' -> Permutation (it :: s) s'.
Proof.
  revert s'. induction s as [| x s IH]; intros s'; simpl.
  - intros [= <-]. apply Permutation_refl.
  - destruct (String.compare (item_id it) (item_id x)).
    + discriminate.
    + intros [= <-]. apply Permutation_refl.
    + destruct (add it s) as [r |]; [| discriminate].
      intros [= <-]. simpl.
      eapply perm_trans; [apply perm_swap |]. apply perm_skip. now apply IH.
Qed.

Lemma add_fresh (it : Item) (s : Store) :
  ~ In (item_id it) (map item_id s) -> exists s', add it s = Some s'.
Proof.
  induction s as [| x s IH]; simpl; intros Hnew.
  - eauto.
  - destruct (String.compare (item_id it) (item_id x)) eqn:E.
    + apply String.compare_eq_iff in E. intuition congruence.
    + eauto.
    + destruct IH as [r ->]; [tauto |]. simpl. eauto.
Qed.

Lemma addAll_none (items : list Item) :
  fold_left
    (fun acc it => match acc with Some s' => add it s' | None => None end)
    items None = None.
Proof. induction items; simpl; auto. Qed.

Lemma addAll_permutation (items : list Item) (s : Store) :
  NoDup (map item_id (items ++ s)) ->
  exists s', addAll items s = Some s' /\ Permutation (items ++ s) s'.
Proof.
  unfold addAll. revert s.
  induction items as [| it items IH]; intros s Hnd; simpl.
  - exists s. split; [reflexivity | apply Permutation_refl].
  - simpl in Hnd. apply NoDup_cons_iff in Hnd as [Hnew Hnd].
    destruct (add_fresh it s) as [s1 Hs1].
    { intros Hin. apply Hnew. rewrite map_app. apply in_or_app. now right. }
    rewrite Hs1.
    pose proof (add_permutation it s s1 Hs1) as Hp1.
    destruct (IH s1) as (s' & Hs' & Hp').
    { apply (Permutation_NoDup (l := map item_id (it :: items ++ s))).
      - apply Permutation_map.
        eapply perm_trans; [apply Permutation_middle |].
        apply Permutation_app_head. exact Hp1.
      - simpl. apply NoDup_cons; assumption. }
    exists s'. split; [exact Hs' |].
    eapply perm_trans; [| exact Hp'].
    eapply perm_trans; [apply Permutation_middle |].
    apply Permutation_app_head. exact Hp1.
Qed.

Lemma place_cell (B : Beats) (it : Item) :
  wellFormed B -> In (item_category it) categories ->
  (item_index it < 12)%nat ->
  wellFormed (place B it)
  /\ forall c k, cell (place B it) c k
                 = if fills it c k then Some (item_beat it) else cell B c k.
Proof.
  intros (d & t & i & -> & Hd & Ht & Hi) Hcat Hidx.
  destruct it as [iid cat idx b]. cbn [item_category item_index] in *.
  unfold fills, cell.
  cbn [item_category item_index item_beat Obj.get].
  destruct Hcat as [<- | [<- | [<- | []]]].
  - assert (place [("drum", d); ("tuning", t); ("instrumental", i)]
              (mkItem iid "drum" idx b)
            = [("drum", array_set idx b d); ("tuning", t);
               ("instrumental", i)]) as -> by reflexivity.
    split.
    + exists (array_set idx b d), t, i.
      rewrite array_set_length by lia. auto.
    + intros c k. cbn [Obj.get].
      destruct (String.eqb_spec "drum" c) as [<- | Hne]; cbn [andb];
        [| reflexivity].
      rewrite array_set_nth by lia. reflexivity.
  - assert (place [("drum", d); ("tuning", t); ("instrumental", i)]
              (mkItem iid "tuning" idx b)
            = [("drum", d); ("tuning", array_set idx b t);
               ("instrumental", i)]) as -> by reflexivity.
    split.
    + exists d, (array_set idx b t), i.
      rewrite array_set_length by lia. auto.
    + intros c k. cbn [Obj.get].
      destruct (String.eqb_spec "drum" c) as [<- | Hne]; [reflexivity |].
      destruct (String.eqb_spec "tuning" c) as [<- | Hne']; cbn [andb];
        [| reflexivity].
      rewrite array_set_nth by lia. reflexivity.
  - assert (place [("drum", d); ("tuning", t); ("instrumental", i)]
              (mkItem iid "instrumental" idx b)
            = [("drum", d); ("tuning", t);
               ("instrumental", array_set idx b i)]) as -> by reflexivity.
    split.
    + exists d, t, (array_set idx b i).
      rewrite array_set_length by lia. auto.
    + intros c k. cbn [Obj.get].
      destruct (String.eqb_spec "drum" c) as [<- | Hne]; [reflexivity |].
      destruct (String.eqb_spec "tuning" c) as [<- | Hne']; [reflexivity |].
      destruct (String.eqb_spec "instrumental" c) as [<- | Hne''];
        cbn [andb]; [| reflexivity].
      rewrite array_set_nth by lia. reflexivity.
Qed.

Lemma fold_place_cell (rows : list Item) (B : Beats) :
  wellFormed B -> Forall onKit rows ->
  wellFormed (fold_left place rows B)
  /\ forall c k,
       cell (fold_left place rows B) c k
       = fold_left (fun acc it => if fills it c k then Some (item_beat it)
                                  else acc)
           rows (cell B c k).
Proof.
  revert B. induction rows as [| it rows IH]; intros B HB Hrows; simpl.
  - auto.
  - apply Forall_cons_iff in Hrows as [[Hcat Hidx] Hrows].
    destruct (place_cell B it HB Hcat Hidx) as [HB' Hcell].
    destruct (IH (place B it) HB' Hrows) as [Hwf Hfold].
    split; [exact Hwf |].
    intros c k. now rewrite Hfold, Hcell.
Qed.

(** With at most one row per pad, a cell of the loaded kit holds the beat
    of the row for that pad, whatever the order of the rows. *)
Lemma fills_iff (it : Item) (c : string) (k : nat) :
  fills it c k = true <-> keyOf it = (c, k).
Proof.
  unfold fills, keyOf. rewrite andb_true_iff, String.eqb_eq, Nat.eqb_eq.
  split; [intros [-> ->]; reflexivity | intros [= -> ->]; auto].
Qed.

Lemma slot_absent (rows : list Item) (c : string) (k : nat) (init : option Beat) :
  ~ In (c, k) (map keyOf rows) ->
  fold_left (fun acc it => if fills it c k then Some (item_beat it) else acc)
    rows init = init.
Proof.
  revert init. induction rows as [| it rows IH]; intros init Hno; simpl;
    [reflexivity |].
  simpl in Hno.
  destruct (fills it c k) eqn:E.
  - apply fills_iff in E. tauto.
  - apply IH. tauto.
Qed.

Lemma slot_present (rows : list Item) (it : Item) (init : option Beat) :
  onePerPad rows -> In it rows ->
  fold_left (fun acc x => if fills x (item_category it) (item_index it)
                          then Some (item_beat x) else acc)
    rows init = Some (item_beat it).
Proof.
  unfold onePerPad. revert init.
  induction rows as [| x rows IH]; intros init Hnd Hin; simpl; [contradiction |].
  simpl in Hnd. apply NoDup_cons_iff in Hnd as [Hx Hnd].
  destruct Hin as [-> | Hin].
  - assert (fills it (item_category it) (item_index it) = true) as ->
      by now apply fills_iff.
    now apply slot_absent.
  - destruct (fills x (item_category it) (item_index it)) eqn:E.
    + apply fills_iff in E. exfalso. apply Hx. rewrite E.
      now apply (in_map keyOf) in Hin.
    + now apply IH.
Qed.

(** *** The records written by a save *)

Lemma itemsOfPads_in (c : string) (k0 : nat) (pads : Pads) (it : Item) :
  In it (itemsOfPads c k0 pads) <->
  exists j b, nth_error pads j = Some (Some b)
              /\ it = mkItem (idOf c (k0 + j)) c (k0 + j) (storableBeat b).
Proof.
  revert k0. induction pads as [| [b |] pads IH]; intros k0; simpl.
  - split; [contradiction | intros (j & b & H & _); now destruct j].
  - rewrite IH. split.
    + intros [<- | (j & b' & Hj & ->)].
      * exists 0%nat, b. rewrite Nat.add_0_r. auto.
      * exists (S j), b'. rewrite Nat.add_succ_r. auto.
    + intros (j & b' & Hj & ->). destruct j as [| j]; simpl in Hj.
      * injection Hj as <-. left. now rewrite Nat.add_0_r.
      * right. exists j, b'. rewrite Nat.add_succ_r. auto.
  - rewrite IH. split.
    + intros (j & b' & Hj & ->). exists (S j), b'.
      rewrite Nat.add_succ_r. auto.
    + intros (j & b' & Hj & ->). destruct j as [| j]; simpl in Hj;
        [discriminate |].
      exists j, b'. rewrite Nat.add_succ_r. auto.
Qed.

Lemma itemsOfPads_indices (c : string) (k0 : nat) (pads : Pads) :
  NoDup (map item_index (itemsOfPads c k0 pads))
  /\ Forall (fun it => item_category it = c
                       /\ (k0 <= item_index it < k0 + length pads)%nat)
            (itemsOfPads c k0 pads).
Proof.
  revert k0. induction pads as [| [b |] pads IH]; intros k0; simpl.
  - split; constructor.
  - destruct (IH (S k0)) as [Hnd Hall]. split.
    + constructor; [| exact Hnd].
      intros Hin. apply in_map_iff in Hin as (it & Hidx & Hit).
      rewrite Forall_forall in Hall. destruct (Hall it Hit) as [_ Hr]. lia.
    + constructor; [simpl; split; [reflexivity | lia] |].
      eapply Forall_impl; [| exact Hall]. simpl. intros it [Hc Hr].
      split; [exact Hc | lia].
  - destruct (IH (S k0)) as [Hnd Hall]. split; [exact Hnd |].
    eapply Forall_impl; [| exact Hall]. simpl. intros it [Hc Hr].
    split; [exact Hc | lia].
Qed.

Lemma itemsOfPads_keys (c : string) (pads : Pads) :
  NoDup (map keyOf (itemsOfPads c 0 pads)).
Proof.
  destruct (itemsOfPads_indices c 0 pads) as [Hnd _].
  induction (itemsOfPads c 0 pads) as [| it l IH]; simpl; [constructor |].
  simpl in Hnd. apply NoDup_cons_iff in Hnd as [Hnew Hnd].
  constructor; [| now apply IH].
  intros Hin. apply Hnew. apply in_map_iff in Hin as (x & Hx & Hxl).
  apply in_map_iff. exists x. split; [| exact Hxl].
  unfold keyOf in Hx. congruence.
Qed.

Lemma NoDup_app_disjoint {A : Type} (l l' : list A) :
  NoDup l -> NoDup l' -> (forall a, In a l -> ~ In a l') -> NoDup (l ++ l').
Proof.
  intros Hl Hl' Hdis. induction Hl as [| x l Hx Hl IH]; simpl; [exact Hl' |].
  constructor.
  - intros Hin. apply in_app_or in Hin as [Hin | Hin]; [tauto |].
    apply (Hdis x); simpl; auto.
  - apply IH. intros a Ha. apply Hdis. simpl. auto.
Qed.

Lemma itemsOf_wellFormed_keys (beats : Beats) :
  wellFormed beats ->
  NoDup (map keyOf (itemsOf beats)) /\ Forall onKit (itemsOf beats).
Proof.
  intros (d & t & i & -> & Hd & Ht & Hi).
  unfold itemsOf. cbn [flat_map fst snd]. rewrite app_nil_r.
  destruct (itemsOfPads_indices "drum" 0 d) as [_ Fd].
  destruct (itemsOfPads_indices "tuning" 0 t) as [_ Ft].
  destruct (itemsOfPads_indices "instrumental" 0 i) as [_ Fi].
  rewrite Forall_forall in Fd, Ft, Fi.
  split.
  - rewrite !map_app.
    apply NoDup_app_disjoint; [apply itemsOfPads_keys | |].
    + apply NoDup_app_disjoint; try apply itemsOfPads_keys.
      intros a Ha Hb.
      apply in_map_iff in Ha as (x & <- & Hx).
      apply in_map_iff in Hb as (y & Hy & Hyl).
      destruct (Ft x Hx) as [Hcx _]. destruct (Fi y Hyl) as [Hcy _].
      unfold keyOf in Hy. rewrite Hcx, Hcy in Hy. discriminate.
    + intros a Ha Hb.
      apply in_map_iff in Ha as (x & <- & Hx).
      destruct (Fd x Hx) as [Hcx _].
      apply in_app_or in Hb as [Hb | Hb];
        apply in_map_iff in Hb as (y & Hy & Hyl);
        [destruct (Ft y Hyl) as [Hcy _] | destruct (Fi y Hyl) as [Hcy _]];
        unfold keyOf in Hy; rewrite Hcx, Hcy in Hy; discriminate.
  - apply Forall_forall. intros it Hin. unfold onKit, categories.
    apply in_app_or in Hin as [Hin | Hin];
      [| apply in_app_or in Hin as [Hin | Hin]].
    + destruct (Fd it Hin) as [-> Hr]. simpl. split; [auto | lia].
    + destruct (Ft it Hin) as [-> Hr]. simpl. split; [auto | lia].
    + destruct (Fi it Hin) as [-> Hr]. simpl. split; [auto | lia].
Qed.

(** The keys of the object store tell the pads of the kit apart. *)
Lemma idOf_injective_on_kit (p q : string * nat) :
  In p allPads -> In q allPads ->
  idOf (fst p) (snd p) = idOf (fst q) (snd q) -> p = q.
Proof.
  assert (Hall : forallb (fun p => forallb (fun q =>
            implb (String.eqb (idOf (fst p) (snd p)) (idOf (fst q) (snd q)))
                  (String.eqb (fst p) (fst q) && Nat.eqb (snd p) (snd q)))
            allPads) allPads = true) by (vm_compute; reflexivity).
  intros Hp Hq Heq.
  rewrite forallb_forall in Hall. specialize (Hall p Hp).
  rewrite forallb_forall in Hall. specialize (Hall q Hq).
  apply String.eqb_eq in Heq. rewrite Heq in Hall. simpl in Hall.
  apply andb_true_iff in Hall as [H1 H2].
  apply String.eqb_eq in H1. apply Nat.eqb_eq in H2.
  destruct p, q; simpl in *; congruence.
Qed.

Lemma onKit_allPads (it : Item) : onKit it -> In (keyOf it) allPads.
Proof.
  intros [Hc Hi]. unfold allPads, keyOf. apply in_prod; [exact Hc |].
  apply in_seq. lia.
Qed.

Lemma itemsOf_id (beats : Beats) (it : Item) :
  In it (itemsOf beats) -> item_id it = idOf (item_category it) (item_index it).
Proof.
  unfold itemsOf. intros Hin. apply in_flat_map in Hin as ([c pads] & _ & Hin).
  apply itemsOfPads_in in Hin as (j & b & _ & ->). reflexivity.
Qed.

Lemma itemsOf_wellFormed_ids (beats : Beats) :
  wellFormed beats -> NoDup (map item_id (itemsOf beats)).
Proof.
  intros Hwf. destruct (itemsOf_wellFormed_keys beats Hwf) as [Hnd Hon].
  pose proof (itemsOf_id beats) as Hid.
  induction (itemsOf beats) as [| it l IH]; simpl; [constructor |].
  simpl in Hnd. apply NoDup_cons_iff in Hnd as [Hnew Hnd].
  apply Forall_cons_iff in Hon as [Hit Hon].
  constructor.
  - intros Hin. apply Hnew. apply in_map_iff in Hin as (x & Hx & Hxl).
    apply in_map_iff. exists x. split; [| exact Hxl].
    rewrite Forall_forall in Hon.
    rewrite (Hid x), (Hid it) in Hx by (simpl; auto).
    apply (idOf_injective_on_kit (keyOf x) (keyOf it));
      auto using onKit_allPads.
  - apply IH; auto. intros x Hx. apply Hid. simpl. auto.
Qed.

(** *** The round trip *)

Lemma nth_repeat_None {A : Type} (n k : nat) :
  nth k (repeat (@None A) n) None = None.
Proof. revert k. induction n; intros [| k]; simpl; auto. Qed.

Lemma cell_emptyBeats (c : string) (k : nat) : cell emptyBeats c k = None.
Proof.
  unfold cell, emptyBeats. cbn [Obj.get].
  repeat (destruct (String.eqb _ c); [apply nth_repeat_None |]).
  reflexivity.
Qed.

Lemma stripped_wellFormed (beats : Beats) :
  wellFormed beats -> wellFormed (stripped beats).
Proof.
  intros (d & t & i & -> & Hd & Ht & Hi).
  exists (map (option_map storableBeat) d), (map (option_map storableBeat) t),
    (map (option_map storableBeat) i).
  rewrite !length_map. auto.
Qed.

Lemma nth_stripped (pads : Pads) (k : nat) :
  nth k (map (option_map storableBeat) pads) None
  = option_map storableBeat (nth k pads None).
Proof. exact (map_nth (option_map storableBeat) pads None k). Qed.

Lemma cell_stripped (beats : Beats) (c : string) (k : nat) :
  wellFormed beats ->
  cell (stripped beats) c k = option_map storableBeat (cell beats c k).
Proof.
  intros (d & t & i & -> & _). unfold cell, stripped.
  cbn [map fst snd Obj.get].
  repeat (destruct (String.eqb _ c); [apply nth_stripped |]).
  reflexivity.
Qed.

Lemma beats_ext (B B' : Beats) :
  wellFormed B -> wellFormed B' ->
  (forall c k, In c categories -> (k < 12)%nat -> cell B c k = cell B' c k) ->
  B = B'.
Proof.
  intros (d & t & i & -> & Hd & Ht & Hi) (d' & t' & i' & -> & Hd' & Ht' & Hi')
    Hcell.
  assert (Ed : d = d').
  { apply (nth_ext d d' None None); [congruence |]. intros k Hk.
    apply (Hcell "drum" k); [simpl; auto | lia]. }
  assert (Et : t = t').
  { apply (nth_ext t t' None None); [congruence |]. intros k Hk.
    apply (Hcell "tuning" k); [simpl; auto | lia]. }
  assert (Ei : i = i').
  { apply (nth_ext i i' None None); [congruence |]. intros k Hk.
    apply (Hcell "instrumental" k); [simpl; auto | lia]. }
  now subst.
Qed.

Lemma cell_item (beats : Beats) (c : string) (k : nat) (b : Beat) :
  wellFormed beats -> In c categories -> cell beats c k = Some b ->
  In (mkItem (idOf c k) c k (storableBeat b)) (itemsOf beats).
Proof.
  intros (d & t & i & -> & Hd & Ht & Hi) Hc Hcell.
  unfold itemsOf. cbn [flat_map fst snd]. rewrite app_nil_r.
  unfold cell in Hcell.
  assert (Hnth : forall pads : Pads,
             nth k pads None = Some b -> nth_error pads k = Some (Some b)).
  { intros pads H. destruct (nth_error pads k) as [x |] eqn:E.
    - now rewrite (nth_error_nth _ _ _ E) in H; subst.
    - apply nth_error_None in E. rewrite nth_overflow in H by lia.
      discriminate. }
  destruct Hc as [<- | [<- | [<- | []]]]; cbn in Hcell; apply Hnth in Hcell.
  - apply in_or_app. left. apply itemsOfPads_in. exists k, b. auto.
  - apply in_or_app. right. apply in_or_app. left.
    apply itemsOfPads_in. exists k, b. auto.
  - apply in_or_app. right. apply in_or_app. right.
    apply itemsOfPads_in. exists k, b. auto.
Qed.

Lemma item_cell (beats : Beats) (it : Item) :
  wellFormed beats -> In it (itemsOf beats) ->
  exists b, cell beats (item_category it) (item_index it) = Some b
            /\ item_beat it = storableBeat b.
Proof.
  intros (d & t & i & -> & Hd & Ht & Hi) Hin.
  unfold itemsOf in Hin. cbn [flat_map fst snd] in Hin.
  rewrite app_nil_r in Hin.
  apply in_app_or in Hin as [Hin | Hin];
    [| apply in_app_or in Hin as [Hin | Hin]];
    apply itemsOfPads_in in Hin as (j & b & Hj & ->);
    exists b; (split; [| reflexivity]);
    unfold cell; cbn; now apply nth_error_nth.
Qed.

(** Saving any kit of the application and loading it again gives the kit
    with the fields that cannot be stored removed from every pad. *)
Lemma saved_kit_loads_stripped (beats : Beats) (db : Store) :
  wellFormed beats ->
  loadBeatsFromDB (getAll (saveBeatsToDB beats (Some db))) = stripped beats.
Proof.
  intros Hwf.
  destruct (itemsOf_wellFormed_keys beats Hwf) as [Hkeys Hon].
  destruct (addAll_permutation (itemsOf beats) []) as (rows & Hrows & Hperm).
  { rewrite app_nil_r. now apply itemsOf_wellFormed_ids. }
  rewrite app_nil_r in Hperm.
  unfold saveBeatsToDB. rewrite Hrows. cbn [getAll loadBeatsFromDB].
  assert (Hon' : Forall onKit rows).
  { apply Forall_forall. intros it Hin. rewrite Forall_forall in Hon.
    apply Hon. now apply (Permutation_in it (Permutation_sym Hperm)). }
  assert (Hone : onePerPad rows).
  { unfold onePerPad.
    apply (Permutation_NoDup (Permutation_map keyOf Hperm) Hkeys). }
  destruct (fold_place_cell rows emptyBeats emptyBeats_wellFormed Hon')
    as [Hwf' Hcell].
  apply beats_ext; [exact Hwf' | now apply stripped_wellFormed |].
  intros c k Hc Hk.
  rewrite Hcell, cell_emptyBeats, cell_stripped by exact Hwf.
  destruct (cell beats c k) as [b |] eqn:E; cbn [option_map].
  - pose proof (cell_item beats c k b Hwf Hc E) as Hin.
    apply (Permutation_in _ Hperm) in Hin.
    apply (slot_present rows _ None Hone Hin).
  - apply slot_absent. intros Hin.
    apply in_map_iff in Hin as (it & Hkey & Hit).
    apply (Permutation_in _ (Permutation_sym Hperm)) in Hit.
    destruct (item_cell beats it Hwf Hit) as (b & Hb & _).
    unfold keyOf in Hkey. injection Hkey as Hcat Hidx.
    rewrite Hcat, Hidx in Hb. congruence.
Qed.

Lemma onePad_wellFormed (category : string) (padIndex : nat) (beat : Beat) :
  In category categories -> (padIndex < 12)%nat ->
  wellFormed (onePad category padIndex beat).
Proof.
  intros Hcat Hpad. unfold onePad.
  assert (Hlen : length (array_set padIndex beat emptyPads) = 12%nat)
    by (rewrite array_set_length; simpl; [reflexivity | lia]).
  destruct Hcat as [<- | [<- | [<- | []]]].
  - exists (array_set padIndex beat emptyPads), emptyPads, emptyPads. auto.
  - exists emptyPads, (array_set padIndex beat emptyPads), emptyPads. auto.
  - exists emptyPads, emptyPads, (array_set padIndex beat emptyPads). auto.
Qed.

Lemma stripped_onePad (category : string) (padIndex : nat) (beat : Beat) :
  In category categories -> (padIndex < 12)%nat ->
  stripped (onePad category padIndex beat)
  = onePad category padIndex (storableBeat beat).
Proof.
  intros Hcat Hpad.
  assert (Hidx : In padIndex (seq 0 12)) by (apply in_seq; lia).
  simpl in Hcat, Hidx.
  destruct Hcat as [<- | [<- | [<- | []]]];
    repeat (destruct Hidx as [<- | Hidx]; [reflexivity |]);
    contradiction.
Qed.

(** C9. Saving a kit with one populated pad (the two other categories
    empty) and loading it again gives the same structure, three categories
    of twelve pads, with the populated entry at its pad and [file] and
    [audioBuffer] gone from it (every other field as saved), whatever the
    store held before.  For every kit of three categories of twelve pads
    the loaded kit has that shape again and each pad holds the saved beat
    without [file] and [audioBuffer].  Loading when the database cannot be
    opened, when the read request fails, or on the first run gives exactly
    three categories of twelve empty pads. *)
Theorem beat_kit_round_trip
  (category : string) (padIndex : nat) (beat : Beat) (db : Store) :
  In category categories -> (padIndex < 12)%nat ->
  let saved :=
    Obj.set category (array_set padIndex beat emptyPads) emptyBeats in
  let loaded := loadBeatsFromDB (getAll (saveBeatsToDB saved (Some db))) in
  let entry :=
    mkBeat (beat_id beat) (beat_name beat) None None (arrayBuffer beat)
           (beat_key beat) (beat_bpm beat) (beat_genre beat)
           (beat_energy beat) in
  loaded = Obj.set category (array_set padIndex entry emptyPads) emptyBeats
  /\ (forall c k,
        cell loaded c k
        = if String.eqb category c && Nat.eqb k padIndex
          then Some entry else None)
  /\ (forall (kit : Beats) (old : Store),
        wellFormed kit ->
        let back := loadBeatsFromDB (getAll (saveBeatsToDB kit (Some old))) in
        wellFormed back
        /\ forall c k,
             cell back c k
             = option_map
                 (fun b =>
                    mkBeat (beat_id b) (beat_name b) None None (arrayBuffer b)
                           (beat_key b) (beat_bpm b) (beat_genre b)
                           (beat_energy b))
                 (cell kit c k))
  /\ loadBeatsFromDB Unavailable = emptyBeats
  /\ loadBeatsFromDB RequestError = emptyBeats
  /\ loadBeatsFromDB (getAll None) = emptyBeats
  /\ loadBeatsFromDB (getAll (Some [])) = emptyBeats
  /\ emptyBeats = [ ("drum", repeat None 12); ("tuning", repeat None 12);
                    ("instrumental", repeat None 12) ].
Proof.
  intros Hcat Hpad. cbv zeta.
  change (Obj.set category (array_set padIndex beat emptyPads) emptyBeats)
    with (onePad category padIndex beat).
  assert (Hload :
            loadBeatsFromDB
              (getAll (saveBeatsToDB (onePad category padIndex beat) (Some db)))
            = onePad category padIndex (storableBeat beat)).
  { rewrite saved_kit_loads_stripped by now apply onePad_wellFormed.
    now apply stripped_onePad. }
  split; [exact Hload |].
  split.
  { intros c k. rewrite Hload.
    destruct (place_cell emptyBeats (mkItem "" category padIndex
                                       (storableBeat beat))
                emptyBeats_wellFormed Hcat Hpad) as [_ Hcell].
    assert (E : onePad category padIndex (storableBeat beat)
                = place emptyBeats
                    (mkItem "" category padIndex (storableBeat beat))).
    { clear - Hcat. destruct Hcat as [<- | [<- | [<- | []]]]; reflexivity. }
    rewrite E, Hcell, cell_emptyBeats. reflexivity. }
  split.
  { intros kit old Hwf. cbv zeta.
    rewrite saved_kit_loads_stripped by exact Hwf.
    split; [now apply stripped_wellFormed |].
    intros c k. now rewrite cell_stripped. }
  repeat split.
Qed.

Lemma beat_kit_round_trip_witness :
  In "drum" categories /\ (3 < 12)%nat
  /\ forall beat,
       loadBeatsFromDB
         (getAll (saveBeatsToDB
                    (Obj.set "drum" (array_set 3 beat emptyPads) emptyBeats)
                    (Some [])))
       = Obj.set "drum"
           (array_set 3
              (mkBeat (beat_id beat) (beat_name beat) None None
                      (arrayBuffer beat) (beat_key beat) (beat_bpm beat)
                      (beat_genre beat) (beat_energy beat))
              emptyPads)
           emptyBeats.
Proof.
  assert (Hcat : In "drum" categories) by (simpl; auto).
  assert (Hpad : (3 < 12)%nat) by lia.
  split; [exact Hcat |]. split; [exact Hpad |].
  intros beat.
  exact (proj1 (beat_kit_round_trip "drum" 3 beat [] Hcat Hpad)).
Defined.

(** A kit with pads in two categories; the store returns the records in
    key order, "drum-10" before "drum-2". *)
Example beat_kit_round_trip_three_pads (b1 b2 b3 : Beat) :
  let kit :=
    Obj.set "tuning" (array_set 0 b3 emptyPads)
      (Obj.set "drum" (array_set 10 b2 (array_set 2 b1 emptyPads))
         emptyBeats) in
  option_map (map item_id) (saveBeatsToDB kit (Some []))
  = Some ["drum-10"; "drum-2"; "tuning-0"]
  /\ loadBeatsFromDB (getAll (saveBeatsToDB kit (Some []))) = stripped kit.
Proof. split; reflexivity. Qed.

End BeatStoreFacts.

Section WheelFacts.

Import Camelot.
Local Open Scope string_scope.

Lemma includes_str_In (xs : list string) (x : string) :
  Js.includes_str xs x = true <-> In x xs.
Proof.
  unfold Js.includes_str. rewrite existsb_exists. split.
  - intros (y & Hy & E). apply String.eqb_eq in E. now subst.
  - intros H. exists x. split; [exact H | apply String.eqb_refl].
Qed.

(** The checks of the next theorem on one key, as a computation. *)
Lemma wheel_checks :
  forallb
    (fun k =>
       let compatible := getCompatibleKeys k in
       Nat.eqb (length compatible) 3
       && negb (Js.includes_str compatible k)
       && forallb (Js.includes_str CAMELOT_KEYS) compatible
       && forallb (fun k' => Js.includes_str (getCompatibleKeys k') k)
                  compatible
       && match compatible with
          | [a; b; c] =>
              negb (String.eqb a b) && negb (String.eqb a c)
              && negb (String.eqb b c)
          | _ => false
          end)
    CAMELOT_KEYS = true.
Proof. vm_compute. reflexivity. Qed.

(** X18. Harmonic compatibility on the Camelot wheel is a symmetric
    relation: for every key of the wheel, [getCompatibleKeys] returns three
    different keys of the wheel, none of them the key itself, and each of
    them has the key among its own compatible keys. *)
Theorem getCompatibleKeys_symmetric_on_wheel (k k' : string) :
  In k CAMELOT_KEYS ->
  length (getCompatibleKeys k) = 3%nat
  /\ NoDup (getCompatibleKeys k)
  /\ incl (getCompatibleKeys k) CAMELOT_KEYS
  /\ ~ In k (getCompatibleKeys k)
  /\ (In k' (getCompatibleKeys k) -> In k (getCompatibleKeys k')).
Proof.
  intros Hk. pose proof wheel_checks as H.
  rewrite forallb_forall in H. specialize (H k Hk). cbv zeta in H.
  apply andb_prop in H as [H Hdiff]. apply andb_prop in H as [H Hsym].
  apply andb_prop in H as [H Hincl]. apply andb_prop in H as [Hlen Hself].
  apply Nat.eqb_eq in Hlen. rewrite forallb_forall in Hincl, Hsym.
  split; [exact Hlen |]. split; [| split; [| split]].
  - destruct (getCompatibleKeys k) as [| a [| b [| c [| ? ?]]]];
      try discriminate.
    apply andb_prop in Hdiff as [Hdiff Hbc].
    apply andb_prop in Hdiff as [Hab Hac].
    apply negb_true_iff in Hab, Hac, Hbc.
    apply String.eqb_neq in Hab, Hac, Hbc.
    repeat constructor; simpl; intuition congruence.
  - intros x Hx. apply includes_str_In. now apply Hincl.
  - intros Hin. apply includes_str_In in Hin.
    rewrite Hin in Hself. discriminate.
  - intros Hin. apply includes_str_In. now apply Hsym.
Qed.

Lemma getCompatibleKeys_symmetric_on_wheel_witness :
  length (getCompatibleKeys "12B") = 3%nat
  /\ NoDup (getCompatibleKeys "12B")
  /\ incl (getCompatibleKeys "12B") CAMELOT_KEYS
  /\ ~ In "12B" (getCompatibleKeys "12B")
  /\ (In "1B" (getCompatibleKeys "12B") -> In "12B" (getCompatibleKeys "1B")).
Proof.
  apply (getCompatibleKeys_symmetric_on_wheel "12B" "1B").
  apply includes_str_In. reflexivity.
Defined.

End WheelFacts.

Section FaderFacts.

Import Crossfader.
Local Open Scope R_scope.

Lemma half_turn_range (p : R) :
  0 <= p <= 1 -> 0 <= p * Math_PI / 2 <= PI / 2.
Proof.
  intros Hp. apply quarter_turn_range; [| exact Hp].
  split; [apply Math_PI_positive | left; apply Math_PI_below_PI].
Qed.

(** X20. Moving the crossfader towards deck B never raises the gain of
    deck A and never lowers the gain of deck B, under each of the three
    laws. *)
Theorem crossfader_gains_monotone (c : CrossfaderCurveType) (x y : R) :
  -1 <= x -> x <= y -> y <= 1 ->
  gainA c y <= gainA c x /\ gainB c x <= gainB c y.
Proof.
  intros Hx Hxy Hy.
  unfold gainA, gainB, gains, gainsWith, position.
  set (p := (x + 1) / 2). set (q := (y + 1) / 2).
  assert (Hp : 0 <= p) by (unfold p; lra).
  assert (Hpq : p <= q) by (unfold p, q; lra).
  assert (Hq : q <= 1) by (unfold q; lra).
  destruct c.
  - cbn [fst snd]. lra.
  - cbn [fst snd].
    destruct (half_turn_range p ltac:(lra)) as [Ha0 Ha1].
    destruct (half_turn_range q ltac:(lra)) as [Hb0 Hb1].
    pose proof Math_PI_positive as Hpos. pose proof PI_RGT_0 as HPI.
    assert (Hab : p * Math_PI / 2 <= q * Math_PI / 2) by nra.
    split.
    + apply cos_decr_1; lra.
    + apply sin_incr_1; lra.
  - assert (Hcube : forall a b, 0 <= a -> a <= b -> a ^ 3 <= b ^ 3).
    { intros a b Ha Hab. apply pow_incr. lra. }
    destruct (Rlt_dec p (1 / 2)) as [Lp | Lp];
      destruct (Rlt_dec q (1 / 2)) as [Lq | Lq]; cbn [fst snd].
    + pose proof (Hcube (2 * p) (2 * q) ltac:(lra) ltac:(lra)). lra.
    + pose proof (Hcube (2 * p) 1 ltac:(lra) ltac:(lra)) as H1.
      pose proof (Hcube (2 * (1 - q)) 1 ltac:(lra) ltac:(lra)) as H2.
      replace (1 ^ 3) with 1 in H1, H2 by ring. lra.
    + lra.
    + pose proof (Hcube (2 * (1 - q)) (2 * (1 - p)) ltac:(lra) ltac:(lra)).
      lra.
Qed.

Lemma crossfader_gains_monotone_witness :
  gainA FastCut (1 / 2) <= gainA FastCut (- (1 / 4))
  /\ gainB FastCut (- (1 / 4)) <= gainB FastCut (1 / 2).
Proof.
  apply (crossfader_gains_monotone FastCut (- (1 / 4)) (1 / 2)); lra.
Defined.

End FaderFacts.

Section SelectionFacts.

Import Deck AutoDj.
Local Open Scope Q_scope.

Lemma has_num_iff (xs : list Q) (x : Q) :
  Js.has_num xs x = true <-> exists y, In y xs /\ x == y.
Proof.
  unfold Js.has_num, Js.num_eq. rewrite existsb_exists.
  split; intros (y & Hy & E); exists y; (split; [exact Hy |]);
    now apply Qeq_bool_iff.
Qed.

Lemma id_differs_iff (x : Q) (other : option Q) :
  id_differs x other = true <-> forall y, other = Some y -> ~ x == y.
Proof.
  unfold id_differs, Js.num_eq. destruct other as [y |].
  - rewrite negb_true_iff. split.
    + intros H z [= <-] E. apply Qeq_bool_iff in E. congruence.
    + intros H. destruct (Qeq_bool x y) eqn:E; [| reflexivity].
      apply Qeq_bool_iff in E. now apply (H y) in E.
  - split; [intros _ y; discriminate | reflexivity].
Qed.

Lemma sequentialPick_in (lib pool : list Song) (currentSongId : option Q)
  (s : Song) :
  sequentialPick lib pool currentSongId = Some s -> In s pool.
Proof.
  unfold sequentialPick.
  destruct (match findIndex lib currentSongId with
            | Some k => walk lib pool k 1 (length lib)
            | None => None end) as [m |] eqn:E.
  - intros [= <-]. destruct (findIndex lib currentSongId); [| discriminate].
    now apply walk_in in E.
  - intros H. now apply nth_error_In in H.
Qed.

(** What [getNextTrack] returns from the library comes from the tiered
    pool. *)
Lemma getNextTrack_from_pool (st : Session) (random : Q)
  (avoidTrackId : option Q) (s : Song) :
  playlistSource (autoDjSettings st) = FromLibrary ->
  getNextTrack st random avoidTrackId = Some s ->
  In s (selectionPool (library st) (autoDjHistory st)
          (option_map song_id (song (activeDeckState st))) avoidTrackId).
Proof.
  intros Hsrc. unfold getNextTrack. rewrite Hsrc.
  destruct (isEmpty (library st)); [discriminate |].
  set (pool := selectionPool _ _ _ _).
  destruct (isEmpty pool); [discriminate |].
  set (filtered := filteredTracks _ _ pool).
  assert (Hfinal : incl (if Nat.ltb 0 (length filtered) then filtered else pool)
                        pool).
  { destruct (Nat.ltb 0 (length filtered));
      [apply filteredTracks_incl | apply incl_refl]. }
  destruct (shuffle (autoDjSettings st)); intros H; apply Hfinal.
  - now apply nth_error_In in H.
  - now apply sequentialPick_in in H.
Qed.

Lemma tier2_avoids (lib history : list Song) (currentSongId : option Q)
  (avoid : Q) (s : Song) :
  ~ avoid == 0 ->
  In s (tier2 lib history currentSongId (Some avoid)) ->
  ~ song_id s == avoid.
Proof.
  intros Hnz Hin E. unfold tier2 in Hin. apply filter_In in Hin as [_ Hin].
  apply negb_true_iff in Hin.
  assert (Hhas : Js.has_num
                   (add_if_truthy (Some avoid)
                      (add_if_truthy currentSongId
                         (ids (firstn (recentHistoryCount history) history))))
                   (song_id s) = true).
  { apply has_num_iff. exists avoid. split; [| exact E].
    unfold add_if_truthy at 1.
    assert (Js.truthy_num avoid = true) as -> by now apply truthy_num_iff.
    apply in_or_app. right. now left. }
  congruence.
Qed.

Lemma selectionPool_is_a_tier (lib history : list Song)
  (currentSongId avoidTrackId : option Q) :
  let pool := selectionPool lib history currentSongId avoidTrackId in
  pool = tier1 lib history currentSongId avoidTrackId
  \/ pool = tier2 lib history currentSongId avoidTrackId
  \/ pool = tier3 lib currentSongId avoidTrackId
  \/ pool = tier4 lib avoidTrackId.
Proof.
  cbv zeta. unfold selectionPool.
  repeat match goal with
         | |- context [if ?b then _ else _] => destruct b
         end; auto.
Qed.

Lemma selectionPool_avoids (lib history : list Song)
  (currentSongId : option Q) (avoid : Q) (s : Song) :
  ~ avoid == 0 ->
  (exists other, In other lib /\ ~ song_id other == avoid) ->
  In s (selectionPool lib history currentSongId (Some avoid)) ->
  ~ song_id s == avoid.
Proof.
  intros Hnz (other & Hother & Hdiff) Hin.
  assert (Hfilter : forall (p : Song -> bool) xs,
             In s (filter (fun x => p x && id_differs (song_id x) (Some avoid)) xs) ->
             ~ song_id s == avoid).
  { intros p xs H. apply filter_In in H as [_ H].
    apply andb_prop in H as [_ H].
    exact (proj1 (id_differs_iff _ _) H avoid eq_refl). }
  destruct (selectionPool_is_a_tier lib history currentSongId (Some avoid))
    as [E | [E | [E | E]]]; rewrite E in Hin; clear E.
  - unfold tier1 in Hin. now apply Hfilter in Hin.
  - now apply tier2_avoids in Hin.
  - unfold tier3 in Hin. now apply Hfilter in Hin.
  - unfold tier4 in Hin.
    destruct (filter (fun x => id_differs (song_id x) (Some avoid)) lib)
      as [| y ys] eqn:F.
    + exfalso.
      assert (Hin' : In other
                (filter (fun x => id_differs (song_id x) (Some avoid)) lib)).
      { apply filter_In. split; [exact Hother |].
        apply id_differs_iff. now intros y [= <-]. }
      rewrite F in Hin'. contradiction.
    + rewrite <- F in Hin. apply filter_In in Hin as [_ Hin].
      exact (proj1 (id_differs_iff _ _) Hin avoid eq_refl).
Qed.

(** X21. "repick" never proposes the same track again: with the library as
    source, asking for a next track other than a given one returns a track
    of the library with another identifier, whenever the library holds such
    a track.  Identifiers are not zero. *)
Theorem getNextTrack_avoids_repicked_track (st : Session) (random avoid : Q)
  (s : Song) :
  playlistSource (autoDjSettings st) = FromLibrary ->
  ~ avoid == 0 ->
  (exists other, In other (library st) /\ ~ song_id other == avoid) ->
  getNextTrack st random (Some avoid) = Some s ->
  In s (library st) /\ ~ song_id s == avoid.
Proof.
  intros Hsrc Hnz Hother Hpick.
  pose proof (getNextTrack_from_pool st random (Some avoid) s Hsrc Hpick)
    as Hin.
  split.
  - exact (selectionPool_incl _ _ _ _ s Hin).
  - exact (selectionPool_avoids _ _ _ avoid s Hnz Hother Hin).
Qed.

Lemma getNextTrack_avoids_repicked_track_witness :
  In Scenario.trackOne (library Scenario.twoTrackSession)
  /\ ~ song_id Scenario.trackOne == 2.
Proof.
  apply (getNextTrack_avoids_repicked_track Scenario.twoTrackSession
           (1 # 2) 2 Scenario.trackOne).
  - reflexivity.
  - vm_compute. discriminate.
  - exists Scenario.trackOne. split; [now left | vm_compute; discriminate].
  - vm_compute. reflexivity.
Defined.

(** X22. As long as the library holds a track that has not been played (its
    identifier is not in the history and is neither the current track's
    nor the one to avoid), the track [getNextTrack] returns from the
    library is such an unplayed track, whatever the criteria filters and
    the shuffle do. *)
Theorem getNextTrack_prefers_unplayed (st : Session) (random : Q)
  (avoidTrackId : option Q) (fresh s : Song) :
  playlistSource (autoDjSettings st) = FromLibrary ->
  In fresh (library st) ->
  (forall h, In h (autoDjHistory st) -> ~ song_id fresh == song_id h) ->
  (forall c, song (activeDeckState st) = Some c ->
             ~ song_id fresh == song_id c) ->
  (forall a, avoidTrackId = Some a -> ~ song_id fresh == a) ->
  getNextTrack st random avoidTrackId = Some s ->
  In s (library st)
  /\ (forall h, In h (autoDjHistory st) -> ~ song_id s == song_id h)
  /\ (forall c, song (activeDeckState st) = Some c -> ~ song_id s == song_id c)
  /\ (forall a, avoidTrackId = Some a -> ~ song_id s == a).
Proof.
  intros Hsrc Hlib Hhist Hcur Havoid Hpick.
  pose proof (getNextTrack_from_pool st random avoidTrackId s Hsrc Hpick)
    as Hin.
  set (cur := option_map song_id (song (activeDeckState st))) in *.
  assert (Hunplayed : forall x,
             In x (tier1 (library st) (autoDjHistory st) cur avoidTrackId) <->
             In x (library st)
             /\ (forall h, In h (autoDjHistory st) -> ~ song_id x == song_id h)
             /\ (forall c, song (activeDeckState st) = Some c ->
                           ~ song_id x == song_id c)
             /\ (forall a, avoidTrackId = Some a -> ~ song_id x == a)).
  { intros x. unfold tier1. rewrite filter_In, !andb_true_iff.
    rewrite negb_true_iff, !id_differs_iff.
    assert (Hh : Js.has_num (ids (autoDjHistory st)) (song_id x) = false <->
                 forall h, In h (autoDjHistory st) -> ~ song_id x == song_id h).
    { split.
      - intros F h Hh E.
        assert (T : Js.has_num (ids (autoDjHistory st)) (song_id x) = true).
        { apply has_num_iff. exists (song_id h). split; [| exact E].
          unfold ids. now apply in_map. }
        congruence.
      - intros F. destruct (Js.has_num _ _) eqn:T; [| reflexivity].
        apply has_num_iff in T as (y & Hy & E). unfold ids in Hy.
        apply in_map_iff in Hy as (h & <- & Hh). now apply (F h) in E. }
    assert (Hc : (forall y, cur = Some y -> ~ song_id x == y) <->
                 (forall c, song (activeDeckState st) = Some c ->
                            ~ song_id x == song_id c)).
    { unfold cur. destruct (song (activeDeckState st)) as [c |]; cbn.
      - split; [intros F c' [= <-]; now apply F | intros F y [= <-]; now apply F].
      - split; intros _ y; discriminate. }
    rewrite Hh, Hc. tauto. }
  assert (Hfresh : In fresh (tier1 (library st) (autoDjHistory st) cur
                               avoidTrackId)).
  { apply Hunplayed. auto. }
  assert (Epool : selectionPool (library st) (autoDjHistory st) cur avoidTrackId
                  = tier1 (library st) (autoDjHistory st) cur avoidTrackId).
  { unfold selectionPool.
    destruct (tier1 (library st) (autoDjHistory st) cur avoidTrackId);
      [contradiction | reflexivity]. }
  rewrite Epool in Hin. now apply Hunplayed.
Qed.

Lemma getNextTrack_prefers_unplayed_witness :
  let st :=
    mkSession [Scenario.trackOne; Scenario.trackTwo; Scenario.trackThree]
      [] [] (Scenario.deckWith Scenario.trackOne) initialDeckState DeckA
      initialSettings [Scenario.trackTwo] in
  In Scenario.trackThree (library st)
  /\ (forall h, In h (autoDjHistory st) ->
                ~ song_id Scenario.trackThree == song_id h)
  /\ (forall c, song (activeDeckState st) = Some c ->
                ~ song_id Scenario.trackThree == song_id c)
  /\ (forall a, @None Q = Some a -> ~ song_id Scenario.trackThree == a).
Proof.
  apply (getNextTrack_prefers_unplayed
           (mkSession [Scenario.trackOne; Scenario.trackTwo; Scenario.trackThree]
              [] [] (Scenario.deckWith Scenario.trackOne) initialDeckState DeckA
              initialSettings [Scenario.trackTwo])
           (1 # 2) None Scenario.trackThree Scenario.trackThree).
  - reflexivity.
  - right. right. now left.
  - intros h [<- | []]. vm_compute. discriminate.
  - intros c [= <-]. vm_compute. discriminate.
  - discriminate.
  - vm_compute. reflexivity.
Defined.

End SelectionFacts.

Section TrackAnalysisFacts.

Import TrackAnalysis.
Local Open Scope Z_scope.

Lemma toInt32_range (z : Z) : - 2 ^ 31 <= toInt32 z < 2 ^ 31.
Proof.
  unfold toInt32.
  pose proof (Z.mod_pos_bound (z + 2 ^ 31) (2 ^ 32) ltac:(lia)). lia.
Qed.

Lemma toInt32_small (z : Z) : - 2 ^ 31 <= z < 2 ^ 31 -> toInt32 z = z.
Proof.
  intros H. unfold toInt32. rewrite Z.mod_small; lia.
Qed.

(** The running hash is a signed 32-bit integer after every character. *)
Lemma hashLoop_int32 (fileName : string) (hash : Z) :
  - 2 ^ 31 <= hash < 2 ^ 31 -> - 2 ^ 31 <= hashLoop hash fileName < 2 ^ 31.
Proof.
  revert hash. induction fileName as [| c rest IH]; intros hash H; simpl.
  - exact H.
  - apply IH. unfold hashStep. apply toInt32_range.
Qed.

Lemma at_index_in {A : Type} (xs : list A) (i : Z) :
  0 <= i < Z.of_nat (length xs) ->
  exists x, at_index xs i = Some x /\ In x xs.
Proof.
  intros H. unfold at_index.
  destruct (Z.ltb_spec i 0) as [Hneg | _]; [lia |].
  destruct (nth_error xs (Z.to_nat i)) as [x |] eqn:E.
  - exists x. split; [reflexivity | exact (nth_error_In _ _ E)].
  - apply nth_error_None in E. lia.
Qed.

Lemma rem_abs_range (h n : Z) : 0 < n -> 0 <= Z.rem (Z.abs h) n < n.
Proof.
  intros Hn. rewrite Z.rem_mod_nonneg by lia.
  apply Z.mod_pos_bound. exact Hn.
Qed.

(** X1. Whatever the file name, the mock analysis yields one of the 24
    Camelot keys, one of the eight genres and a tempo from 118 to 131. *)
Theorem getMockProperties_in_catalogue (fileName : string) :
  exists k g,
    mock_key (getMockProperties fileName) = Some k
    /\ In k Camelot.CAMELOT_KEYS
    /\ mock_genre (getMockProperties fileName) = Some g
    /\ In g MOCK_GENRES
    /\ 118 <= mock_bpm (getMockProperties fileName) <= 131.
Proof.
  unfold getMockProperties. cbn [mock_key mock_genre mock_bpm].
  set (hash := Z.abs (hashLoop 0 fileName)).
  destruct (at_index_in Camelot.CAMELOT_KEYS
              (Z.rem hash (Z.of_nat (length Camelot.CAMELOT_KEYS))))
    as (k & Hk & Hin).
  { apply rem_abs_range. reflexivity. }
  destruct (at_index_in MOCK_GENRES
              (Z.rem hash (Z.of_nat (length MOCK_GENRES))))
    as (g & Hg & Hgin).
  { apply rem_abs_range. reflexivity. }
  exists k, g.
  split; [exact Hk |]. split; [exact Hin |].
  split; [exact Hg |]. split; [exact Hgin |].
  pose proof (rem_abs_range (hashLoop 0 fileName) 14 ltac:(lia)) as H.
  fold hash in H. lia.
Qed.

(** The hash wraps: twelve characters are enough to leave 31 bits. *)
Example getMockProperties_wraps :
  hashLoop 0 "zzzzzzzzzzzz.mp3" = -511771774
  /\ getMockProperties "zzzzzzzzzzzz.mp3"
     = mkMock (Some "12A"%string) (Some "Rock"%string) 128
  /\ getMockProperties "a"
     = mkMock (Some "1B"%string) (Some "Techno"%string) 131.
Proof. split; [| split]; vm_compute; reflexivity. Qed.

Lemma genreBonus_range (genre : option string) : -2 <= genreBonus genre <= 2.
Proof.
  unfold genreBonus. destruct genre as [g |]; [| lia].
  repeat match goal with |- context [if ?b then _ else _] =>
    destruct b end; lia.
Qed.

(** X2. The energy level is an integer from 1 to 10 whatever the loudness
    and the genre, and a louder track of the same genre never gets a lower
    level. *)
Theorem calculateEnergy_range_and_monotone (loudness louder : Q)
  (genre : option string) :
  (loudness <= louder)%Q ->
  1 <= calculateEnergy loudness genre <= 10
  /\ calculateEnergy loudness genre <= calculateEnergy louder genre.
Proof.
  intros H. unfold calculateEnergy, Js.Math_ceil.
  assert (Hc : Qceiling (loudness * 50) <= Qceiling (louder * 50)).
  { apply Qceiling_resp_le. nra. }
  lia.
Qed.

Lemma calculateEnergy_range_and_monotone_witness :
  1 <= calculateEnergy (1 # 10) (Some "Techno"%string) <= 10
  /\ calculateEnergy (1 # 10) (Some "Techno"%string)
     <= calculateEnergy (3 # 10) (Some "Techno"%string).
Proof.
  apply (calculateEnergy_range_and_monotone (1 # 10) (3 # 10)).
  vm_compute. discriminate.
Defined.

(** A quiet ambient track sits on the lower stop, a loud techno track on
    the upper one. *)
Example calculateEnergy_stops :
  calculateEnergy (1 # 100) (Some "Ambient"%string) = 1
  /\ calculateEnergy (1 # 2) (Some "Techno"%string) = 10
  /\ calculateEnergy (1 # 10) None = 5.
Proof. repeat split. Qed.

End TrackAnalysisFacts.

Section WaveformFacts.

Import TrackAnalysis.
Local Open Scope Q_scope.

Lemma raise_ge (x max : Q) :
  max <= (if Js.num_gt x max then x else max)
  /\ x <= (if Js.num_gt x max then x else max).
Proof.
  unfold Js.num_gt. destruct (Qle_bool x max) eqn:E; cbn [negb].
  - apply Qle_bool_iff in E. split; [apply Qle_refl | exact E].
  - split; [| apply Qle_refl].
    destruct (Qlt_le_dec max x) as [H | H]; [apply Qlt_le_weak; exact H |].
    apply Qle_bool_iff in H. congruence.
Qed.

Lemma blockMax_ge_start (n : nat) (block : list Q) (max : Q) :
  max <= blockMax n block max.
Proof.
  revert block max. induction n as [| n IH]; intros block max.
  - apply Qle_refl.
  - destruct block as [| x rest]; [apply Qle_refl |]. cbn [blockMax].
    eapply Qle_trans; [| apply IH]. apply raise_ge.
Qed.

Lemma blockMax_dominates (n : nat) (block : list Q) (max : Q) (j : nat) :
  (j < n)%nat -> (j < length block)%nat ->
  Qabs (nth j block 0) <= blockMax n block max.
Proof.
  revert block max j. induction n as [| n IH]; intros block max j Hn Hl.
  - lia.
  - destruct block as [| x rest]; [simpl in Hl; lia |]. cbn [blockMax].
    destruct j as [| j]; cbn [nth].
    + eapply Qle_trans; [| apply blockMax_ge_start]. apply raise_ge.
    + apply IH; [lia | simpl in Hl; lia].
Qed.

Lemma blockMax_attained (n : nat) (block : list Q) (max : Q) :
  blockMax n block max = max
  \/ exists x, In x block /\ blockMax n block max = Qabs x.
Proof.
  revert block max. induction n as [| n IH]; intros block max.
  - left. reflexivity.
  - destruct block as [| x rest]; [left; reflexivity |]. cbn [blockMax].
    destruct (IH rest (if Js.num_gt (Qabs x) max then Qabs x else max))
      as [E | (y & Hy & E)].
    + rewrite E. destruct (Js.num_gt (Qabs x) max).
      * right. exists x. split; [left; reflexivity | reflexivity].
      * left. reflexivity.
    + right. exists y. split; [right; exact Hy | exact E].
Qed.

Lemma generateWaveform_length (rawData : list Q) :
  length (generateWaveform rawData) = 512%nat.
Proof. unfold generateWaveform. now rewrite length_map, length_seq. Qed.

Lemma generateWaveform_nth (rawData : list Q) (i : nat) :
  (i < 512)%nat ->
  nth i (generateWaveform rawData) 0
  = blockMax (blockSizeOf rawData)
      (skipn (blockSizeOf rawData * i) rawData) 0.
Proof.
  intros H. unfold generateWaveform.
  rewrite (nth_indep _ 0
             ((fun i => blockMax (blockSizeOf rawData)
                          (skipn (blockSizeOf rawData * i) rawData) 0) O))
    by (rewrite length_map, length_seq; exact H).
  rewrite (map_nth (fun i => blockMax (blockSizeOf rawData)
                               (skipn (blockSizeOf rawData * i) rawData) 0)).
  rewrite seq_nth by exact H. reflexivity.
Qed.

Lemma nth_skipn_plus {A : Type} (k j : nat) (l : list A) (d : A) :
  nth j (skipn k l) d = nth (k + j) l d.
Proof.
  revert l. induction k as [| k IH]; intros l; [reflexivity |].
  destruct l as [| x l]; [now destruct j | apply IH].
Qed.

(** X3. The overview waveform has 512 points; the point of a block is at
    least the magnitude of every sample of the block, so no peak inside
    the analysed range is lost; and every point is the magnitude of some
    sample of the track, or zero. *)
Theorem generateWaveform_keeps_peaks (rawData : list Q) (n : nat) :
  (n < 512 * blockSizeOf rawData)%nat ->
  length (generateWaveform rawData) = 512%nat
  /\ Qabs (nth n rawData 0)
     <= nth (n / blockSizeOf rawData) (generateWaveform rawData) 0
  /\ Forall (fun v => v = 0 \/ exists x, In x rawData /\ v = Qabs x)
       (generateWaveform rawData).
Proof.
  intros Hn. split; [apply generateWaveform_length |]. split.
  - set (bs := blockSizeOf rawData) in *.
    assert (Hbs : (bs <> 0)%nat) by lia.
    assert (Hi : (n / bs < 512)%nat).
    { apply Nat.Div0.div_lt_upper_bound. lia. }
    rewrite generateWaveform_nth by exact Hi. fold bs.
    pose proof (Nat.div_mod_eq n bs) as Hdm.
    pose proof (Nat.mod_upper_bound n bs Hbs) as Hm.
    replace (nth n rawData 0)
      with (nth (n mod bs) (skipn (bs * (n / bs)) rawData) 0)
      by (rewrite nth_skipn_plus; f_equal; lia).
    apply blockMax_dominates; [exact Hm |].
    rewrite length_skipn.
    assert (Hlen : (512 * bs <= length rawData)%nat).
    { unfold bs, blockSizeOf, samples. apply Nat.Div0.mul_div_le. }
    lia.
  - apply Forall_forall. intros v Hv. unfold generateWaveform in Hv.
    apply in_map_iff in Hv. destruct Hv as (i & <- & _).
    destruct (blockMax_attained (blockSizeOf rawData)
                (skipn (blockSizeOf rawData * i) rawData) 0)
      as [E | (x & Hx & E)].
    + left. exact E.
    + right. exists x. split; [| exact E].
      rewrite <- (firstn_skipn (blockSizeOf rawData * i) rawData).
      apply in_or_app. right. exact Hx.
Qed.

(** A track of fewer than 512 samples has an all-zero overview. *)
Lemma generateWaveform_short (rawData : list Q) :
  (length rawData < 512)%nat ->
  generateWaveform rawData = repeat 0 512.
Proof.
  intros H. unfold generateWaveform, blockSizeOf, samples.
  rewrite Nat.div_small by exact H.
  change (repeat 0 512) with (map (fun _ : nat => 0) (seq 0 512)).
  apply map_ext. reflexivity.
Qed.

Lemma generateWaveform_keeps_peaks_witness :
  length (generateWaveform ramp) = 512%nat
  /\ Qabs (nth 3 ramp 0)
     <= nth (3 / blockSizeOf ramp) (generateWaveform ramp) 0
  /\ Forall (fun v => v = 0 \/ exists x, In x ramp /\ v = Qabs x)
       (generateWaveform ramp).
Proof.
  apply (generateWaveform_keeps_peaks ramp 3). vm_compute. lia.
Defined.

End WaveformFacts.

Section KnobFacts.

Import Knobs.

(** *** The preamp *)

Local Open Scope R_scope.

(** The special case for 50 agrees with the formula. *)
Lemma mapGainKnobToFactor_formula (value : R) :
  mapGainKnobToFactor value = pow10 ((value - 50) * (12 / 50) / 20).
Proof.
  unfold mapGainKnobToFactor, pow10.
  destruct (Req_dec_T value 50) as [E | _]; [| reflexivity].
  subst value. replace ((50 - 50) * (12 / 50) / 20) with 0 by field.
  symmetry. apply Rpower_O. lra.
Qed.

Lemma pow10_increasing (x y : R) : x < y -> pow10 x < pow10 y.
Proof. intros H. unfold pow10. apply Rpower_lt; lra. Qed.

Lemma pow10_three_fifths : 398 / 100 < pow10 (3 / 5) < 399 / 100.
Proof.
  set (x := pow10 (3 / 5)).
  assert (Hx : 0 < x) by (unfold x, pow10, Rpower; apply exp_pos).
  assert (E : x ^ 5 = 1000).
  { rewrite <- (Rpower_pow 5 x Hx). unfold x, pow10. rewrite Rpower_mult.
    replace (3 / 5 * INR 5) with (INR 3) by (simpl; field).
    rewrite Rpower_pow by lra. simpl. ring. }
  split.
  - apply Rnot_le_lt. intros H.
    assert (x ^ 5 <= (398 / 100) ^ 5) by (apply pow_incr; lra). lra.
  - apply Rnot_le_lt. intros H.
    assert ((399 / 100) ^ 5 <= x ^ 5) by (apply pow_incr; lra). lra.
Qed.

Lemma pow10_opp (x : R) : pow10 (- x) = / pow10 x.
Proof. unfold pow10. apply Rpower_Ropp. Qed.

Lemma pow10_minus_three_fifths : 1 / 4 < pow10 (- (3 / 5)) < 63 / 250.
Proof.
  rewrite pow10_opp. destruct pow10_three_fifths as [L U].
  set (x := pow10 (3 / 5)) in *.
  assert (Hx : 0 < x) by lra.
  assert (E : x * / x = 1) by (apply Rinv_r; lra).
  assert (Hi : 0 < / x) by (apply Rinv_0_lt_compat; exact Hx).
  split; nra.
Qed.

(** X4. The preamp law: the detent (50) is unity gain, turning the knob up
    always raises the factor, so the factor is below 1 under the detent and
    above 1 over it, and over the knob's travel 0..100 it stays between
    the factor at 0 (-12 dB, between 0.25 and 0.252) and the factor at 100
    (+12 dB, between 3.98 and 3.99). *)
Theorem mapGainKnobToFactor_unity_and_increasing (value higher : R) :
  0 <= value -> value < higher -> higher <= 100 ->
  mapGainKnobToFactor 50 = 1
  /\ 0 < mapGainKnobToFactor value < mapGainKnobToFactor higher
  /\ (value < 50 -> mapGainKnobToFactor value < 1)
  /\ (50 < higher -> 1 < mapGainKnobToFactor higher)
  /\ mapGainKnobToFactor 0 <= mapGainKnobToFactor value
  /\ mapGainKnobToFactor higher <= mapGainKnobToFactor 100
  /\ 1 / 4 < mapGainKnobToFactor 0 < 63 / 250
  /\ 398 / 100 < mapGainKnobToFactor 100 < 399 / 100.
Proof.
  intros H0 H H100.
  assert (Hmono : forall x y, x < y ->
             mapGainKnobToFactor x < mapGainKnobToFactor y).
  { intros x y Hxy. rewrite !mapGainKnobToFactor_formula.
    apply pow10_increasing. lra. }
  assert (Hunit : mapGainKnobToFactor 50 = 1).
  { unfold mapGainKnobToFactor. destruct (Req_dec_T 50 50); [reflexivity | lra]. }
  split; [exact Hunit |]. split; [split |].
  - rewrite mapGainKnobToFactor_formula. unfold pow10, Rpower. apply exp_pos.
  - now apply Hmono.
  - split; [intros V; rewrite <- Hunit; now apply Hmono |].
    split; [intros V; rewrite <- Hunit; now apply Hmono |].
    split.
    { destruct (Rle_lt_or_eq_dec 0 value H0) as [L | <-];
        [left; now apply Hmono | right; reflexivity]. }
    split.
    { destruct (Rle_lt_or_eq_dec higher 100 H100) as [L | ->];
        [left; now apply Hmono | right; reflexivity]. }
    rewrite !mapGainKnobToFactor_formula.
    replace ((0 - 50) * (12 / 50) / 20) with (- (3 / 5)) by field.
    replace ((100 - 50) * (12 / 50) / 20) with (3 / 5) by field.
    split; [exact pow10_minus_three_fifths | exact pow10_three_fifths].
Qed.

Lemma mapGainKnobToFactor_unity_and_increasing_witness :
  mapGainKnobToFactor 50 = 1
  /\ 0 < mapGainKnobToFactor 20 < mapGainKnobToFactor 80
  /\ (20 < 50 -> mapGainKnobToFactor 20 < 1)
  /\ (50 < 80 -> 1 < mapGainKnobToFactor 80)
  /\ mapGainKnobToFactor 0 <= mapGainKnobToFactor 20
  /\ mapGainKnobToFactor 80 <= mapGainKnobToFactor 100
  /\ 1 / 4 < mapGainKnobToFactor 0 < 63 / 250
  /\ 398 / 100 < mapGainKnobToFactor 100 < 399 / 100.
Proof.
  apply (mapGainKnobToFactor_unity_and_increasing 20 80); lra.
Defined.

(** *** The headphone mix *)

(** X5. The headphone mix runs from cue only to master: at setting 0 the
    cue gain is 1 and the master gain 0; moving the setting towards 100
    never raises the cue gain and never lowers the master gain; both gains
    stay in [0, 1] over the travel 0..100. *)
Theorem headphoneMixGains_bounded_and_monotone (headphoneMix higher : R) :
  0 <= headphoneMix -> headphoneMix <= higher -> higher <= 100 ->
  let cueGain x := fst (headphoneMixGains x) in
  let masterGain x := snd (headphoneMixGains x) in
  0 <= cueGain headphoneMix <= 1
  /\ 0 <= masterGain headphoneMix <= 1
  /\ cueGain higher <= cueGain headphoneMix
  /\ masterGain headphoneMix <= masterGain higher
  /\ headphoneMixGains 0 = (1, 0).
Proof.
  intros H0 Hle H100. cbv zeta. unfold headphoneMixGains. cbn [fst snd].
  set (a := headphoneMix / 100 * (1 / 2) * Crossfader.Math_PI).
  set (b := higher / 100 * (1 / 2) * Crossfader.Math_PI).
  pose proof Math_PI_below_PI as Hlt. pose proof Math_PI_positive as Hpos.
  pose proof PI_RGT_0 as HPI.
  assert (Ha : 0 <= a <= PI / 2) by (unfold a; split; nra).
  assert (Hb : 0 <= b <= PI / 2) by (unfold b; split; nra).
  assert (Hab : a <= b) by (unfold a, b; nra).
  pose proof (COS_bound a) as [_ Hc]. pose proof (SIN_bound a) as [_ Hs].
  split; [split; [apply cos_ge_0; lra | exact Hc] |].
  split; [split; [apply sin_ge_0; lra | exact Hs] |].
  split; [apply cos_decr_1; lra |].
  split; [apply sin_incr_1; lra |].
  replace (0 / 100 * (1 / 2) * Crossfader.Math_PI) with 0 by field.
  now rewrite cos_0, sin_0.
Qed.

Lemma headphoneMixGains_bounded_and_monotone_witness :
  let cueGain x := fst (headphoneMixGains x) in
  let masterGain x := snd (headphoneMixGains x) in
  0 <= cueGain 25 <= 1
  /\ 0 <= masterGain 25 <= 1
  /\ cueGain 75 <= cueGain 25
  /\ masterGain 25 <= masterGain 75
  /\ headphoneMixGains 0 = (1, 0).
Proof. apply (headphoneMixGains_bounded_and_monotone 25 75); lra. Defined.

(** *** The mixer EQ *)

Local Open Scope Q_scope.

Lemma num_eq_iff (x y : Q) : Js.num_eq x y = true <-> x == y.
Proof. unfold Js.num_eq. apply Qeq_bool_iff. Qed.

Lemma num_lt_iff (x y : Q) : Js.num_lt x y = true <-> x < y.
Proof.
  unfold Js.num_lt. rewrite negb_true_iff.
  destruct (Qle_bool y x) eqn:E.
  - apply Qle_bool_iff in E. split; [discriminate | intros H; lra].
  - split; [intros _ | reflexivity].
    destruct (Qlt_le_dec x y) as [Hlt | Hle]; [exact Hlt |].
    apply Qle_bool_iff in Hle. congruence.
Qed.

(** The law as one formula per side of the detent. *)
Lemma mapKnobToGain_cases (value : Q) :
  (value <= 50 -> mapKnobToGain value == (value * (1 # 50) - 1) * 26)
  /\ (50 <= value -> mapKnobToGain value == (value - 50) * (1 # 50) * 6).
Proof.
  unfold mapKnobToGain.
  destruct (Js.num_eq value 50) eqn:E.
  - apply num_eq_iff in E. split; intros _; rewrite E; reflexivity.
  - destruct (Js.num_lt value 50) eqn:L.
    + apply num_lt_iff in L. split; intros H; [field | lra].
    + assert (Hge : 50 <= value).
      { destruct (Qlt_le_dec value 50) as [Hlt | Hle]; [| exact Hle].
        apply num_lt_iff in Hlt. congruence. }
      split; intros H; [| field].
      assert (Heq : value == 50) by lra.
      apply num_eq_iff in Heq. congruence.
Qed.

(** X6. The mixer EQ law has no jump and no flat spot: a higher knob
    position always gives a higher gain; over the knob's travel 0..100 the
    gain runs from -26 dB to +6 dB with 0 dB at the detent. *)
Theorem mapKnobToGain_increasing_and_range (value higher : Q) :
  0 <= value -> value < higher -> higher <= 100 ->
  mapKnobToGain value < mapKnobToGain higher
  /\ -26 <= mapKnobToGain value /\ mapKnobToGain higher <= 6
  /\ mapKnobToGain 0 == -26 /\ mapKnobToGain 50 == 0
  /\ mapKnobToGain 100 == 6.
Proof.
  intros H0 Hlt H100.
  destruct (mapKnobToGain_cases value) as [Vlo Vhi].
  destruct (mapKnobToGain_cases higher) as [Hlo Hhi].
  split; [| split; [| split; [| split; [| split]]]];
    try reflexivity.
  - destruct (Qlt_le_dec value 50) as [V | V];
      destruct (Qlt_le_dec higher 50) as [W | W].
    + assert (V' : value <= 50) by lra. assert (W' : higher <= 50) by lra.
      specialize (Vlo V'). specialize (Hlo W'). lra.
    + assert (V' : value <= 50) by lra.
      specialize (Vlo V'). specialize (Hhi W). lra.
    + exfalso. lra.
    + specialize (Vhi V). specialize (Hhi W). lra.
  - destruct (Qlt_le_dec value 50) as [V | V].
    + assert (V' : value <= 50) by lra. specialize (Vlo V'). lra.
    + specialize (Vhi V). lra.
  - destruct (Qlt_le_dec higher 50) as [W | W].
    + assert (W' : higher <= 50) by lra. specialize (Hlo W'). lra.
    + specialize (Hhi W). lra.
Qed.

Lemma mapKnobToGain_increasing_and_range_witness :
  mapKnobToGain 25 < mapKnobToGain 75
  /\ -26 <= mapKnobToGain 25 /\ mapKnobToGain 75 <= 6
  /\ mapKnobToGain 0 == -26 /\ mapKnobToGain 50 == 0
  /\ mapKnobToGain 100 == 6.
Proof.
  apply (mapKnobToGain_increasing_and_range 25 75); vm_compute;
    first [reflexivity | discriminate].
Defined.

End KnobFacts.

Section CueFacts.

Import Deck DeckControls.
Local Open Scope Q_scope.

(** *** Arrays with empty slots *)

Lemma nth_array_put {A : Type} (i j : nat) (x : option A)
  (xs : list (option A)) :
  nth j (array_put i x xs) None = if Nat.eqb j i then x else nth j xs None.
Proof.
  revert j xs. induction i as [| i IH]; intros j xs.
  - destruct xs as [| y xs]; destruct j as [| j]; cbn; try reflexivity.
    now destruct j.
  - destruct xs as [| y xs]; destruct j as [| j]; cbn [array_put nth Nat.eqb];
      try reflexivity.
    + rewrite IH. now destruct j.
    + apply IH.
Qed.

Lemma nth_snoc_None {A : Type} (j : nat) (xs : list (option A)) :
  nth j (xs ++ [None]) None = nth j xs None.
Proof.
  revert j. induction xs as [| x xs IH]; intros j.
  - destruct j as [| [| j]]; reflexivity.
  - destruct j; [reflexivity | apply IH].
Qed.

Lemma nth_trimTrailing {A : Type} (j : nat) (xs : list (option A)) :
  nth j (trimTrailing xs) None = nth j xs None.
Proof.
  unfold trimTrailing. rewrite <- (rev_involutive xs) at 2.
  induction (rev xs) as [| x r IH]; [reflexivity |].
  destruct x as [a |]; [reflexivity |].
  cbn [popEmpty rev]. rewrite IH. symmetry. apply nth_snoc_None.
Qed.

Lemma popEmpty_head {A : Type} (r : list (option A)) :
  match popEmpty r with None :: _ => False | _ => True end.
Proof.
  induction r as [| x r IH]; [exact I |].
  destruct x; [exact I | exact IH].
Qed.

Lemma trimTrailing_trimmed {A : Type} (xs : list (option A)) :
  trimmed (trimTrailing xs).
Proof.
  unfold trimmed, trimTrailing, Js.last_opt. rewrite rev_involutive.
  pose proof (popEmpty_head (rev xs)) as H.
  destruct (popEmpty (rev xs)) as [| [a |] r]; try discriminate.
  contradiction.
Qed.

Lemma last_opt_cons {A : Type} (x y : A) (xs : list A) :
  Js.last_opt (x :: y :: xs) = Js.last_opt (y :: xs).
Proof. rewrite !last_opt_last. now rewrite last_cons_default. Qed.

Lemma trimmed_tail {A : Type} (x : option A) (xs : list (option A)) :
  trimmed (x :: xs) -> trimmed xs.
Proof.
  destruct xs as [| y xs]; [discriminate |].
  unfold trimmed. now rewrite last_opt_cons.
Qed.

Lemma trimmed_cons {A : Type} (x : option A) (xs : list (option A)) :
  xs <> [] -> trimmed xs -> trimmed (x :: xs).
Proof.
  destruct xs as [| y xs]; [congruence |].
  unfold trimmed. now rewrite last_opt_cons.
Qed.

Lemma trimmed_put_some {A : Type} (i : nat) (v : A) (xs : list (option A)) :
  trimmed xs -> trimmed (array_put i (Some v) xs).
Proof.
  revert xs. induction i as [| i IH]; intros xs H.
  - destruct xs as [| y [| z xs]]; cbn [array_put]; try discriminate.
    unfold trimmed in *. now rewrite last_opt_cons in *.
  - destruct xs as [| y xs]; cbn [array_put].
    + apply trimmed_cons; [now destruct i | apply IH; discriminate].
    + apply trimmed_cons.
      * now destruct i, xs.
      * apply IH. now apply trimmed_tail in H.
Qed.

Lemma empty_not_trimmed {A : Type} (xs : list (option A)) :
  xs <> [] -> (forall j, nth j xs None = None) -> ~ trimmed xs.
Proof.
  induction xs as [| x xs IH]; [congruence |]. intros _ Hall Ht.
  destruct xs as [| y xs].
  - specialize (Hall O). cbn in Hall. subst x. now apply Ht.
  - apply IH; [discriminate | | now apply trimmed_tail in Ht].
    intros j. exact (Hall (S j)).
Qed.

(** Two arrays without trailing empty slots that agree slot by slot are
    the same array. *)
Lemma trimmed_ext {A : Type} (xs ys : list (option A)) :
  trimmed xs -> trimmed ys ->
  (forall j, nth j xs None = nth j ys None) -> xs = ys.
Proof.
  revert ys. induction xs as [| x xs IH]; intros ys Hx Hy Hnth.
  - destruct ys as [| y ys]; [reflexivity |]. exfalso.
    apply (empty_not_trimmed (y :: ys)); [discriminate | | exact Hy].
    intros j. rewrite <- Hnth. now destruct j.
  - destruct ys as [| y ys].
    + exfalso.
      apply (empty_not_trimmed (x :: xs)); [discriminate | | exact Hx].
      intros j. rewrite Hnth. now destruct j.
    + f_equal; [exact (Hnth O) |].
      apply IH; [now apply trimmed_tail in Hx | now apply trimmed_tail in Hy |].
      intros j. exact (Hnth (S j)).
Qed.

(** *** The handler *)

Lemma with_cuePoints_same (d : DeckState) : with_cuePoints (cuePoints d) d = d.
Proof. now destruct d. Qed.

Lemma with_cuePoints_twice (xs ys : list (option Q)) (d : DeckState) :
  with_cuePoints xs (with_cuePoints ys d) = with_cuePoints xs d.
Proof. reflexivity. Qed.

(** X7. What setting and deleting a hot cue write.  The handler works on
    the cue array and the position of the render it belongs to
    ([deckState]) and writes the result onto the deck ([d]), whose other
    fields stay: slot [i] holds that render's position after a set and is
    empty after a delete, the other slots are those of the render's array,
    and the array never ends in an empty slot.  When the render shows the
    deck's current cue array, the one slot is all that changes. *)
Theorem handleCueAction_touches_one_slot (deckState d : DeckState)
  (audioReady : bool) (i j : nat) :
  song deckState <> None ->
  trimmed (cuePoints deckState) -> trimmed (cuePoints d) ->
  let afterSet := fst (handleCueAction deckState audioReady CueSet i d) in
  let afterDelete := fst (handleCueAction deckState audioReady CueDelete i d) in
  (afterSet = with_cuePoints (cuePoints afterSet) d
   /\ afterDelete = with_cuePoints (cuePoints afterDelete) d)
  /\ cueAt (cuePoints afterSet) j
     = (if Nat.eqb j i then Some (currentTime deckState)
        else cueAt (cuePoints deckState) j)
  /\ (cueAt (cuePoints deckState) i <> None ->
      cueAt (cuePoints afterDelete) j
      = (if Nat.eqb j i then None else cueAt (cuePoints deckState) j))
  /\ (cueAt (cuePoints deckState) i = None -> afterDelete = d)
  /\ trimmed (cuePoints afterSet)
  /\ trimmed (cuePoints afterDelete)
  /\ (cuePoints deckState = cuePoints d ->
      cueAt (cuePoints afterSet) j
      = (if Nat.eqb j i then Some (currentTime deckState)
         else cueAt (cuePoints d) j)
      /\ cueAt (cuePoints afterDelete) j
         = (if Nat.eqb j i then None else cueAt (cuePoints d) j)).
Proof.
  intros Hsong Hts Htd. cbv zeta. unfold handleCueAction.
  destruct (song deckState) as [s |]; [clear Hsong | congruence].
  cbn [fst].
  assert (Hset : forall k,
             cueAt (cuePoints
                      (with_cuePoints
                         (array_put i (Some (currentTime deckState))
                            (cuePoints deckState)) d)) k
             = (if Nat.eqb k i then Some (currentTime deckState)
                else cueAt (cuePoints deckState) k)).
  { intros k. unfold cueAt. cbn [with_cuePoints cuePoints].
    apply nth_array_put. }
  assert (Hdel : forall k,
             cueAt (cuePoints deckState) i <> None ->
             cueAt (cuePoints
                      (fst (match cueAt (cuePoints deckState) i with
                            | Some _ =>
                                (with_cuePoints
                                   (trimTrailing
                                      (array_put i None (cuePoints deckState)))
                                   d, @None SeekRequest)
                            | None => (d, None)
                            end))) k
             = (if Nat.eqb k i then None else cueAt (cuePoints deckState) k)).
  { intros k Hi.
    destruct (cueAt (cuePoints deckState) i) as [t |]; [| congruence].
    cbn [fst]. unfold cueAt. cbn [with_cuePoints cuePoints].
    rewrite nth_trimTrailing. apply nth_array_put. }
  split; [| split; [| split; [| split; [| split; [| split]]]]].
  - split.
    + reflexivity.
    + destruct (cueAt (cuePoints deckState) i); cbn [fst].
      * reflexivity.
      * symmetry. apply with_cuePoints_same.
  - apply Hset.
  - apply Hdel.
  - intros E. now rewrite E.
  - cbn [with_cuePoints cuePoints]. now apply trimmed_put_some.
  - destruct (cueAt (cuePoints deckState) i) as [t |]; cbn [fst].
    + cbn [with_cuePoints cuePoints]. apply trimTrailing_trimmed.
    + exact Htd.
  - intros E. split.
    + rewrite Hset. now rewrite E.
    + destruct (cueAt (cuePoints deckState) i) as [t |] eqn:Hi.
      * rewrite <- E. apply Hdel. congruence.
      * cbn [fst]. rewrite <- E.
        destruct (Nat.eqb_spec j i) as [-> | _]; [exact Hi | reflexivity].
Qed.

(** X8. Deleting a hot cue that was set on a free slot takes the cue array
    back to what it was before the set, padding included, when each of the
    two handlers belongs to a render that shows the deck's cue array of its
    moment; applied to the deck as the set left it, the delete gives back
    that deck state. *)
Theorem hot_cue_set_then_delete (atSet atDelete d later : DeckState)
  (audioReady : bool) (i : nat) :
  song atSet <> None -> song atDelete <> None ->
  trimmed (cuePoints d) -> cueAt (cuePoints d) i = None ->
  cuePoints atSet = cuePoints d ->
  let withCue := fst (handleCueAction atSet audioReady CueSet i d) in
  cuePoints atDelete = cuePoints withCue ->
  fst (handleCueAction atDelete audioReady CueDelete i later)
  = with_cuePoints (cuePoints d) later
  /\ fst (handleCueAction atDelete audioReady CueDelete i withCue) = d.
Proof.
  intros Hs1 Hs2 Htrim Hfree E1. cbv zeta. unfold handleCueAction.
  destruct (song atSet) as [s1 |]; [clear Hs1 | congruence].
  destruct (song atDelete) as [s2 |]; [clear Hs2 | congruence].
  cbn [fst with_cuePoints cuePoints]. intros E2. rewrite E2, E1.
  assert (Hc : cueAt (array_put i (Some (currentTime atSet)) (cuePoints d)) i
               = Some (currentTime atSet)).
  { unfold cueAt. now rewrite nth_array_put, Nat.eqb_refl. }
  rewrite Hc. cbn [fst].
  assert (Eold :
            trimTrailing
              (array_put i None
                 (array_put i (Some (currentTime atSet)) (cuePoints d)))
            = cuePoints d).
  { apply trimmed_ext; [apply trimTrailing_trimmed | exact Htrim |].
    intros j. rewrite nth_trimTrailing, !nth_array_put.
    destruct (Nat.eqb_spec j i) as [-> | _]; [| reflexivity].
    symmetry. exact Hfree. }
  rewrite Eold. split; [reflexivity |].
  rewrite with_cuePoints_twice. apply with_cuePoints_same.
Qed.

Lemma handleCueAction_touches_one_slot_witness :
  let d := Scenario.at10 in
  let afterSet := fst (handleCueAction d true CueSet 2 d) in
  let afterDelete := fst (handleCueAction d true CueDelete 2 d) in
  (afterSet = with_cuePoints (cuePoints afterSet) d
   /\ afterDelete = with_cuePoints (cuePoints afterDelete) d)
  /\ cueAt (cuePoints afterSet) 2
     = (if Nat.eqb 2 2 then Some (currentTime d) else cueAt (cuePoints d) 2)
  /\ (cueAt (cuePoints d) 2 <> None ->
      cueAt (cuePoints afterDelete) 2
      = (if Nat.eqb 2 2 then None else cueAt (cuePoints d) 2))
  /\ (cueAt (cuePoints d) 2 = None -> afterDelete = d)
  /\ trimmed (cuePoints afterSet)
  /\ trimmed (cuePoints afterDelete)
  /\ (cuePoints d = cuePoints d ->
      cueAt (cuePoints afterSet) 2
      = (if Nat.eqb 2 2 then Some (currentTime d) else cueAt (cuePoints d) 2)
      /\ cueAt (cuePoints afterDelete) 2
         = (if Nat.eqb 2 2 then None else cueAt (cuePoints d) 2)).
Proof.
  apply (handleCueAction_touches_one_slot Scenario.at10 Scenario.at10 true
           2 2);
    vm_compute; discriminate.
Defined.

Lemma hot_cue_set_then_delete_witness :
  let withCue :=
    fst (handleCueAction Scenario.at10 true CueSet 2 Scenario.at10) in
  let later := Scenario.after 15000 withCue in
  fst (handleCueAction later true CueDelete 2 later)
  = with_cuePoints (cuePoints Scenario.at10) later
  /\ fst (handleCueAction later true CueDelete 2 withCue) = Scenario.at10.
Proof.
  apply (hot_cue_set_then_delete Scenario.at10
           (Scenario.after 15000
              (fst (handleCueAction Scenario.at10 true CueSet 2 Scenario.at10)))
           Scenario.at10
           (Scenario.after 15000
              (fst (handleCueAction Scenario.at10 true CueSet 2 Scenario.at10)))
           true 2);
    vm_compute; first [reflexivity | discriminate].
Defined.

(** A set pressed on a pad of a MIDI controller runs the handler of the
    render the message handler was created in: a cue set in the meantime
    is lost. *)
Example stale_set_overwrites_newer_cue :
  let stale := Scenario.at10 in
  let now := fst (handleCueAction Scenario.at10 true CueSet 0 Scenario.at10) in
  cueAt (cuePoints now) 0 = Some (currentTime Scenario.at10)
  /\ cueAt (cuePoints (fst (handleCueAction stale true CueSet 1 now))) 0
     = None.
Proof. split; reflexivity. Qed.

Lemma clamp_inside (t hi : Q) : 0 <= t -> t <= hi -> clamp 0 t hi == t.
Proof.
  intros H0 H1. unfold clamp. rewrite Q.min_l by exact H1.
  apply Q.max_r. exact H0.
Qed.

(** X9. A jump goes to the cue of the render the handler belongs to.  When
    slot [i] of that render's cue array holds a time inside that render's
    track, the jump asks for a seek to it and the seek puts the playhead of
    the deck there, whatever the deck's own state is; so a cue set at a
    position inside the track brings the playhead back to that position
    when the jump comes from a render that shows the array the set left. *)
Theorem hot_cue_jump_returns (atSet d atJump later : DeckState)
  (audioReady : bool) (i : nat) (now : Q) :
  song atSet <> None -> 0 <= currentTime atSet ->
  currentTime atSet <= duration atJump -> 0 < duration atJump ->
  song atJump <> None ->
  cuePoints atJump
  = cuePoints (fst (handleCueAction atSet audioReady CueSet i d)) ->
  exists r d',
    snd (handleCueAction atJump audioReady CueJump i later) = Some r
    /\ applySeek r now later = Some d'
    /\ currentTime d' == currentTime atSet
    /\ cuePoints d' = cuePoints later /\ song d' = song later.
Proof.
  intros Hsong H0 H1 Hdur Hsj Ecues.
  unfold handleCueAction in *.
  destruct (song atSet) as [s |] eqn:Esong; [clear Hsong | congruence].
  destruct (song atJump) as [s' |] eqn:Esj; [clear Hsj | congruence].
  cbn [fst] in Ecues. unfold with_cuePoints in Ecues. cbn [cuePoints] in Ecues.
  unfold cueAt. rewrite Ecues, nth_array_put, Nat.eqb_refl. cbn [snd].
  unfold seekDeck. rewrite Esj.
  assert (Js.truthy_num (duration atJump) = true) as ->.
  { apply truthy_num_iff. lra. }
  cbn [negb option_map].
  destruct (Js.num_gt (zoom atJump) 1);
    (eexists; eexists; split; [reflexivity |]; unfold applySeek;
     cbn [seek_time seek_viewStartRatio seek_restart];
     split; [reflexivity |];
     destruct (isPlaying atJump && audioReady);
     cbn [with_lastUpdateTime with_viewStartRatio with_currentTime currentTime
          cuePoints song];
     (split; [now apply clamp_inside | split; reflexivity])).
Qed.

Lemma hot_cue_jump_returns_witness :
  let withCue :=
    fst (handleCueAction Scenario.at10 true CueSet 0 Scenario.at10) in
  let later := Scenario.after 15000 withCue in
  exists r d',
    snd (handleCueAction later true CueJump 0 later) = Some r
    /\ applySeek r 15000 later = Some d'
    /\ currentTime d' == currentTime Scenario.at10
    /\ cuePoints d' = cuePoints later /\ song d' = song later.
Proof.
  apply (hot_cue_jump_returns Scenario.at10 Scenario.at10
           (Scenario.after 15000
              (fst (handleCueAction Scenario.at10 true CueSet 0 Scenario.at10)))
           (Scenario.after 15000
              (fst (handleCueAction Scenario.at10 true CueSet 0 Scenario.at10)))
           true 0 15000);
    vm_compute; first [reflexivity | discriminate].
Defined.

End CueFacts.

Section ViewFacts.

Import Deck DeckControls.
Local Open Scope Q_scope.

Lemma clamp_between (lo x hi : Q) :
  lo <= hi -> lo <= Qmax lo (Qmin x hi) /\ Qmax lo (Qmin x hi) <= hi.
Proof.
  intros H. split; [apply Q.le_max_l |].
  apply Q.max_lub; [exact H | apply Q.le_min_r].
Qed.

Lemma visible_ratio (z : Q) : 1 <= z -> 0 < 1 / z /\ 1 / z <= 1.
Proof.
  intros H. assert (Hz : 0 < z) by lra. split.
  - apply Qlt_shift_div_l; [exact Hz | lra].
  - apply Qle_shift_div_r; [exact Hz | lra].
Qed.

Lemma num_le_iff (x y : Q) : Js.num_le x y = true <-> x <= y.
Proof. unfold Js.num_le. apply Qle_bool_iff. Qed.

Lemma clamped_view_inside (x z : Q) :
  1 <= z ->
  0 <= Qmax 0 (Qmin x (1 - 1 / z)) /\ Qmax 0 (Qmin x (1 - 1 / z)) + 1 / z <= 1.
Proof.
  intros Hz. destruct (visible_ratio z Hz) as [_ Hle].
  destruct (clamp_between 0 x (1 - 1 / z)) as [Ha Hb]; [lra |].
  split; [exact Ha | lra].
Qed.

Lemma handleZoomChange_inside (deckState d : DeckState) (newZoom : Q)
  (pointerRatioInView : option Q) :
  viewInside d ->
  viewInside (handleZoomChange deckState newZoom pointerRatioInView d).
Proof.
  intros Hd. unfold handleZoomChange.
  set (cz := Qmax 1 (Qmin newZoom 64)).
  destruct (Js.num_lt (Qabs (cz - zoom deckState)) (1 # 100)); [exact Hd |].
  destruct (clamp_between 1 newZoom 64) as [Hlo Hhi]; [lra |]. fold cz in Hlo, Hhi.
  match goal with |- viewInside (with_viewStartRatio (Qmax 0 (Qmin ?x _)) _) =>
    pose proof (clamped_view_inside x cz Hlo) as [Ha Hb] end.
  unfold viewInside. cbn [with_viewStartRatio with_zoom zoom viewStartRatio].
  split; [exact Hlo |]. split; [exact Hhi |]. split; [exact Ha | exact Hb].
Qed.

Lemma handleScrollChange_inside (scrollDeltaRatio : Q) (d : DeckState) :
  viewInside d -> viewInside (handleScrollChange scrollDeltaRatio d).
Proof.
  intros Hd. unfold handleScrollChange.
  destruct (Js.num_le (zoom d) 1); [exact Hd |].
  destruct Hd as (Hlo & Hhi & _).
  pose proof (clamped_view_inside (viewStartRatio d - scrollDeltaRatio)
                (zoom d) Hlo) as [Ha Hb].
  unfold viewInside. cbn [with_viewStartRatio zoom viewStartRatio].
  split; [exact Hlo |]. split; [exact Hhi |]. split; [exact Ha | exact Hb].
Qed.

Lemma seek_inside (deckState d d' : DeckState) (audioReady : bool)
  (t : option Q) (now : Q) (r : SeekRequest) :
  viewInside d -> viewInside deckState -> zoom deckState = zoom d ->
  seekDeck deckState audioReady t = Some r -> applySeek r now d = Some d' ->
  viewInside d'.
Proof.
  intros Hd Hs Ez Hseek Happly. unfold seekDeck in Hseek.
  destruct (song deckState); [| discriminate].
  destruct (negb (Js.truthy_num (duration deckState))); [discriminate |].
  injection Hseek as <-. unfold applySeek in Happly.
  cbn [seek_time seek_viewStartRatio seek_restart] in Happly.
  destruct t as [t |]; [| discriminate]. cbn [option_map] in Happly.
  destruct Hd as (Hlo & Hhi & H0 & H1).
  destruct Hs as (_ & _ & S0 & S1). rewrite Ez in *.
  destruct (Js.num_gt (zoom d) 1); cbn [option_map] in Happly;
    injection Happly as <-;
    destruct (isPlaying deckState && audioReady);
    unfold viewInside;
    cbn [with_lastUpdateTime with_viewStartRatio with_currentTime zoom
         viewStartRatio];
    (split; [exact Hlo |]; split; [exact Hhi |]);
    try (split; [exact S0 | exact S1]);
    unfold clamp; apply clamped_view_inside; exact Hlo.
Qed.

Lemma seek_applies (deckState d : DeckState) (audioReady : bool)
  (newTime now : Q) (r : SeekRequest) :
  seekDeck deckState audioReady (Some newTime) = Some r ->
  exists d', applySeek r now d = Some d'
             /\ currentTime d' = clamp 0 newTime (duration deckState)
             /\ duration d' = duration d.
Proof.
  unfold seekDeck. destruct (song deckState); [| discriminate].
  destruct (negb (Js.truthy_num (duration deckState))); [discriminate |].
  intros [= <-]. unfold applySeek.
  cbn [seek_time seek_viewStartRatio seek_restart option_map].
  destruct (Js.num_gt (zoom deckState) 1); eexists;
    (split; [reflexivity |]);
    destruct (isPlaying deckState && audioReady); split; reflexivity.
Qed.

Lemma scrolled_inside (newTime : Q) (d : DeckState) :
  viewInside d ->
  0 <= scrolled newTime d /\ scrolled newTime d + 1 / zoom d <= 1.
Proof.
  intros (Hlo & Hhi & H0 & H1). unfold scrolled.
  destruct (Js.num_gt (zoom d) 1 && Js.num_gt (duration d) 0);
    [| split; assumption].
  match goal with |- context [if ?b then _ else _] => destruct b end;
    [| split; assumption].
  unfold clamp. apply clamped_view_inside. exact Hlo.
Qed.

Lemma processDeck_inside (seek : option Q -> option SeekRequest) (now : Q)
  (d : DeckState) :
  viewInside d -> viewInside (fst (processDeck seek now d)).
Proof.
  intros Hd. unfold processDeck.
  destruct (negb (isPlaying d) || negb (Js.truthy_onum (lastUpdateTime d)));
    [exact Hd |].
  destruct (loopToWrap (advanced now d) d) as [[loopStart loopEnd] |];
    [exact Hd |].
  destruct (Js.num_ge (advanced now d) (duration d)); [exact Hd |].
  cbn [fst]. pose proof (scrolled_inside (advanced now d) d Hd) as [Ha Hb].
  destruct Hd as (Hlo & Hhi & _). unfold viewInside.
  cbn [with_lastUpdateTime with_viewStartRatio with_platterAngle
       with_currentTime zoom viewStartRatio].
  split; [exact Hlo |]. split; [exact Hhi |]. split; [exact Ha | exact Hb].
Qed.

(** X10. The waveform view stays inside the track: zooming (to any requested
    factor, around any pointer position, from any render), scrolling by any
    amount and the per-frame follow of the playhead keep the zoom between 1
    and 64 and the visible window between the start and the end of the
    track; so does a seek issued by a render that shows the deck's zoom.
    [deckState] is the state of the render the handler belongs to. *)
Theorem view_window_stays_inside (deckState d : DeckState)
  (newZoom scrollDeltaRatio : Q) (pointerRatioInView : option Q)
  (newTime : Q) (audioReady : bool) (now : Q) :
  viewInside d ->
  viewInside (handleZoomChange deckState newZoom pointerRatioInView d)
  /\ viewInside (handleScrollChange scrollDeltaRatio d)
  /\ viewInside (fst (updateLoop audioReady now d))
  /\ (viewInside deckState -> zoom deckState = zoom d ->
      match seekDeck deckState audioReady (Some newTime) with
      | Some r => exists d', applySeek r now d = Some d' /\ viewInside d'
      | None => True
      end).
Proof.
  intros Hd. split; [| split; [| split]].
  - now apply handleZoomChange_inside.
  - now apply handleScrollChange_inside.
  - now apply processDeck_inside.
  - intros Hs Ez.
    destruct (seekDeck deckState audioReady (Some newTime)) as [r |] eqn:Hseek;
      [| exact I].
    destruct (seek_applies deckState d audioReady newTime now r Hseek)
      as (d' & Happly & _).
    exists d'. split; [exact Happly |].
    exact (seek_inside deckState d d' audioReady (Some newTime) now r
             Hd Hs Ez Hseek Happly).
Qed.

Lemma view_window_stays_inside_witness :
  let d := Scenario.at10 in
  viewInside (handleZoomChange d 200 (Some (1 # 4)) d)
  /\ viewInside (handleScrollChange (3 # 10) d)
  /\ viewInside (fst (updateLoop true 12000 d))
  /\ (viewInside d -> zoom d = zoom d ->
      match seekDeck d true (Some 500) with
      | Some r => exists d', applySeek r 12000 d = Some d' /\ viewInside d'
      | None => True
      end).
Proof.
  apply (view_window_stays_inside Scenario.at10 Scenario.at10 200 (3 # 10)
           (Some (1 # 4)) 500 true 12000).
  unfold viewInside. vm_compute. repeat split; discriminate.
Defined.

(** A seek from an older render computes the view start with that
    render's zoom: after zooming out from 8 to 2, a seek of the render
    that still shows 8 puts the window past the end of the track. *)
Example stale_seek_leaves_view :
  let zoomed := handleZoomChange Scenario.at10 8 None Scenario.at10 in
  let wide := handleZoomChange zoomed 2 None zoomed in
  exists r d',
    seekDeck zoomed true (Some 190) = Some r
    /\ applySeek r 12000 wide = Some d'
    /\ zoom d' == 2 /\ viewStartRatio d' == 7 # 8
    /\ ~ viewInside d'.
Proof.
  cbv zeta. eexists. eexists. split; [reflexivity |]. split; [reflexivity |].
  split; [reflexivity |]. split; [reflexivity |].
  unfold viewInside. intros (_ & _ & _ & H). vm_compute in H. now apply H.
Qed.

(** *** The playhead *)

Lemma advanced_forward (now : Q) (d : DeckState) :
  0 <= currentTime d -> 0 <= playbackRate d ->
  (forall last, lastUpdateTime d = Some last -> last <= now) ->
  0 <= advanced now d.
Proof.
  intros H0 Hr Hclock. unfold advanced.
  destruct (lastUpdateTime d) as [last |]; [| exact H0].
  specialize (Hclock last eq_refl).
  assert (0 <= (now - last) * (1 # 1000) * playbackRate d) by nra.
  assert (E : (now - last) / 1000 == (now - last) * (1 # 1000)) by field.
  rewrite E. lra.
Qed.

Lemma processDeck_playhead (seek : option Q -> option SeekRequest) (now : Q)
  (d : DeckState) :
  playheadInside d -> 0 <= playbackRate d ->
  (forall last, lastUpdateTime d = Some last -> last <= now) ->
  playheadInside (fst (processDeck seek now d)).
Proof.
  intros Hd Hr Hclock. unfold processDeck.
  destruct (negb (isPlaying d) || negb (Js.truthy_onum (lastUpdateTime d)));
    [exact Hd |].
  destruct (loopToWrap (advanced now d) d) as [[loopStart loopEnd] |];
    [exact Hd |].
  destruct Hd as [H0 H1].
  destruct (Js.num_ge (advanced now d) (duration d)) eqn:E; cbn [fst];
    unfold playheadInside;
    cbn [with_lastUpdateTime with_viewStartRatio with_platterAngle
         with_currentTime with_isPlaying currentTime duration].
  - split; [lra | apply Qle_refl].
  - split; [now apply advanced_forward |].
    destruct (Qlt_le_dec (advanced now d) (duration d)) as [Hlt | Hge];
      [lra |].
    apply num_ge_iff in Hge. congruence.
Qed.

(** X12. The playhead stays inside the track: a frame of the transport
    clock and a scratch drag by any amount leave the position between 0 and
    the track's duration, and a frame that reaches the end outside a loop
    stops the deck exactly at the end.  A seek to any time puts the
    position between 0 and the duration of the render it was issued by
    ([deckState]), so inside the track when that render shows the deck's
    track. *)
Theorem playhead_stays_inside (deckState d : DeckState)
  (now newTime movementX : Q) (audioReady : bool) :
  playheadInside d -> 0 <= playbackRate d ->
  (forall last, lastUpdateTime d = Some last -> last <= now) ->
  0 <= duration deckState ->
  playheadInside (fst (updateLoop audioReady now d))
  /\ playheadInside
       (fst (handlePlatterInteraction true (PlatterDrag movementX) d))
  /\ match seekDeck deckState audioReady (Some newTime) with
     | Some r =>
         exists d', applySeek r now d = Some d'
                    /\ 0 <= currentTime d' <= duration deckState
                    /\ (duration deckState = duration d -> playheadInside d')
     | None => True
     end
  /\ (isPlaying d = true -> Js.truthy_onum (lastUpdateTime d) = true ->
      loopToWrap (advanced now d) d = None ->
      duration d <= advanced now d ->
      isPlaying (fst (updateLoop audioReady now d)) = false
      /\ currentTime (fst (updateLoop audioReady now d)) = duration d).
Proof.
  intros Hd Hr Hclock Hdur. split; [| split; [| split]].
  - now apply processDeck_playhead.
  - unfold handlePlatterInteraction. cbn [negb].
    destruct (negb (scratchModeEnabled d) || negb (hasSong d)); [exact Hd |].
    cbn [fst]. unfold playheadInside.
    cbn [with_platterAngle with_currentTime currentTime duration].
    destruct Hd as [H0 H1]. split; [apply Q.le_max_l |].
    apply Q.max_lub; [lra | apply Q.le_min_l].
  - destruct (seekDeck deckState audioReady (Some newTime)) as [r |] eqn:Hseek;
      [| exact I].
    destruct (seek_applies deckState d audioReady newTime now r Hseek)
      as (d' & Happly & Et & Ed).
    exists d'. split; [exact Happly |].
    destruct (clamp_between 0 newTime (duration deckState) Hdur) as [Ha Hb].
    assert (Hin : 0 <= currentTime d' <= duration deckState).
    { rewrite Et. unfold clamp. split; assumption. }
    split; [exact Hin |].
    intros E. unfold playheadInside. rewrite Ed, <- E. exact Hin.
  - intros Hplay Hlast Hwrap Hend. unfold updateLoop, processDeck.
    rewrite Hplay, Hlast, Hwrap. cbn [negb orb].
    apply num_ge_iff in Hend. rewrite Hend. cbn [fst]. split; reflexivity.
Qed.

Lemma playhead_stays_inside_witness :
  let d := Scenario.at10 in
  playheadInside (fst (updateLoop true 12000 d))
  /\ playheadInside (fst (handlePlatterInteraction true (PlatterDrag (-5000)) d))
  /\ match seekDeck d true (Some 500) with
     | Some r =>
         exists d', applySeek r 12000 d = Some d'
                    /\ 0 <= currentTime d' <= duration d
                    /\ (duration d = duration d -> playheadInside d')
     | None => True
     end
  /\ (isPlaying d = true -> Js.truthy_onum (lastUpdateTime d) = true ->
      loopToWrap (advanced 12000 d) d = None ->
      duration d <= advanced 12000 d ->
      isPlaying (fst (updateLoop true 12000 d)) = false
      /\ currentTime (fst (updateLoop true 12000 d)) = duration d).
Proof.
  apply (playhead_stays_inside Scenario.at10 Scenario.at10 12000 500 (-5000)
           true).
  - unfold playheadInside. vm_compute. split; discriminate.
  - vm_compute. discriminate.
  - intros last E. vm_compute in E. injection E as <-. vm_compute. discriminate.
  - vm_compute. discriminate.
Defined.

(** A seek from a render of the previous, longer track: the position it
    writes lies past the end of the track that is on the deck. *)
Example stale_seek_passes_the_end :
  let longer :=
    loadSong (Some Fixtures.quiet) initialDeckState in
  exists r d',
    seekDeck longer true (Some 230) = Some r
    /\ applySeek r 12000 Scenario.at10 = Some d'
    /\ currentTime d' == 230 /\ duration d' == 200
    /\ ~ playheadInside d'.
Proof.
  cbv zeta. eexists. eexists. split; [reflexivity |]. split; [reflexivity |].
  split; [reflexivity |]. split; [reflexivity |].
  unfold playheadInside. intros [_ H]. vm_compute in H. now apply H.
Qed.

End ViewFacts.

Section ScratchFacts.

Import Deck DeckControls.
Local Open Scope Q_scope.

Lemma drag_sameButPosition (movementX : Q) (d : DeckState) :
  sameButPosition d
    (fst (handlePlatterInteraction true (PlatterDrag movementX) d)).
Proof.
  unfold handlePlatterInteraction. cbn [negb].
  destruct (negb (scratchModeEnabled d) || negb (hasSong d)); cbn [fst];
    unfold sameButPosition; cbn; repeat split.
Qed.

Lemma drags_sameButPosition (movements : list Q) (d : DeckState) :
  sameButPosition d (drags movements d).
Proof.
  unfold drags. revert d.
  induction movements as [| m rest IH]; intros d; cbn [fold_left].
  - unfold sameButPosition. repeat split.
  - pose proof (drag_sameButPosition m d) as H1.
    specialize (IH (fst (handlePlatterInteraction true (PlatterDrag m) d))).
    unfold sameButPosition in *. intuition congruence.
Qed.

(** X13. A scratch gesture gives the transport back as it found it: the deck
    is silent while the platter is held, and after the release the deck
    plays again exactly if it played before the touch, at the rate it had
    and from the position the drags left it at.  [snapshot] is the deck
    state of the render whose [togglePlay] the release calls; it shows the
    deck paused, as every render during the gesture does. *)
Theorem scratch_gesture_restores_transport (d snapshot : DeckState)
  (movements : list Q) (now : Q) :
  scratchModeEnabled d = true -> song d <> None ->
  isPlaying snapshot = false ->
  let held := drags movements (fst (handlePlatterInteraction true PlatterStart d)) in
  let released := handlePlatterInteraction true PlatterEnd held in
  let final :=
    match snd released with
    | Some r => togglePlay snapshot true (Some (resumeRate r)) now (fst released)
    | None => fst released
    end in
  isPlaying held = false
  /\ snd released
     = (if isPlaying d
        then Some (mkResume (currentTime held) (playbackRate d)) else None)
  /\ isPlaying final = isPlaying d
  /\ playbackRate final = playbackRate d
  /\ wasPlayingBeforeScratch final = false
  /\ song final = song d.
Proof.
  intros Hmode Hsong Hsnap. cbv zeta.
  set (started := fst (handlePlatterInteraction true PlatterStart d)).
  assert (Hstarted :
            started = with_isPlaying false
                        (with_wasPlayingBeforeScratch (isPlaying d) d)).
  { unfold started, handlePlatterInteraction, hasSong. rewrite Hmode.
    destruct (song d); [reflexivity | congruence]. }
  pose proof (drags_sameButPosition movements started)
    as (Es & Ep & Er & Ed & Em & Ew).
  set (held := drags movements started) in *.
  rewrite Hstarted in Es, Ep, Er, Ed, Em, Ew.
  cbn [with_isPlaying with_wasPlayingBeforeScratch song isPlaying playbackRate
       duration scratchModeEnabled wasPlayingBeforeScratch] in Es, Ep, Er, Ed, Em, Ew.
  unfold handlePlatterInteraction, hasSong. rewrite Em, Hmode, Es, Ew, Er.
  destruct (song d) as [s |] eqn:Esong; [clear Hsong | congruence].
  cbn [negb orb fst snd].
  split; [exact Ep |]. split; [reflexivity |].
  destruct (isPlaying d) eqn:Eplay.
  - unfold togglePlay. rewrite Hsnap. cbn [resumeRate].
    cbn [with_lastUpdateTime with_playbackRate with_isPlaying
         with_wasPlayingBeforeScratch isPlaying playbackRate
         wasPlayingBeforeScratch song].
    repeat split. exact Es.
  - cbn [with_wasPlayingBeforeScratch isPlaying playbackRate
         wasPlayingBeforeScratch song].
    repeat split; assumption.
Qed.

Lemma scratch_gesture_restores_transport_witness :
  let d := toggleScratchMode Scenario.at10 in
  let held :=
    drags [40; -25; 10] (fst (handlePlatterInteraction true PlatterStart d)) in
  let released := handlePlatterInteraction true PlatterEnd held in
  let final :=
    match snd released with
    | Some r => togglePlay held true (Some (resumeRate r)) 12000 (fst released)
    | None => fst released
    end in
  isPlaying held = false
  /\ snd released
     = (if isPlaying d
        then Some (mkResume (currentTime held) (playbackRate d)) else None)
  /\ isPlaying final = isPlaying d
  /\ playbackRate final = playbackRate d
  /\ wasPlayingBeforeScratch final = false
  /\ song final = song d.
Proof.
  apply (scratch_gesture_restores_transport
           (toggleScratchMode Scenario.at10)
           (drags [40; -25; 10]
              (fst (handlePlatterInteraction true PlatterStart
                      (toggleScratchMode Scenario.at10))))
           [40; -25; 10] 12000);
    vm_compute; first [reflexivity | discriminate].
Defined.

(** With scratch mode off, or without a track, the platter does nothing. *)
Lemma platter_needs_scratch_mode (type : PlatterEvent) (d : DeckState) :
  scratchModeEnabled d = false \/ song d = None ->
  handlePlatterInteraction true type d = (d, None).
Proof.
  intros [H | H]; unfold handlePlatterInteraction, hasSong; rewrite H;
    cbn [negb orb]; [reflexivity |].
  now destruct (negb (scratchModeEnabled d)).
Qed.

End ScratchFacts.

Section LibraryFacts.

Import Deck Library.

Lemma findIndexByName_absent (name : string) (prev : list Song) :
  ~ In name (names prev) -> findIndexByName name prev = None.
Proof.
  induction prev as [| s rest IH]; intros H; [reflexivity |].
  cbn [findIndexByName]. cbn [names map In] in H.
  destruct (String.eqb_spec (song_name s) name) as [E | _]; [tauto |].
  rewrite IH by tauto. reflexivity.
Qed.

Lemma findIndexByName_present (name : string) (prev : list Song) (i : nat) :
  findIndexByName name prev = Some i -> In name (names prev).
Proof.
  intros H. destruct (in_dec string_dec name (names prev)) as [Hin | Hout];
    [exact Hin |].
  rewrite (findIndexByName_absent name prev Hout) in H. discriminate.
Qed.

Lemma findIndexByName_None (name : string) (prev : list Song) :
  findIndexByName name prev = None -> ~ In name (names prev).
Proof.
  induction prev as [| s rest IH]; intros H; [tauto |].
  cbn [findIndexByName] in H. cbn [names map In].
  destruct (String.eqb_spec (song_name s) name) as [E | E]; [discriminate |].
  destruct (findIndexByName name rest); [discriminate |].
  intros [Hh | Ht]; [contradiction | now apply IH].
Qed.

Lemma map_update_at {A B : Type} (g : A -> B) (f : A -> A) (i : nat)
  (xs : list A) :
  (forall x, g (f x) = g x) -> map g (update_at i f xs) = map g xs.
Proof.
  intros H. revert i. induction xs as [| x xs IH]; intros [| i];
    cbn [update_at map]; try reflexivity.
  - now rewrite H.
  - now rewrite IH.
Qed.

Lemma NoDup_names_filter (p : Song -> bool) (songs : list Song) :
  NoDup (names songs) -> NoDup (names (filter p songs)).
Proof.
  unfold names. induction songs as [| s rest IH]; intros H; [constructor |].
  cbn [map] in H. inversion H as [| x l Hx Hl]; subst. cbn [filter].
  destruct (p s); [| now apply IH]. cbn [map]. constructor; [| now apply IH].
  intros Hin. apply Hx. apply in_map_iff in Hin as (y & E & Hy).
  apply filter_In in Hy as [Hy _]. rewrite <- E. now apply in_map.
Qed.

Lemma filter_none {A : Type} (p : A -> bool) (xs : list A) :
  (forall x, In x xs -> p x = false) -> filter p xs = [].
Proof.
  induction xs as [| x xs IH]; intros H; [reflexivity |]. cbn [filter].
  rewrite (H x) by now left. apply IH. intros y Hy. apply H. now right.
Qed.

(** A listed file name: the load refreshes its entry, names and
    identifiers of the library stay as they are. *)
Lemma loadSong_library_listed (a : Analysis) (prev : list Song) :
  In (fileName a) (names prev) ->
  names (loadSong_library a prev) = names prev
  /\ AutoDj.ids (loadSong_library a prev) = AutoDj.ids prev.
Proof.
  intros Hin. unfold loadSong_library.
  destruct (findIndexByName (fileName a) prev) as [i |] eqn:F.
  - split; [unfold names | unfold AutoDj.ids]; apply map_update_at;
      reflexivity.
  - now apply findIndexByName_None in F.
Qed.

(** X14. Loading a track or a beat keeps the library free of duplicate
    names.  A track whose file name is already listed refreshes that entry
    in place: the entry keeps its identifier and its position, and no
    entry is added; a new name is appended.  A beat replaces the entry of
    its name and goes last. *)
Theorem loading_keeps_library_names_unique (a : Analysis) (beat : Song)
  (prev : list Song) :
  NoDup (names prev) ->
  NoDup (names (loadSong_library a prev))
  /\ In (fileName a) (names (loadSong_library a prev))
  /\ (In (fileName a) (names prev) ->
      names (loadSong_library a prev) = names prev
      /\ AutoDj.ids (loadSong_library a prev) = AutoDj.ids prev)
  /\ (~ In (fileName a) (names prev) ->
      loadSong_library a prev = prev ++ [songWithDetails a])
  /\ NoDup (names (loadBeat_library beat prev))
  /\ Js.last_opt (loadBeat_library beat prev) = Some beat.
Proof.
  intros Hnd. unfold loadSong_library.
  destruct (findIndexByName (fileName a) prev) as [i |] eqn:F.
  - pose proof (findIndexByName_present _ _ _ F) as Hin.
    assert (En : names (update_at i (Library.refreshed a) prev) = names prev).
    { unfold names. apply map_update_at. reflexivity. }
    split; [now rewrite En |]. split; [now rewrite En |].
    split; [intros _; split; [exact En |] |].
    { unfold AutoDj.ids. apply map_update_at. reflexivity. }
    split; [tauto |].
    split; [| apply last_opt_snoc].
    unfold loadBeat_library, names. rewrite map_app.
    apply NoDup_app; [now apply NoDup_names_filter | repeat constructor; tauto |].
    intros n Hn [<- | []]. apply in_map_iff in Hn as (s & E & Hs).
    apply filter_In in Hs as [_ Hs]. rewrite E, String.eqb_refl in Hs.
    discriminate.
  - pose proof (findIndexByName_None _ _ F) as Hout.
    unfold names. rewrite map_app. cbn [map songWithDetails song_name].
    split.
    { apply NoDup_app; [exact Hnd | repeat constructor; tauto |].
      intros n Hn [<- | []]. now apply Hout. }
    split; [apply in_or_app; right; now left |].
    split; [intros Hin; now apply Hout in Hin |].
    split; [reflexivity |].
    split; [| apply last_opt_snoc].
    unfold loadBeat_library. rewrite map_app.
    apply NoDup_app; [now apply NoDup_names_filter | repeat constructor; tauto |].
    intros n Hn [<- | []]. apply in_map_iff in Hn as (s & E & Hs).
    apply filter_In in Hs as [_ Hs]. rewrite E, String.eqb_refl in Hs.
    discriminate.
Qed.

Lemma loading_keeps_library_names_unique_witness :
  let prev := [Scenario.trackOne; Scenario.trackTwo] in
  NoDup (names (loadSong_library Scenario.track prev))
  /\ In (fileName Scenario.track) (names (loadSong_library Scenario.track prev))
  /\ (In (fileName Scenario.track) (names prev) ->
      names (loadSong_library Scenario.track prev) = names prev
      /\ AutoDj.ids (loadSong_library Scenario.track prev) = AutoDj.ids prev)
  /\ (~ In (fileName Scenario.track) (names prev) ->
      loadSong_library Scenario.track prev
      = prev ++ [songWithDetails Scenario.track])
  /\ NoDup (names (loadBeat_library Scenario.trackTwo prev))
  /\ Js.last_opt (loadBeat_library Scenario.trackTwo prev)
     = Some Scenario.trackTwo.
Proof.
  apply (loading_keeps_library_names_unique Scenario.track Scenario.trackTwo
           [Scenario.trackOne; Scenario.trackTwo]).
  vm_compute. repeat constructor; simpl; intuition discriminate.
Defined.

(** X15. Adding files to the library leaves the entries that are there
    untouched and in place, appends only files whose name is not listed
    yet, and keeps the names free of duplicates when the names of the
    batch are; adding files whose names are all listed changes nothing,
    whatever their identifiers. *)
Theorem addSongsToLibrary_adds_only_new_names (newSongs again prev : list Song) :
  NoDup (names prev) -> NoDup (names newSongs) ->
  incl (names again) (names (addSongsToLibrary newSongs prev)) ->
  (exists added,
     addSongsToLibrary newSongs prev = prev ++ added
     /\ incl added newSongs
     /\ forall s, In s added -> ~ In (song_name s) (names prev))
  /\ NoDup (names (addSongsToLibrary newSongs prev))
  /\ incl (names newSongs) (names (addSongsToLibrary newSongs prev))
  /\ addSongsToLibrary again (addSongsToLibrary newSongs prev)
     = addSongsToLibrary newSongs prev.
Proof.
  intros Hprev Hnew Hagain.
  set (unique :=
         filter (fun s => negb (Js.includes_str (names prev) (song_name s)))
                newSongs).
  assert (E : addSongsToLibrary newSongs prev = prev ++ unique).
  { unfold addSongsToLibrary. fold unique.
    destruct unique as [| u us]; [now rewrite app_nil_r | reflexivity]. }
  assert (Hfresh : forall s, In s unique -> ~ In (song_name s) (names prev)).
  { intros s Hs. apply filter_In in Hs as [_ Hs].
    apply negb_true_iff in Hs. intros Hin. apply includes_str_In in Hin.
    congruence. }
  split; [| split; [| split]].
  - exists unique. split; [exact E |]. split; [| exact Hfresh].
    intros s Hs. now apply filter_In in Hs.
  - rewrite E. unfold names. rewrite map_app.
    apply NoDup_app; [exact Hprev | now apply NoDup_names_filter |].
    intros n Hn Hn'. apply in_map_iff in Hn' as (s & <- & Hs).
    exact (Hfresh s Hs Hn).
  - rewrite E. intros n Hn. unfold names. rewrite map_app. apply in_or_app.
    destruct (in_dec string_dec n (names prev)) as [Hin | Hout];
      [left; exact Hin | right].
    apply in_map_iff in Hn as (s & <- & Hs). apply in_map.
    apply filter_In. split; [exact Hs |]. apply negb_true_iff.
    destruct (Js.includes_str (names prev) (song_name s)) eqn:I;
      [| reflexivity].
    apply includes_str_In in I. contradiction.
  - unfold addSongsToLibrary at 1.
    rewrite (filter_none _ again); [reflexivity |].
    intros s Hs. apply negb_false_iff. apply includes_str_In.
    apply Hagain. now apply in_map.
Qed.

Lemma addSongsToLibrary_adds_only_new_names_witness :
  let prev := [Scenario.trackOne; Scenario.trackTwo] in
  let newSongs := [Scenario.trackTwo; Scenario.trackThree] in
  let again := [Scenario.trackThree; Scenario.trackOne] in
  (exists added,
     addSongsToLibrary newSongs prev = prev ++ added
     /\ incl added newSongs
     /\ forall s, In s added -> ~ In (song_name s) (names prev))
  /\ NoDup (names (addSongsToLibrary newSongs prev))
  /\ incl (names newSongs) (names (addSongsToLibrary newSongs prev))
  /\ addSongsToLibrary again (addSongsToLibrary newSongs prev)
     = addSongsToLibrary newSongs prev.
Proof.
  apply (addSongsToLibrary_adds_only_new_names
           [Scenario.trackTwo; Scenario.trackThree]
           [Scenario.trackThree; Scenario.trackOne]
           [Scenario.trackOne; Scenario.trackTwo]).
  - vm_compute. repeat constructor; simpl; intuition discriminate.
  - vm_compute. repeat constructor; simpl; intuition discriminate.
  - vm_compute. intros n Hn. simpl in Hn. simpl. intuition.
Defined.

(** A batch that lists one name twice puts both files into the library. *)
Example addSongsToLibrary_keeps_duplicates_of_the_batch :
  names (addSongsToLibrary [Scenario.trackThree; Scenario.trackThree]
                           [Scenario.trackOne])
  = names [Scenario.trackOne; Scenario.trackThree; Scenario.trackThree].
Proof. reflexivity. Qed.

(** *** Queues *)

Lemma splice_in_length {A : Type} (i : nat) (x : A) (xs : list A) :
  length (splice_in i x xs) = S (length xs).
Proof.
  unfold splice_in. rewrite length_app. cbn [length].
  rewrite <- (firstn_skipn i xs) at 3. rewrite length_app. lia.
Qed.

Lemma splice_in_permutation {A : Type} (i : nat) (x : A) (xs : list A) :
  Permutation (x :: xs) (splice_in i x xs).
Proof.
  unfold splice_in. rewrite <- (firstn_skipn i xs) at 1.
  apply Permutation_middle.
Qed.

Lemma splice_in_nth {A : Type} (i : nat) (x : A) (xs : list A) :
  nth_error (splice_in i x xs) (Nat.min i (length xs)) = Some x.
Proof.
  unfold splice_in. rewrite nth_error_app2; rewrite length_firstn; [| lia].
  now rewrite Nat.sub_diag.
Qed.

Lemma filter_splice_in {A : Type} (p : A -> bool) (i : nat) (x : A)
  (xs : list A) :
  p x = false -> filter p (splice_in i x xs) = filter p xs.
Proof.
  intros H. unfold splice_in. rewrite filter_app. cbn [filter]. rewrite H.
  rewrite <- filter_app. now rewrite firstn_skipn.
Qed.

Lemma handleAddToQueue_splice (song : Song) (index : option Z)
  (prevQueue : list Song) :
  exists i, handleAddToQueue song index prevQueue = splice_in i song prevQueue
            /\ (forall k, index = Some k ->
                (0 <= k <= Z.of_nat (length prevQueue))%Z -> i = Z.to_nat k).
Proof.
  assert (Hpush : prevQueue ++ [song]
                  = splice_in (length prevQueue) song prevQueue).
  { unfold splice_in. now rewrite firstn_all, skipn_all. }
  unfold handleAddToQueue. destruct index as [k |].
  - destruct ((0 <=? k)%Z && (k <=? Z.of_nat (length prevQueue))%Z) eqn:E.
    + exists (Z.to_nat k). split; [reflexivity |]. intros k' [= <-] _.
      reflexivity.
    + exists (length prevQueue). split; [exact Hpush |].
      intros k' [= <-] Hk. apply andb_false_iff in E. lia.
  - exists (length prevQueue). split; [exact Hpush |]. discriminate.
Qed.

(** X16. Queueing a track and removing it again gives back the queue as it
    was, wherever the track was inserted: at the requested position when
    that lies inside the queue, at the end otherwise.  The track must not
    be in the queue already, since removal drops every entry with its
    identifier. *)
Theorem queue_add_then_remove (song : Song) (index : option Z)
  (prevQueue : list Song) :
  (forall s, In s prevQueue -> ~ (song_id s == song_id song)%Q) ->
  handleRemoveFromQueue (song_id song)
    (handleAddToQueue song index prevQueue) = prevQueue
  /\ length (handleAddToQueue song index prevQueue) = S (length prevQueue)
  /\ Permutation (song :: prevQueue) (handleAddToQueue song index prevQueue)
  /\ (forall k, index = Some k -> (0 <= k <= Z.of_nat (length prevQueue))%Z ->
      nth_error (handleAddToQueue song index prevQueue) (Z.to_nat k)
      = Some song).
Proof.
  intros Hnew.
  destruct (handleAddToQueue_splice song index prevQueue) as (i & E & Hi).
  rewrite E. split; [| split; [| split]].
  - unfold handleRemoveFromQueue. rewrite filter_splice_in.
    + apply forallb_filter_id. apply forallb_forall. intros s Hs.
      apply negb_true_iff. unfold Js.num_eq.
      destruct (Qeq_bool (song_id s) (song_id song)) eqn:Q; [| reflexivity].
      apply Qeq_bool_iff in Q. now apply Hnew in Q.
    + apply negb_false_iff. unfold Js.num_eq. apply Qeq_bool_iff.
      reflexivity.
  - apply splice_in_length.
  - apply splice_in_permutation.
  - intros k Ek Hk. rewrite (Hi k Ek Hk).
    rewrite <- (splice_in_nth (Z.to_nat k) song prevQueue). f_equal. lia.
Qed.

Lemma queue_add_then_remove_witness :
  let prevQueue := [Scenario.trackOne; Scenario.trackTwo] in
  handleRemoveFromQueue (song_id Scenario.trackThree)
    (handleAddToQueue Scenario.trackThree (Some 1%Z) prevQueue) = prevQueue
  /\ length (handleAddToQueue Scenario.trackThree (Some 1%Z) prevQueue)
     = S (length prevQueue)
  /\ Permutation (Scenario.trackThree :: prevQueue)
       (handleAddToQueue Scenario.trackThree (Some 1%Z) prevQueue)
  /\ (forall k, Some 1%Z = Some k ->
      (0 <= k <= Z.of_nat (length prevQueue))%Z ->
      nth_error (handleAddToQueue Scenario.trackThree (Some 1%Z) prevQueue)
                (Z.to_nat k)
      = Some Scenario.trackThree).
Proof.
  apply (queue_add_then_remove Scenario.trackThree (Some 1%Z)
           [Scenario.trackOne; Scenario.trackTwo]).
  intros s [<- | [<- | []]]; vm_compute; discriminate.
Defined.

(** X17. Dragging a queue entry to another place reorders the queue and
    nothing else: the result holds the same tracks, none lost and none
    doubled, and the dragged track sits at the drop position (at the end
    when the drop position is past it). *)
Theorem handleReorderQueue_permutes (dragIndex hoverIndex : nat)
  (queue : list Song) :
  (dragIndex < length queue)%nat ->
  exists reordered,
    handleReorderQueue dragIndex hoverIndex queue = map Some reordered
    /\ Permutation queue reordered
    /\ nth_error reordered (Nat.min hoverIndex (length queue - 1))
       = nth_error queue dragIndex.
Proof.
  intros Hdrag. unfold handleReorderQueue, splice_out.
  destruct (nth_error queue dragIndex) as [x |] eqn:Ex;
    [| apply nth_error_None in Ex; lia].
  rewrite nth_error_map, Ex. cbn [option_map].
  set (rest := firstn dragIndex queue ++ skipn (S dragIndex) queue).
  assert (Erest : firstn dragIndex (map Some queue)
                  ++ skipn (S dragIndex) (map Some queue) = map Some rest).
  { unfold rest. now rewrite map_app, firstn_map, skipn_map. }
  rewrite Erest.
  assert (Equeue : queue = firstn dragIndex queue ++ x :: skipn (S dragIndex) queue).
  { rewrite <- (firstn_skipn dragIndex queue) at 1. f_equal.
    clear - Ex. revert dragIndex Ex.
    induction queue as [| y ys IH]; intros [| i] Ex; cbn in *;
      try discriminate.
    - now injection Ex as ->.
    - now apply IH. }
  assert (Hlen : length rest = (length queue - 1)%nat).
  { unfold rest. rewrite length_app, length_firstn, length_skipn. lia. }
  exists (splice_in hoverIndex x rest). split; [| split].
  - unfold splice_in. now rewrite map_app, firstn_map, skipn_map.
  - rewrite Equeue at 1. etransitivity; [symmetry; apply Permutation_middle |].
    apply splice_in_permutation.
  - rewrite <- Hlen. apply splice_in_nth.
Qed.

Lemma handleReorderQueue_permutes_witness :
  let queue := [Scenario.trackOne; Scenario.trackTwo; Scenario.trackThree] in
  exists reordered,
    handleReorderQueue 0 2 queue = map Some reordered
    /\ Permutation queue reordered
    /\ nth_error reordered (Nat.min 2 (length queue - 1)) = nth_error queue 0.
Proof.
  apply (handleReorderQueue_permutes 0 2
           [Scenario.trackOne; Scenario.trackTwo; Scenario.trackThree]).
  vm_compute. lia.
Defined.

(** A drag index past the end puts an [undefined] entry into the queue. *)
Example handleReorderQueue_past_the_end :
  handleReorderQueue 5 0 [Scenario.trackOne; Scenario.trackTwo]
  = [None; Some Scenario.trackOne; Some Scenario.trackTwo].
Proof. reflexivity. Qed.

End LibraryFacts.

Section MidiControlFacts.

Import Deck Midi MidiControls.
Local Open Scope string_scope.

(** *** From learning to dispatch *)

(** X24. A learnt message drives its control.  A message received in learn
    mode for a control, first binding or not, is recorded for that control
    and ends learn mode.  When the mapping can be saved, every later
    message with the same identifier, whatever its value byte, is
    dispatched to that control with that value; and if the control was
    bound to another message before (in a mapping with one control per
    message), that message no longer reaches anything.  When the save
    throws, the mapping is recorded all the same and the reverse index is
    the one from before the message. *)
Theorem learnt_message_drives_its_control (st : State)
  (control M : string) (command data1 data2 command' data1' value : Z) :
  learning st = Some control ->
  messageIdOf command data1 data2 = Some M ->
  messageIdOf command' data1' value = Some M ->
  let st1 := step Stored command data1 data2 st in
  let st2 := step Throws command data1 data2 st in
  isMidiLearning st1 = None
  /\ Obj.get control (midiMapping st1) = Some (Some M)
  /\ Obj.get M (reverseMidiMapping st1) = Some control
  /\ handleMidiMessage command' data1' value st1 = (st1, Some (control, value))
  /\ (forall (old : string) (commandOld data1Old valueOld : Z),
        one_control_per_message (midiMapping st) ->
        Obj.get control (midiMapping st) = Some (Some old) -> old <> M ->
        messageIdOf commandOld data1Old valueOld = Some old ->
        handleMidiMessage commandOld data1Old valueOld st1 = (st1, None))
  /\ (isMidiLearning st2 = None
      /\ midiMapping st2 = midiMapping st1
      /\ reverseMidiMapping st2 = reverseMidiMapping st).
Proof.
  intros Hlearn HM HM'. cbv zeta.
  rewrite !(step_learns _ command data1 data2 st M control HM Hlearn).
  cbn [syncReverse midiMapping reverseMidiMapping isMidiLearning].
  set (fwd := learn M control (midiMapping st)).
  assert (Hctl : Obj.get control fwd = Some (Some M)).
  { unfold fwd. now rewrite learn_get, String.eqb_refl. }
  assert (Hrev : Obj.get M (rebuild fwd) = Some control).
  { destruct (rebuild_complete fwd control M Hctl
                (messageIdOf_truthy _ _ _ _ HM)) as (c' & Hrev & Hfwd).
    apply learn_unique in Hfwd. now subst c'. }
  split; [reflexivity |]. split; [exact Hctl |]. split; [exact Hrev |].
  split; [| split; [| now repeat split]].
  - unfold handleMidiMessage. rewrite HM'. unfold learning.
    cbn [isMidiLearning reverseMidiMapping]. rewrite Hrev.
    now rewrite (learning_truthy st control Hlearn).
  - intros old commandOld data1Old valueOld Hone Hold Hne HMold.
    unfold handleMidiMessage. rewrite HMold. unfold learning.
    cbn [isMidiLearning reverseMidiMapping].
    destruct (Obj.get old (rebuild fwd)) as [c |] eqn:Hr; [| reflexivity].
    exfalso. apply rebuild_no_stale in Hr. unfold fwd in Hr.
    rewrite learn_get in Hr.
    destruct (String.eqb c control) eqn:Ec; [congruence |].
    apply String.eqb_neq in Ec.
    destruct (holds (midiMapping st) c M); [discriminate |].
    apply Ec. exact (Hone c control old Hr Hold).
Qed.

Lemma learnt_message_drives_its_control_witness :
  let st := mkState [] [] (Some "deckA_play") in
  let st1 := step Stored 144 60 100 st in
  let st2 := step Throws 144 60 100 st in
  isMidiLearning st1 = None
  /\ Obj.get "deckA_play" (midiMapping st1) = Some (Some "note_on_1_60")
  /\ Obj.get "note_on_1_60" (reverseMidiMapping st1) = Some "deckA_play"
  /\ handleMidiMessage 144 60 127 st1 = (st1, Some ("deckA_play", 127%Z))
  /\ (forall (old : string) (commandOld data1Old valueOld : Z),
        one_control_per_message (midiMapping st) ->
        Obj.get "deckA_play" (midiMapping st) = Some (Some old) ->
        old <> "note_on_1_60" ->
        messageIdOf commandOld data1Old valueOld = Some old ->
        handleMidiMessage commandOld data1Old valueOld st1 = (st1, None))
  /\ (isMidiLearning st2 = None
      /\ midiMapping st2 = midiMapping st1
      /\ reverseMidiMapping st2 = reverseMidiMapping st).
Proof.
  apply (learnt_message_drives_its_control
           (mkState [] [] (Some "deckA_play"))
           "deckA_play" "note_on_1_60" 144 60 100 144 60 127);
    reflexivity.
Defined.

(** A first binding and a re-binding: from an empty mapping the learnt
    note reaches the control; learning another note for the same control
    afterwards leaves the first note without effect. *)
Example learn_then_relearn :
  let st1 := step Stored 144 60 100 (mkState [] [] (Some "deckA_play")) in
  let st2 := step Stored 144 36 90 (startLearning "deckA_play" st1) in
  snd (handleMidiMessage 144 60 127 st1) = Some ("deckA_play", 127%Z)
  /\ snd (handleMidiMessage 144 36 127 st2) = Some ("deckA_play", 127%Z)
  /\ snd (handleMidiMessage 144 60 127 st2) = None.
Proof. repeat split. Qed.

(** *** The control table *)

Lemma control_table_checks (deckA deckB : DeckState) :
  forallb
    (fun fx =>
       forallb
         (fun controlId =>
            forallb
              (fun value =>
                 let a := handleControlAction deckA deckB (Some fx)
                            controlId value in
                 if (0 <? value)%Z then inRange a
                 else inRange a || isNoAction a)
              dataBytes)
         MAPPABLE_CONTROLS)
    FX_LIST = true.
Proof. vm_compute. reflexivity. Qed.

Lemma dataBytes_In (value : Z) :
  (0 <= value <= 127)%Z -> In value dataBytes.
Proof.
  intros H. unfold dataBytes. apply in_map_iff.
  exists (Z.to_nat value). split; [lia |]. apply in_seq. lia.
Qed.

(** X25. Every control of the mapping table does something sensible.  For a
    control of [MAPPABLE_CONTROLS], a data byte 0..127 and a selected effect
    of [FX_LIST], a non-zero byte always leads to an action, and the action
    stays in the range of what it sets: volumes in 0..1, pitch in 0.9..1.1,
    the crossfader in -1..1, knobs and effect parameters in 0..100, a hot
    cue index in 0..7, a positive loop length, an effect name of [FX_LIST].
    A zero byte (a released button) gives such an action or nothing. *)
Theorem mappable_controls_are_handled (deckA deckB : DeckState)
  (fx controlId : string) (value : Z) :
  In controlId MAPPABLE_CONTROLS -> In fx FX_LIST ->
  (0 <= value <= 127)%Z ->
  let a := handleControlAction deckA deckB (Some fx) controlId value in
  ((0 < value)%Z -> inRange a = true)
  /\ (inRange a = true \/ a = NoAction).
Proof.
  intros Hc Hfx Hv. cbv zeta.
  pose proof (control_table_checks deckA deckB) as H.
  rewrite forallb_forall in H. specialize (H fx Hfx).
  rewrite forallb_forall in H. specialize (H controlId Hc).
  rewrite forallb_forall in H. specialize (H value (dataBytes_In value Hv)).
  cbv zeta in H.
  destruct (0 <? value)%Z eqn:Epos.
  - split; [intros _; exact H | left; exact H].
  - split; [intros Hpos; apply Z.ltb_ge in Epos; lia |].
    apply orb_true_iff in H. destruct H as [H | H]; [now left | right].
    destruct (handleControlAction deckA deckB (Some fx) controlId value);
      try discriminate. reflexivity.
Qed.

Lemma mappable_controls_are_handled_witness :
  let a := handleControlAction Scenario.at10 Scenario.at10 (Some "Delay")
             "deckB_hotcue_3" 127 in
  ((0 < 127)%Z -> inRange a = true)
  /\ (inRange a = true \/ a = NoAction).
Proof.
  apply (mappable_controls_are_handled Scenario.at10 Scenario.at10
           "Delay" "deckB_hotcue_3" 127).
  - vm_compute. do 18 right. left. reflexivity.
  - vm_compute. do 3 right. left. reflexivity.
  - lia.
Defined.

(** An effect parameter control with no effect selected does nothing. *)
Lemma fx_parameter_needs_selection (deckA deckB : DeckState) (value : Z) :
  handleControlAction deckA deckB None "fx_selected_dryWet" value = NoAction.
Proof. reflexivity. Qed.

End MidiControlFacts.

Section TransitionFacts.

Import Deck AutoDj Transition.
Local Open Scope Q_scope.

(** *** Counting the calls of the interval *)

Lemma steps_pos (D : Q) : 0 < D -> 0 < steps D.
Proof.
  intros H. unfold steps.
  assert (E : D * 1000 / 50 == D * 20) by field. rewrite E. lra.
Qed.

Lemma before_lastTick (D : Q) (k : Z) :
  (k < lastTick D)%Z -> inject_Z k < steps D.
Proof.
  intros H. unfold lastTick in H.
  apply Qle_lt_trans with (inject_Z (Qceiling (steps D) - 1)).
  - rewrite <- Zle_Qle. lia.
  - apply Qceiling_lt.
Qed.

Lemma from_lastTick (D : Q) (k : Z) :
  (lastTick D <= k)%Z -> steps D <= inject_Z k.
Proof.
  intros H. unfold lastTick in H.
  apply Qle_trans with (inject_Z (Qceiling (steps D))).
  - apply Qle_ceiling.
  - now rewrite <- Zle_Qle.
Qed.

Lemma lastTick_pos (D : Q) : 0 < D -> (1 <= lastTick D)%Z.
Proof.
  intros H. apply steps_pos in H.
  destruct (Z_lt_le_dec 0 (lastTick D)) as [L | L]; [lia |].
  apply from_lastTick in L. change (inject_Z 0) with 0 in L. lra.
Qed.

Lemma num_ge_true (x y : Q) : Js.num_ge x y = true <-> y <= x.
Proof. unfold Js.num_ge. apply Qle_bool_iff. Qed.

Lemma num_ge_false (x y : Q) : Js.num_ge x y = false <-> x < y.
Proof.
  unfold Js.num_ge. split.
  - intros F. apply Qnot_le_lt. intros L. apply Qle_bool_iff in L. congruence.
  - intros L. destruct (Qle_bool y x) eqn:E; [| reflexivity].
    apply Qle_bool_iff in E. lra.
Qed.

Lemma progress_formula (s : Q) (k : Z) :
  0 < s -> progress s k = Qmin 1 (inject_Z k / s).
Proof.
  intros H. unfold progress, Js.num_eq.
  destruct (Qeq_bool s 0) eqn:E; [| reflexivity].
  apply Qeq_bool_iff in E. lra.
Qed.

Lemma progress_before (D : Q) (k : Z) :
  0 < D -> (0 <= k < lastTick D)%Z ->
  progress (steps D) k == inject_Z k / steps D
  /\ 0 <= progress (steps D) k < 1.
Proof.
  intros HD [H0 Hk]. pose proof (steps_pos D HD) as Hs.
  apply before_lastTick in Hk. rewrite progress_formula by exact Hs.
  assert (Hq : 0 <= inject_Z k / steps D < 1).
  { split.
    - apply Qle_shift_div_l; [exact Hs |]. rewrite Qmult_0_l.
      change 0 with (inject_Z 0). now rewrite <- Zle_Qle.
    - apply Qlt_shift_div_r; [exact Hs |]. lra. }
  assert (E : Qmin 1 (inject_Z k / steps D) == inject_Z k / steps D).
  { apply Q.min_r. lra. }
  rewrite E. split; [reflexivity | exact Hq].
Qed.

Lemma progress_from (D : Q) (k : Z) :
  0 < D -> (lastTick D <= k)%Z -> progress (steps D) k == 1.
Proof.
  intros HD Hk. pose proof (steps_pos D HD) as Hs.
  apply from_lastTick in Hk. rewrite progress_formula by exact Hs.
  apply Q.min_l. apply Qle_shift_div_l; [exact Hs | lra].
Qed.

Lemma progress_monotone (D : Q) (j k : Z) :
  0 < D -> (j <= k)%Z -> progress (steps D) j <= progress (steps D) k.
Proof.
  intros HD Hjk. pose proof (steps_pos D HD) as Hs.
  rewrite !progress_formula by exact Hs.
  apply Q.min_le_compat_l.
  apply Qle_shift_div_l; [exact Hs |].
  assert (E : inject_Z j / steps D * steps D == inject_Z j) by (field; lra).
  rewrite E. now rewrite <- Zle_Qle.
Qed.

(** *** The ramp of the crossfader *)

(** The mixer the ramp has written after call [k]. *)
Lemma ramp_running (t : TransitionType) (fromDeck : DeckId)
  (D fromStart toStart : Q) (m : Mixer) (n : nat) :
  t <> FadeInOut -> 0 < D -> (Z.of_nat (S n) < lastTick D)%Z ->
  ticks t fromDeck (steps D) fromStart toStart (S n) (rampStart toStart m)
  = mkRamp (Z.of_nat (S n)) true
      (mkMixer (rampValue fromDeck (progress (steps D) (Z.of_nat (S n))))
               (fromVolume m) toStart).
Proof.
  intros Ht HD. induction n as [| n IH]; intros Hn.
  - cbn [ticks]. unfold rampStart, intervalTick. cbn [running negb step mixer].
    change (0 + 1)%Z with (Z.of_nat 1).
    assert (F : Js.num_ge (inject_Z (Z.of_nat 1)) (steps D) = false).
    { apply num_ge_false. now apply before_lastTick. }
    rewrite F. destruct t; try reflexivity. congruence.
  - change (ticks t fromDeck (steps D) fromStart toStart (S (S n))
              (rampStart toStart m))
      with (intervalTick t fromDeck (steps D) fromStart toStart
              (ticks t fromDeck (steps D) fromStart toStart (S n)
                 (rampStart toStart m))).
    rewrite IH by lia. unfold intervalTick. cbn [running negb step mixer].
    replace (Z.of_nat (S n) + 1)%Z with (Z.of_nat (S (S n))) by lia.
    assert (F : Js.num_ge (inject_Z (Z.of_nat (S (S n)))) (steps D) = false).
    { apply num_ge_false. now apply before_lastTick. }
    rewrite F. cbn [fromVolume toVolume].
    destruct t; try reflexivity. congruence.
Qed.

Lemma ticks_stopped (t : TransitionType) (fromDeck : DeckId)
  (s fromStart toStart : Q) (n : nat) (r : Ramp) :
  running r = false -> ticks t fromDeck s fromStart toStart n r = r.
Proof.
  intros H. induction n as [| n IH]; [reflexivity |].
  cbn [ticks]. rewrite IH. unfold intervalTick. now rewrite H.
Qed.

Lemma ticks_add (t : TransitionType) (fromDeck : DeckId)
  (s fromStart toStart : Q) (a b : nat) (r : Ramp) :
  ticks t fromDeck s fromStart toStart (a + b) r
  = ticks t fromDeck s fromStart toStart a
      (ticks t fromDeck s fromStart toStart b r).
Proof.
  induction a as [| a IH]; [reflexivity |].
  cbn [ticks Nat.add]. now rewrite IH.
Qed.

(** The call that reaches the end clears the interval and hands the mixer
    to [finishTransition]. *)
Lemma ramp_last (t : TransitionType) (fromDeck : DeckId)
  (D fromStart toStart : Q) (m : Mixer) (n : nat) :
  0 < D -> Z.of_nat (S n) = lastTick D ->
  ticks t fromDeck (steps D) fromStart toStart (S n) (rampStart toStart m)
  = mkRamp (lastTick D) false (mkMixer (direction fromDeck) (3 # 4) toStart).
Proof.
  intros HD Hn.
  assert (Hprev :
    step (ticks t fromDeck (steps D) fromStart toStart n (rampStart toStart m))
    = Z.of_nat n
    /\ running (ticks t fromDeck (steps D) fromStart toStart n
                  (rampStart toStart m)) = true
    /\ (t <> FadeInOut ->
        toVolume (mixer (ticks t fromDeck (steps D) fromStart toStart n
                           (rampStart toStart m))) = toStart)).
  { assert (G : forall k, (Z.of_nat k < lastTick D)%Z ->
      step (ticks t fromDeck (steps D) fromStart toStart k
              (rampStart toStart m)) = Z.of_nat k
      /\ running (ticks t fromDeck (steps D) fromStart toStart k
                    (rampStart toStart m)) = true
      /\ (t <> FadeInOut ->
          toVolume (mixer (ticks t fromDeck (steps D) fromStart toStart k
                             (rampStart toStart m))) = toStart)).
    { induction k as [| k IH]; intros Hk.
      - cbn. auto.
      - destruct IH as (Es & Er & Ev); [lia |].
        cbn [ticks]. unfold intervalTick. rewrite Er, Es. cbn [negb].
        replace (Z.of_nat k + 1)%Z with (Z.of_nat (S k)) by lia.
        assert (F : Js.num_ge (inject_Z (Z.of_nat (S k))) (steps D) = false).
        { apply num_ge_false. now apply before_lastTick. }
        rewrite F. cbn [step running mixer].
        split; [reflexivity |]. split; [reflexivity |].
        intros Ht. destruct t; cbn [toVolume]; try (now apply Ev).
        congruence. }
    apply G. lia. }
  destruct Hprev as (Es & Er & Ev).
  cbn [ticks]. unfold intervalTick. rewrite Er, Es. cbn [negb].
  replace (Z.of_nat n + 1)%Z with (lastTick D) by lia.
  assert (T : Js.num_ge (inject_Z (lastTick D)) (steps D) = true).
  { apply num_ge_true. apply from_lastTick. lia. }
  rewrite T. unfold finishTransition.
  destruct t; cbn [toVolume]; try (rewrite Ev by discriminate); reflexivity.
Qed.

Lemma ramp_finished (t : TransitionType) (fromDeck : DeckId)
  (D fromStart toStart : Q) (m : Mixer) (n : nat) :
  0 < D -> (lastTick D <= Z.of_nat n)%Z ->
  ticks t fromDeck (steps D) fromStart toStart n (rampStart toStart m)
  = mkRamp (lastTick D) false (mkMixer (direction fromDeck) (3 # 4) toStart).
Proof.
  intros HD Hn. pose proof (lastTick_pos D HD) as HL.
  replace n with ((n - Z.to_nat (lastTick D)) + S (Z.to_nat (lastTick D) - 1))%nat
    by lia.
  rewrite ticks_add, (ramp_last t fromDeck D fromStart toStart m) by (auto; lia).
  now apply ticks_stopped.
Qed.

Lemma rampValue_range (fromDeck : DeckId) (p : Q) :
  0 <= p <= 1 -> -1 <= rampValue fromDeck p <= 1.
Proof.
  intros H. unfold rampValue, direction. destruct fromDeck; lra.
Qed.

Lemma rampValue_end (fromDeck : DeckId) (p : Q) :
  p == 1 -> rampValue fromDeck p == direction fromDeck.
Proof.
  intros E. unfold rampValue, direction. destruct fromDeck; lra.
Qed.

Lemma rampValue_towards (fromDeck : DeckId) (p q : Q) :
  p <= q ->
  direction fromDeck * rampValue fromDeck p
  <= direction fromDeck * rampValue fromDeck q.
Proof.
  intros H. unfold rampValue, direction. destruct fromDeck; lra.
Qed.

Lemma direction_range (fromDeck : DeckId) :
  -1 <= direction fromDeck <= 1.
Proof. unfold direction. destruct fromDeck; lra. Qed.

(** The crossfader after call [n >= 1] of a ramp that moves it. *)
Lemma crossfader_at (t : TransitionType) (fromDeck : DeckId)
  (D fromStart toStart : Q) (m : Mixer) (n : nat) :
  t <> FadeInOut -> 0 < D -> (1 <= n)%nat ->
  crossfader (mixer (ticks t fromDeck (steps D) fromStart toStart n
                       (rampStart toStart m)))
  == rampValue fromDeck (progress (steps D) (Z.of_nat n))
  /\ running (ticks t fromDeck (steps D) fromStart toStart n
                (rampStart toStart m))
     = (Z.of_nat n <? lastTick D)%Z.
Proof.
  intros Ht HD Hn. destruct n as [| n]; [lia |].
  destruct (Z_lt_le_dec (Z.of_nat (S n)) (lastTick D)) as [L | L].
  - rewrite ramp_running by assumption. cbn [mixer crossfader running].
    split; [reflexivity |]. symmetry. now apply Z.ltb_lt.
  - rewrite ramp_finished by assumption. cbn [mixer crossfader running].
    split.
    + symmetry. apply rampValue_end. now apply progress_from.
    + symmetry. now apply Z.ltb_ge.
Qed.

Lemma progress_range (D : Q) (k : Z) :
  0 < D -> (0 <= k)%Z -> 0 <= progress (steps D) k <= 1.
Proof.
  intros HD Hk.
  destruct (Z_lt_le_dec k (lastTick D)) as [L | L].
  - destruct (progress_before D k HD (conj Hk L)) as [_ H]. lra.
  - pose proof (progress_from D k HD L). lra.
Qed.

(** X26. The ramp of a crossfade.  For every style that moves the crossfader
    and a positive length, the interval writes the position
    -d + 2 d min(1, n / steps) at its call n (d = 1 when deck A is the outgoing
    deck, -1 otherwise): the crossfader stays in -1..1, never moves back
    towards the outgoing deck, and the interval runs exactly until call
    ceil(steps), which leaves the crossfader on the incoming deck, at the
    value [finishTransition] sets; the incoming deck keeps its start
    volume. *)
Theorem crossfader_ramp_ends_on_incoming_deck (t : TransitionType)
  (fromDeck : DeckId) (D fromStart toStart : Q) (m : Mixer) (n : nat) :
  t <> FadeInOut -> t <> Cut -> 0 < D -> (1 <= n)%nat ->
  let at_call k :=
    ticks t fromDeck (steps D) fromStart toStart k (rampStart toStart m) in
  crossfader (mixer (at_call n))
  == rampValue fromDeck (Qmin 1 (inject_Z (Z.of_nat n) / steps D))
  /\ -1 <= crossfader (mixer (at_call n)) <= 1
  /\ direction fromDeck * crossfader (mixer (at_call n))
     <= direction fromDeck * crossfader (mixer (at_call (S n)))
  /\ running (at_call n) = (Z.of_nat n <? lastTick D)%Z
  /\ (running (at_call n) = false ->
      mixer (at_call n) = mkMixer (direction fromDeck) (3 # 4) toStart)
  /\ toVolume (mixer (at_call n)) = toStart.
Proof.
  intros Ht _ HD Hn. cbv zeta.
  destruct (crossfader_at t fromDeck D fromStart toStart m n Ht HD Hn)
    as [Ec Er].
  destruct (crossfader_at t fromDeck D fromStart toStart m (S n) Ht HD
              ltac:(lia)) as [Ec' _].
  pose proof (progress_range D (Z.of_nat n) HD ltac:(lia)) as Hp.
  split; [| split; [| split; [| split; [| split]]]].
  - rewrite Ec, progress_formula by now apply steps_pos. reflexivity.
  - rewrite Ec. now apply rampValue_range.
  - rewrite Ec, Ec'. apply rampValue_towards.
    apply progress_monotone; [exact HD | lia].
  - exact Er.
  - rewrite Er. intros F. apply Z.ltb_ge in F.
    now rewrite ramp_finished.
  - destruct n as [| n]; [lia |].
    destruct (Z_lt_le_dec (Z.of_nat (S n)) (lastTick D)) as [L | L].
    + now rewrite ramp_running.
    + now rewrite ramp_finished.
Qed.

Lemma crossfader_ramp_ends_on_incoming_deck_witness :
  let at_call k :=
    ticks Crossfade DeckA (steps 1) (3 # 4) (3 # 4) k
      (rampStart (3 # 4) (mkMixer 0 (3 # 4) (3 # 4))) in
  crossfader (mixer (at_call 5%nat))
  == rampValue DeckA (Qmin 1 (inject_Z (Z.of_nat 5) / steps 1))
  /\ -1 <= crossfader (mixer (at_call 5%nat)) <= 1
  /\ direction DeckA * crossfader (mixer (at_call 5%nat))
     <= direction DeckA * crossfader (mixer (at_call 6%nat))
  /\ running (at_call 5%nat) = (Z.of_nat 5 <? lastTick 1)%Z
  /\ (running (at_call 5%nat) = false ->
      mixer (at_call 5%nat) = mkMixer (direction DeckA) (3 # 4) (3 # 4))
  /\ toVolume (mixer (at_call 5%nat)) = 3 # 4.
Proof.
  apply (crossfader_ramp_ends_on_incoming_deck Crossfade DeckA 1 (3 # 4)
           (3 # 4) (mkMixer 0 (3 # 4) (3 # 4)) 5).
  - discriminate.
  - discriminate.
  - reflexivity.
  - lia.
Defined.

(** *** Fade In/Out *)

Lemma fade_running (fromDeck : DeckId) (D fromStart toStart : Q)
  (m : Mixer) (n : nat) :
  0 < D -> (Z.of_nat (S n) < lastTick D)%Z ->
  ticks FadeInOut fromDeck (steps D) fromStart toStart (S n)
    (rampStart toStart m)
  = mkRamp (Z.of_nat (S n)) true
      (mkMixer 0
         (fromStart * (1 - progress (steps D) (Z.of_nat (S n))))
         (toStart * progress (steps D) (Z.of_nat (S n)))).
Proof.
  intros HD. induction n as [| n IH]; intros Hn.
  - cbn [ticks]. unfold rampStart, intervalTick. cbn [running negb step mixer].
    change (0 + 1)%Z with (Z.of_nat 1).
    assert (F : Js.num_ge (inject_Z (Z.of_nat 1)) (steps D) = false).
    { apply num_ge_false. now apply before_lastTick. }
    now rewrite F.
  - change (ticks FadeInOut fromDeck (steps D) fromStart toStart (S (S n))
              (rampStart toStart m))
      with (intervalTick FadeInOut fromDeck (steps D) fromStart toStart
              (ticks FadeInOut fromDeck (steps D) fromStart toStart (S n)
                 (rampStart toStart m))).
    rewrite IH by lia. unfold intervalTick. cbn [running negb step mixer].
    replace (Z.of_nat (S n) + 1)%Z with (Z.of_nat (S (S n))) by lia.
    assert (F : Js.num_ge (inject_Z (Z.of_nat (S (S n)))) (steps D) = false).
    { apply num_ge_false. now apply before_lastTick. }
    now rewrite F.
Qed.

(** X27. The ramp of "Fade In/Out".  While the interval runs the crossfader
    is held at the centre, the fader of the outgoing deck falls linearly
    from its start volume and the fader of the incoming deck rises linearly
    to its start volume, each within 0 and its start volume and the two
    shares adding up to 1; the interval runs exactly until call
    ceil(steps), which leaves the incoming deck at its start volume, the
    crossfader on the incoming deck and the emptied deck's fader at
    0.75. *)
Theorem fade_in_out_ramp (fromDeck : DeckId) (D fromStart toStart : Q)
  (m : Mixer) (n : nat) :
  0 < D -> 0 <= fromStart -> 0 <= toStart -> (1 <= n)%nat ->
  let r :=
    ticks FadeInOut fromDeck (steps D) fromStart toStart n
      (rampStart toStart m) in
  let share := inject_Z (Z.of_nat n) / steps D in
  running r = (Z.of_nat n <? lastTick D)%Z
  /\ (running r = true ->
      crossfader (mixer r) = 0
      /\ fromVolume (mixer r) == fromStart * (1 - share)
      /\ toVolume (mixer r) == toStart * share
      /\ 0 <= share < 1
      /\ 0 <= fromVolume (mixer r) <= fromStart
      /\ 0 <= toVolume (mixer r) <= toStart)
  /\ (running r = false ->
      mixer r = mkMixer (direction fromDeck) (3 # 4) toStart).
Proof.
  intros HD Hf Ht Hn. cbv zeta. destruct n as [| n]; [lia |].
  destruct (Z_lt_le_dec (Z.of_nat (S n)) (lastTick D)) as [L | L].
  - rewrite fade_running by assumption. cbn [running mixer].
    split; [symmetry; now apply Z.ltb_lt |]. split; [| discriminate].
    intros _. cbn [crossfader fromVolume toVolume].
    destruct (progress_before D (Z.of_nat (S n)) HD ltac:(lia)) as [E R].
    rewrite E in *. split; [reflexivity |].
    split; [reflexivity |]. split; [reflexivity |].
    split; [exact R |]. split; nra.
  - rewrite ramp_finished by assumption. cbn [running mixer].
    split; [symmetry; now apply Z.ltb_ge |]. split; [discriminate |].
    reflexivity.
Qed.

Lemma fade_in_out_ramp_witness :
  let r :=
    ticks FadeInOut DeckB (steps 2) (3 # 4) (1 # 2) 10
      (rampStart (1 # 2) (mkMixer (-1) (3 # 4) (3 # 4))) in
  let share := inject_Z (Z.of_nat 10) / steps 2 in
  running r = (Z.of_nat 10 <? lastTick 2)%Z
  /\ (running r = true ->
      crossfader (mixer r) = 0
      /\ fromVolume (mixer r) == (3 # 4) * (1 - share)
      /\ toVolume (mixer r) == (1 # 2) * share
      /\ 0 <= share < 1
      /\ 0 <= fromVolume (mixer r) <= 3 # 4
      /\ 0 <= toVolume (mixer r) <= 1 # 2)
  /\ (running r = false ->
      mixer r = mkMixer (direction DeckB) (3 # 4) (1 # 2)).
Proof.
  apply (fade_in_out_ramp DeckB 2 (3 # 4) (1 # 2)
           (mkMixer (-1) (3 # 4) (3 # 4)) 10).
  - reflexivity.
  - vm_compute. discriminate.
  - vm_compute. discriminate.
  - lia.
Defined.

(** *** The "Smart" choice *)

Lemma chosenTransition_smart (settings : AutoDjSettings)
  (fromSong nextTrack : Song) :
  transitionType settings = Smart ->
  chosenTransition settings (Some fromSong) nextTrack = (FilterFade, 12)
  \/ chosenTransition settings (Some fromSong) nextTrack = (EQFade, 8)
  \/ chosenTransition settings (Some fromSong) nextTrack = (Crossfade, 6).
Proof.
  intros E. unfold chosenTransition. rewrite E.
  destruct (sameGenre _ _ && Js.num_le _ 2); [now left |].
  destruct (Js.num_gt _ 4); [right; now left | right; now right].
Qed.

Lemma lastTick_whole (D : Z) : lastTick (inject_Z D) = (20 * D)%Z.
Proof.
  unfold lastTick, steps.
  assert (E : inject_Z D * 1000 / 50 == inject_Z (20 * D)).
  { rewrite inject_Z_mult. change (inject_Z 20) with 20. field. }
  rewrite (Qceiling_comp _ _ E). apply Qceiling_Z.
Qed.

(** X28. A "Smart" transition from a loaded deck always completes.  The
    style chosen is Filter Fade (12 s), EQ Fade (8 s) or Crossfade (6 s),
    whatever length the settings hold, so the ramp takes 240, 160 or 120
    calls of the 50 ms interval: before that call the interval is set,
    from that call on it is cleared with the crossfader on the incoming
    deck. *)
Theorem smart_transition_completes (settings : AutoDjSettings)
  (fromSong nextTrack : Song) (fromDeck : DeckId) (fromStart toStart : Q)
  (m : Mixer) (n : nat) :
  transitionType settings = Smart ->
  let chosen := chosenTransition settings (Some fromSong) nextTrack in
  let r :=
    ticks (fst chosen) fromDeck (steps (snd chosen)) fromStart toStart n
      (rampStart toStart m) in
  (chosen = (FilterFade, 12) \/ chosen = (EQFade, 8)
   \/ chosen = (Crossfade, 6))
  /\ running r = (Z.of_nat n <? 20 * Qceiling (snd chosen))%Z
  /\ (running r = false ->
      mixer r = mkMixer (direction fromDeck) (3 # 4) toStart).
Proof.
  intros E. cbv zeta.
  pose proof (chosenTransition_smart settings fromSong nextTrack E) as H.
  split; [exact H |].
  assert (G : forall (t : TransitionType) (D : Z),
             t <> FadeInOut -> (0 < D)%Z ->
             running (ticks t fromDeck (steps (inject_Z D)) fromStart toStart n
                        (rampStart toStart m))
             = (Z.of_nat n <? 20 * Qceiling (inject_Z D))%Z
             /\ (running (ticks t fromDeck (steps (inject_Z D)) fromStart
                            toStart n (rampStart toStart m)) = false ->
                 mixer (ticks t fromDeck (steps (inject_Z D)) fromStart toStart
                          n (rampStart toStart m))
                 = mkMixer (direction fromDeck) (3 # 4) toStart)).
  { intros t D Ht HD. rewrite Qceiling_Z, <- lastTick_whole.
    assert (HQ : 0 < inject_Z D).
    { change 0 with (inject_Z 0). now rewrite <- Zlt_Qlt. }
    destruct (Z_lt_le_dec (Z.of_nat n) (lastTick (inject_Z D))) as [L | L].
    - destruct n as [| n].
      + cbn [ticks rampStart running]. split; [| discriminate].
        symmetry. now apply Z.ltb_lt.
      + rewrite ramp_running by assumption. cbn [running].
        split; [| discriminate]. symmetry. now apply Z.ltb_lt.
    - rewrite ramp_finished by assumption. cbn [running mixer].
      split; [| reflexivity]. symmetry. now apply Z.ltb_ge. }
  destruct H as [-> | [-> | ->]]; cbn [fst snd].
  - apply (G FilterFade 12%Z); [discriminate | lia].
  - apply (G EQFade 8%Z); [discriminate | lia].
  - apply (G Crossfade 6%Z); [discriminate | lia].
Qed.

Lemma smart_transition_completes_witness :
  let chosen :=
    chosenTransition initialSettings (Some Scenario.trackOne)
      Scenario.trackTwo in
  let r :=
    ticks (fst chosen) DeckA (steps (snd chosen)) (3 # 4) (3 # 4) 3
      (rampStart (3 # 4) (mkMixer 0 (3 # 4) (3 # 4))) in
  (chosen = (FilterFade, 12) \/ chosen = (EQFade, 8)
   \/ chosen = (Crossfade, 6))
  /\ running r = (Z.of_nat 3 <? 20 * Qceiling (snd chosen))%Z
  /\ (running r = false ->
      mixer r = mkMixer (direction DeckA) (3 # 4) (3 # 4)).
Proof.
  apply (smart_transition_completes initialSettings Scenario.trackOne
           Scenario.trackTwo DeckA (3 # 4) (3 # 4)
           (mkMixer 0 (3 # 4) (3 # 4)) 3).
  reflexivity.
Defined.

(** *** The levels the incoming deck starts with *)

Lemma num_gt_true (x y : Q) : Js.num_gt x y = true <-> y < x.
Proof.
  unfold Js.num_gt. split.
  - intros F. apply Qnot_le_lt. intros L. apply Qle_bool_iff in L.
    rewrite L in F. discriminate.
  - intros L. destruct (Qle_bool x y) eqn:E; [| reflexivity].
    apply Qle_bool_iff in E. lra.
Qed.

Lemma truthy_pos (x : Q) : 0 < x -> Js.truthy_num x = true.
Proof.
  intros H. unfold Js.truthy_num. destruct (Qeq_bool x 0) eqn:E;
    [| reflexivity].
  apply Qeq_bool_iff in E. lra.
Qed.

Lemma cappedGain_monotone (g h : Q) :
  g <= h -> Qmax (1 # 2) (Qmin (3 # 2) g) <= Qmax (1 # 2) (Qmin (3 # 2) h).
Proof.
  intros H. apply Q.max_le_compat_l. now apply Q.min_le_compat_l.
Qed.

Lemma cappedGain_range (g : Q) :
  (1 # 2) <= Qmax (1 # 2) (Qmin (3 # 2) g) <= 3 # 2.
Proof.
  split; [apply Q.le_max_l |].
  apply Q.max_lub; [lra | apply Q.le_min_l].
Qed.

Lemma cappedGain_at_1 : Qmax (1 # 2) (Qmin (3 # 2) 1) == 1.
Proof. reflexivity. Qed.

Lemma autoGain_volume (settings : AutoDjSettings)
  (fromDeckState newToDeckState : DeckState) (fromLoudness toLoudness : Q) :
  autoGain settings = true ->
  perceivedLoudness fromDeckState = Some fromLoudness ->
  perceivedLoudness newToDeckState = Some toLoudness ->
  0 < fromLoudness -> 0 < toLoudness ->
  toDeckStartVolume settings fromDeckState newToDeckState
  = (3 # 4) * Qmax (1 # 2) (Qmin (3 # 2) (fromLoudness / toLoudness)).
Proof.
  intros Hg Hfl Htl Hf Ht. unfold toDeckStartVolume.
  rewrite Hg, Hfl, Htl. rewrite !truthy_pos by assumption.
  now rewrite (proj2 (num_gt_true toLoudness 0) Ht).
Qed.

Lemma quotient_monotone (x y z : Q) : 0 < z -> x <= y -> x / z <= y / z.
Proof.
  intros Hz H. apply Qle_shift_div_l; [exact Hz |].
  assert (E : x / z * z == x) by (field; lra). now rewrite E.
Qed.

(** X29. The levels of the incoming deck.  With auto-gain and beat-match on
    and loudness and tempo known on both sides, the fader volume the
    incoming deck starts with lies between 0.375 and 1.125: it is 0.375
    when the outgoing deck is at most half as loud, 1.125 when it is at
    least one and a half times as loud, 0.75 at equal loudness, on the
    side of 0.75 of the louder deck otherwise, and never decreases when
    the outgoing deck is louder.  The rate the incoming deck is started at
    is positive, 1 at equal tempo, at least 1 for a slower incoming track
    and at most 1 for a faster one. *)
Theorem incoming_deck_levels (settings : AutoDjSettings)
  (fromDeckState newToDeckState : DeckState) (fromSong nextTrack : Song)
  (fromLoudness toLoudness fromBpm nextBpm : Q) :
  autoGain settings = true -> beatMatch settings = true ->
  perceivedLoudness fromDeckState = Some fromLoudness ->
  perceivedLoudness newToDeckState = Some toLoudness ->
  0 < fromLoudness -> 0 < toLoudness ->
  song fromDeckState = Some fromSong ->
  song_bpm fromSong = Some fromBpm -> song_bpm nextTrack = Some nextBpm ->
  0 < fromBpm -> 0 < nextBpm ->
  let v := toDeckStartVolume settings fromDeckState newToDeckState in
  let rate := targetPlaybackRate settings fromDeckState nextTrack in
  (3 # 8) <= v <= (9 # 8)
  /\ (fromLoudness <= (1 # 2) * toLoudness -> v == 3 # 8)
  /\ ((3 # 2) * toLoudness <= fromLoudness -> v == 9 # 8)
  /\ (fromLoudness == toLoudness -> v == 3 # 4)
  /\ (fromLoudness <= toLoudness -> v <= 3 # 4)
  /\ (toLoudness <= fromLoudness -> (3 # 4) <= v)
  /\ (forall (louder : DeckState) (louderLoudness : Q),
        perceivedLoudness louder = Some louderLoudness ->
        fromLoudness <= louderLoudness ->
        v <= toDeckStartVolume settings louder newToDeckState)
  /\ 0 < rate
  /\ (fromBpm == nextBpm -> rate == 1)
  /\ (nextBpm <= fromBpm -> 1 <= rate)
  /\ (fromBpm <= nextBpm -> rate <= 1).
Proof.
  intros Hg Hb Hfl Htl Hf Ht Hs Hfb Hnb Hfp Hnp. cbv zeta.
  rewrite (autoGain_volume settings fromDeckState newToDeckState
             fromLoudness toLoudness Hg Hfl Htl Hf Ht).
  assert (Er : targetPlaybackRate settings fromDeckState nextTrack
               = fromBpm / nextBpm).
  { unfold targetPlaybackRate. rewrite Hb, Hs, Hfb, Hnb.
    rewrite !truthy_pos by assumption.
    now rewrite (proj2 (num_gt_true nextBpm 0) Hnp). }
  rewrite Er. clear Er.
  set (g := fromLoudness / toLoudness).
  pose proof (cappedGain_range g) as [Hlow Hhigh].
  assert (E1 : toLoudness / toLoudness == 1) by (field; lra).
  assert (E2 : nextBpm / nextBpm == 1) by (field; lra).
  split; [lra |].
  split; [| split; [| split; [| split; [| split; [| split]]]]].
  - intros H1.
    assert (G1 : g <= 1 # 2).
    { unfold g. apply Qle_shift_div_r; [exact Ht | exact H1]. }
    assert (E : Qmax (1 # 2) (Qmin (3 # 2) g) == 1 # 2).
    { apply Q.max_l. apply Qle_trans with g; [apply Q.le_min_r | exact G1]. }
    rewrite E. reflexivity.
  - intros H2.
    assert (G2 : (3 # 2) <= g).
    { unfold g. apply Qle_shift_div_l; [exact Ht | exact H2]. }
    assert (E : Qmax (1 # 2) (Qmin (3 # 2) g) == 3 # 2).
    { rewrite (Q.min_l _ _ G2). apply Q.max_r. lra. }
    rewrite E. reflexivity.
  - intros H. assert (G : g == 1) by (unfold g; rewrite H; exact E1).
    rewrite G, cappedGain_at_1. reflexivity.
  - intros H.
    assert (G : g <= 1).
    { unfold g. rewrite <- E1. now apply quotient_monotone. }
    apply cappedGain_monotone in G. rewrite cappedGain_at_1 in G. lra.
  - intros H.
    assert (G : 1 <= g).
    { unfold g. rewrite <- E1. now apply quotient_monotone. }
    apply cappedGain_monotone in G. rewrite cappedGain_at_1 in G. lra.
  - intros louder louderLoudness Hll Hle.
    rewrite (autoGain_volume settings louder newToDeckState
               louderLoudness toLoudness Hg Hll Htl) by (assumption || lra).
    assert (G : g <= louderLoudness / toLoudness).
    { unfold g. now apply quotient_monotone. }
    apply cappedGain_monotone in G. lra.
  - split; [apply Qlt_shift_div_l; [exact Hnp | lra] |].
    split; [| split].
    + intros H. rewrite H. exact E2.
    + intros H. rewrite <- E2. now apply quotient_monotone.
    + intros H. rewrite <- E2. now apply quotient_monotone.
Qed.

Lemma incoming_deck_levels_witness :
  let v :=
    toDeckStartVolume initialSettings Scenario.playing Fixtures.loadedQuiet in
  let rate :=
    targetPlaybackRate initialSettings Scenario.playing
      (songWithDetails Fixtures.quiet) in
  (3 # 8) <= v <= (9 # 8)
  /\ (1 # 10 <= (1 # 2) * (1 # 25) -> v == 3 # 8)
  /\ ((3 # 2) * (1 # 25) <= 1 # 10 -> v == 9 # 8)
  /\ (1 # 10 == 1 # 25 -> v == 3 # 4)
  /\ (1 # 10 <= 1 # 25 -> v <= 3 # 4)
  /\ (1 # 25 <= 1 # 10 -> (3 # 4) <= v)
  /\ (forall (louder : DeckState) (louderLoudness : Q),
        perceivedLoudness louder = Some louderLoudness ->
        1 # 10 <= louderLoudness ->
        v <= toDeckStartVolume initialSettings louder Fixtures.loadedQuiet)
  /\ 0 < rate
  /\ (120 == 96 -> rate == 1)
  /\ (96 <= 120 -> 1 <= rate)
  /\ (120 <= 96 -> rate <= 1).
Proof.
  apply (incoming_deck_levels initialSettings Scenario.playing
           Fixtures.loadedQuiet (songWithDetails Scenario.track)
           (songWithDetails Fixtures.quiet) (1 # 10) (1 # 25) 120 96);
    reflexivity.
Defined.

(** The auto-gain volume can be above 1. *)
Example auto_gain_above_fader_top :
  toDeckStartVolume initialSettings Scenario.playing Fixtures.loadedQuiet
  == 9 # 8.
Proof. reflexivity. Qed.

End TransitionFacts.

Section DeckCopyFacts.

Import Deck AutoDj.
Local Open Scope Q_scope.

(** X23. A track loaded from the library is a copy.  When the identifier
    [loadSong] draws for the deck's song is not the identifier of a library
    entry, loading a listed file leaves the library's names and identifiers
    as they were, the entry of that file among them, and puts a song with
    the drawn identifier on the deck: no library entry has the identifier
    of the deck's song.  The selection compares identifiers, so as long as
    the history holds no library identifier either (it holds deck copies),
    no entry counts as current or as played and the tiered pool is the
    whole library, the entry of the track on the deck included. *)
Theorem loaded_track_stays_in_selection_pool (a : Analysis)
  (lib history : list Song) (d : DeckState) :
  In (fileName a) (Library.names lib) ->
  (forall s, In s lib -> ~ song_id s == newId a) ->
  (forall s h, In s lib -> In h history -> ~ song_id s == song_id h) ->
  let lib' := Library.loadSong_library a lib in
  let deck := loadSong (Some a) d in
  option_map song_id (song deck) = Some (newId a)
  /\ Library.names lib' = Library.names lib
  /\ ids lib' = ids lib
  /\ (forall entry, In entry lib' -> ~ song_id entry == newId a)
  /\ (exists entry,
        In entry lib' /\ song_name entry = fileName a
        /\ option_map song_name (song deck) = Some (song_name entry)
        /\ ~ song_id entry == newId a)
  /\ selectionPool lib' history (option_map song_id (song deck)) None = lib'.
Proof.
  intros Hlisted Hnew Hhist. cbv zeta.
  destruct (loadSong_library_listed a lib Hlisted) as [En Ei].
  set (lib' := Library.loadSong_library a lib) in *.
  assert (Hid : forall s, In s lib' -> exists s0, In s0 lib /\ song_id s0 = song_id s).
  { intros s Hs. assert (H : In (song_id s) (ids lib')) by now apply in_map.
    rewrite Ei in H. apply in_map_iff in H as (s0 & E & H0). now exists s0. }
  assert (Hfresh : forall entry, In entry lib' -> ~ song_id entry == newId a).
  { intros entry He. destruct (Hid entry He) as (s0 & H0 & E0).
    rewrite <- E0. now apply Hnew. }
  split; [reflexivity |]. split; [exact En |]. split; [exact Ei |].
  split; [exact Hfresh |]. split.
  - rewrite <- En in Hlisted. unfold Library.names in Hlisted.
    apply in_map_iff in Hlisted as (entry & E & Hin). exists entry.
    split; [exact Hin |]. split; [exact E |].
    split; [now rewrite E | now apply Hfresh].
  - cbn [loadSong loadSong_update spread_newDeckState with_volume with_keyLock
         with_scratchModeEnabled song option_map songWithDetails song_id].
    assert (E1 : tier1 lib' history (Some (newId a)) None = lib').
    { unfold tier1. apply forallb_filter_id. apply forallb_forall.
      intros s Hs. destruct (Hid s Hs) as (s0 & H0 & E0).
      rewrite !andb_true_iff, negb_true_iff. split; [split |].
      - destruct (Js.has_num (ids history) (song_id s)) eqn:T; [| reflexivity].
        apply has_num_iff in T as (y & Hy & E). unfold ids in Hy.
        apply in_map_iff in Hy as (h & <- & Hh). rewrite <- E0 in E.
        now apply (Hhist s0 h H0 Hh) in E.
      - apply id_differs_iff. intros y [= <-]. now apply Hfresh.
      - reflexivity. }
    unfold selectionPool. rewrite E1.
    destruct lib' as [| x xs] eqn:El; reflexivity.
Qed.

Lemma loaded_track_stays_in_selection_pool_witness :
  let lib' := Library.loadSong_library Fixtures.reloaded Fixtures.listed in
  let deck := loadSong (Some Fixtures.reloaded) initialDeckState in
  option_map song_id (song deck) = Some (newId Fixtures.reloaded)
  /\ Library.names lib' = Library.names Fixtures.listed
  /\ ids lib' = ids Fixtures.listed
  /\ (forall entry, In entry lib' ->
                    ~ song_id entry == newId Fixtures.reloaded)
  /\ (exists entry,
        In entry lib' /\ song_name entry = fileName Fixtures.reloaded
        /\ option_map song_name (song deck) = Some (song_name entry)
        /\ ~ song_id entry == newId Fixtures.reloaded)
  /\ selectionPool lib' [] (option_map song_id (song deck)) None = lib'.
Proof.
  apply (loaded_track_stays_in_selection_pool Fixtures.reloaded
           Fixtures.listed [] initialDeckState).
  - vm_compute. right. now left.
  - intros s [<- | [<- | []]]; vm_compute; discriminate.
  - intros s h _ [].
Defined.

(** The condition on the drawn identifier is needed: were it the
    identifier of a library entry, that entry would count as the current
    track and the pool would leave it out. *)
Example drawn_identifier_of_an_entry :
  let a :=
    {| newId := song_id Scenario.trackOne;
       fileName := fileName Fixtures.reloaded;
       file := file Fixtures.reloaded;
       audioDuration := audioDuration Fixtures.reloaded;
       waveformData := waveformData Fixtures.reloaded;
       loudness := loudness Fixtures.reloaded;
       detectedKey := detectedKey Fixtures.reloaded;
       mockGenre := mockGenre Fixtures.reloaded;
       mockBpm := mockBpm Fixtures.reloaded;
       energy := energy Fixtures.reloaded |} in
  let lib' := Library.loadSong_library a Fixtures.listed in
  let deck := loadSong (Some a) initialDeckState in
  In Scenario.trackOne lib'
  /\ length lib' = 2%nat
  /\ length (selectionPool lib' [] (option_map song_id (song deck)) None)
     = 1%nat
  /\ ~ In Scenario.trackOne
         (selectionPool lib' [] (option_map song_id (song deck)) None).
Proof.
  cbv zeta. split; [now left |]. split; [reflexivity |].
  split; [reflexivity |]. vm_compute. intros [H | []]. discriminate H.
Qed.

(** With every criterion off and sequential order, the track that plays is
    the one picked next. *)
Example playing_track_is_picked_next :
  let lib := Library.loadSong_library Fixtures.reloaded
               [songWithDetails Scenario.track; Scenario.trackOne] in
  let st :=
    mkSession lib [] []
      (togglePlay initialDeckState true None 1000
         (loadSong (Some Fixtures.reloaded) initialDeckState))
      initialDeckState DeckA Fixtures.plainSettings [] in
  option_map song_name (getNextTrack st (1 # 2) None)
  = option_map song_name (song (deckA st)).
Proof. vm_compute. reflexivity. Qed.

End DeckCopyFacts.

Section BeatPadFacts.

Import Deck BeatStore DeckControls BeatPads.
Local Open Scope string_scope.

Lemma array_put_length {A : Type} (i : nat) (x : option A)
  (xs : list (option A)) :
  (i < length xs)%nat -> length (array_put i x xs) = length xs.
Proof.
  revert xs. induction i as [| i IH]; intros [| y xs] H; simpl in *;
    try lia.
  f_equal. apply IH. lia.
Qed.

Lemma wellFormed_get (B : Beats) (c : string) :
  wellFormed B -> In c categories ->
  exists pads, Obj.get c B = Some pads /\ length pads = 12%nat.
Proof.
  intros (d & t & i & -> & Hd & Ht & Hi) [<- | [<- | [<- | []]]];
    cbn; eauto.
Qed.

Lemma loadBeat_beats_cell (B : Beats) (c : string) (k : nat) (b : Beat) :
  wellFormed B -> In c categories -> (k < 12)%nat ->
  wellFormed (loadBeat_beats c k b B)
  /\ forall c' k', cell (loadBeat_beats c k b B) c' k'
                   = if samePad c k c' k' then Some b else cell B c' k'.
Proof.
  intros HB Hc Hk.
  destruct (wellFormed_get B c HB Hc) as (pads & Eg & _).
  assert (E : loadBeat_beats c k b B = place B (mkItem "" c k b)).
  { unfold loadBeat_beats, place. cbn [item_category item_index item_beat].
    now rewrite Eg. }
  rewrite E. exact (place_cell B (mkItem "" c k b) HB Hc Hk).
Qed.

Lemma set_pads_cell (B : Beats) (c : string) (pads' : Pads) :
  wellFormed B -> In c categories -> length pads' = 12%nat ->
  wellFormed (Obj.set c pads' B)
  /\ forall c' k', cell (Obj.set c pads' B) c' k'
                   = if String.eqb c c' then nth k' pads' None
                     else cell B c' k'.
Proof.
  intros (d & t & i & -> & Hd & Ht & Hi) Hc Hl.
  destruct Hc as [<- | [<- | [<- | []]]].
  - assert (Obj.set "drum" pads'
              [("drum", d); ("tuning", t); ("instrumental", i)]
            = [("drum", pads'); ("tuning", t); ("instrumental", i)]) as ->
      by reflexivity.
    split; [exists pads', t, i; auto |].
    intros c' k'. unfold cell. cbn [Obj.get].
    now destruct (String.eqb "drum" c').
  - assert (Obj.set "tuning" pads'
              [("drum", d); ("tuning", t); ("instrumental", i)]
            = [("drum", d); ("tuning", pads'); ("instrumental", i)]) as ->
      by reflexivity.
    split; [exists d, pads', i; auto |].
    intros c' k'. unfold cell. cbn [Obj.get].
    destruct (String.eqb_spec "drum" c') as [<- | N]; [reflexivity |].
    now destruct (String.eqb "tuning" c').
  - assert (Obj.set "instrumental" pads'
              [("drum", d); ("tuning", t); ("instrumental", i)]
            = [("drum", d); ("tuning", t); ("instrumental", pads')]) as ->
      by reflexivity.
    split; [exists d, t, pads'; auto |].
    intros c' k'. unfold cell. cbn [Obj.get].
    destruct (String.eqb_spec "drum" c') as [<- | N]; [reflexivity |].
    destruct (String.eqb_spec "tuning" c') as [<- | N']; [reflexivity |].
    now destruct (String.eqb "instrumental" c').
Qed.

Lemma handleRemoveBeat_cell (B : Beats) (c : string) (k : nat) :
  wellFormed B -> In c categories -> (k < 12)%nat ->
  exists B', handleRemoveBeat c k B = Some B' /\ wellFormed B'
    /\ forall c' k', cell B' c' k'
                     = if samePad c k c' k' then None else cell B c' k'.
Proof.
  intros HB Hc Hk.
  destruct (wellFormed_get B c HB Hc) as (pads & Eg & Hl).
  unfold handleRemoveBeat. rewrite Eg. eexists. split; [reflexivity |].
  destruct (set_pads_cell B c (array_put k None pads) HB Hc) as [Hwf Hcell].
  { rewrite array_put_length; lia. }
  split; [exact Hwf |]. intros c' k'. rewrite Hcell. unfold samePad.
  destruct (String.eqb_spec c c') as [<- | N]; cbn [andb]; [| reflexivity].
  rewrite nth_array_put. unfold cell. now rewrite Eg.
Qed.

Lemma edit_wellFormed (e : PadEdit) (B : Beats) :
  wellFormed B -> onPad e -> exists B', edit e B = Some B' /\ wellFormed B'.
Proof.
  intros HB He. destruct e as [c k b | c k |]; cbn [edit onPad] in *.
  - destruct He as [Hc Hk]. eexists. split; [reflexivity |].
    now apply loadBeat_beats_cell.
  - destruct He as [Hc Hk].
    destruct (handleRemoveBeat_cell B c k HB Hc Hk) as (B' & E & Hwf & _).
    eauto.
  - eexists. split; [reflexivity |]. apply emptyBeats_wellFormed.
Qed.

Lemma edits_wellFormed (es : list PadEdit) (B : Beats) :
  wellFormed B -> Forall onPad es ->
  exists B', edits es B = Some B' /\ wellFormed B'.
Proof.
  revert B. induction es as [| e es IH]; intros B HB Hes; cbn [edits].
  - eauto.
  - apply Forall_cons_iff in Hes as [He Hes].
    destruct (edit_wellFormed e B HB He) as (B1 & E1 & H1). rewrite E1.
    now apply IH.
Qed.

(** X30. Editing the pads keeps the kit storable.  Whatever sequence of
    loads, removals and clears of the 36 pads is applied to a kit of three
    categories of twelve pads (the empty kit, a loaded kit), no edit
    throws, the kit keeps that shape, and saving it and loading it again
    gives a kit of that shape in which every pad holds what it held, with
    [file] and [audioBuffer] gone and every other field as it was.  A load
    or a removal changes its own pad only, and removing a beat loaded on an
    empty pad gives the kit from before. *)
Theorem pad_edits_keep_kit_storable (es : list PadEdit) (start : Beats)
  (db : Store) (c : string) (k : nat) (b : Beat) :
  wellFormed start -> Forall onPad es ->
  In c categories -> (k < 12)%nat ->
  (exists kit,
      edits es start = Some kit /\ wellFormed kit
      /\ let loaded :=
           loadBeatsFromDB (getAll (saveBeatsToDB kit (Some db))) in
         wellFormed loaded
         /\ forall c' k',
              cell loaded c' k'
              = option_map
                  (fun beat =>
                     mkBeat (beat_id beat) (beat_name beat) None None
                            (arrayBuffer beat) (beat_key beat)
                            (beat_bpm beat) (beat_genre beat)
                            (beat_energy beat))
                  (cell kit c' k'))
  /\ (forall c' k',
        cell (loadBeat_beats c k b start) c' k'
        = if samePad c k c' k' then Some b else cell start c' k')
  /\ (exists removed,
        handleRemoveBeat c k start = Some removed
        /\ forall c' k',
             cell removed c' k'
             = if samePad c k c' k' then None else cell start c' k')
  /\ (cell start c k = None ->
      handleRemoveBeat c k (loadBeat_beats c k b start) = Some start).
Proof.
  intros Hs Hes Hc Hk.
  destruct (loadBeat_beats_cell start c k b Hs Hc Hk) as [Hwl Hl].
  split; [| split; [| split]].
  - destruct (edits_wellFormed es start Hs Hes) as (kit & E & Hwf).
    exists kit. split; [exact E |]. split; [exact Hwf |]. cbv zeta.
    rewrite saved_kit_loads_stripped by exact Hwf.
    split; [now apply stripped_wellFormed |].
    intros c' k'. now rewrite cell_stripped.
  - exact Hl.
  - destruct (handleRemoveBeat_cell start c k Hs Hc Hk) as (B' & E & _ & H).
    eauto.
  - intros Hempty.
    destruct (handleRemoveBeat_cell (loadBeat_beats c k b start) c k Hwl Hc Hk)
      as (B' & E & Hwf & H).
    rewrite E. f_equal. apply beats_ext; [exact Hwf | exact Hs |].
    intros c' k' _ _. rewrite H, Hl.
    destruct (samePad c k c' k') eqn:S; [| reflexivity].
    unfold samePad in S. apply andb_prop in S as [S1 S2].
    apply String.eqb_eq in S1. apply Nat.eqb_eq in S2. subst.
    now symmetry.
Qed.

Lemma pad_edits_keep_kit_storable_witness :
  let b := Fixtures.kick in
  (exists kit,
      edits [LoadBeat "drum" 3 b; LoadBeat "tuning" 0 b; RemoveBeat "drum" 3]
        emptyBeats = Some kit
      /\ wellFormed kit
      /\ let loaded :=
           loadBeatsFromDB (getAll (saveBeatsToDB kit (Some []))) in
         wellFormed loaded
         /\ forall c' k',
              cell loaded c' k'
              = option_map
                  (fun beat =>
                     mkBeat (beat_id beat) (beat_name beat) None None
                            (arrayBuffer beat) (beat_key beat)
                            (beat_bpm beat) (beat_genre beat)
                            (beat_energy beat))
                  (cell kit c' k'))
  /\ (forall c' k',
        cell (loadBeat_beats "drum" 3 b emptyBeats) c' k'
        = if samePad "drum" 3 c' k' then Some b else cell emptyBeats c' k')
  /\ (exists removed,
        handleRemoveBeat "drum" 3 emptyBeats = Some removed
        /\ forall c' k',
             cell removed c' k'
             = if samePad "drum" 3 c' k' then None else cell emptyBeats c' k')
  /\ (cell emptyBeats "drum" 3 = None ->
      handleRemoveBeat "drum" 3 (loadBeat_beats "drum" 3 b emptyBeats)
      = Some emptyBeats).
Proof.
  apply (pad_edits_keep_kit_storable
           [LoadBeat "drum" 3 Fixtures.kick; LoadBeat "tuning" 0 Fixtures.kick;
            RemoveBeat "drum" 3]
           emptyBeats [] "drum" 3 Fixtures.kick).
  - exists emptyPads, emptyPads, emptyPads. repeat split.
  - repeat constructor; simpl; auto; lia.
  - simpl. auto.
  - lia.
Defined.

(** The kit of the three edits above, saved and loaded again: the beat on
    the first tuning pad comes back without its file and decoded audio. *)
Example edited_kit_saved_and_loaded :
  option_map
    (fun kit =>
       cell (loadBeatsFromDB (getAll (saveBeatsToDB kit (Some []))))
            "tuning" 0)
    (edits [LoadBeat "drum" 3 Fixtures.kick; LoadBeat "tuning" 0 Fixtures.kick;
            RemoveBeat "drum" 3] emptyBeats)
  = Some (Some (mkBeat 1700000002000 "kick.wav" None None
                  (Some (ArrayBufferHandle 4)) (Some "8A") (Some 120%Q)
                  (Some "House") None)).
Proof. reflexivity. Qed.

End BeatPadFacts.
